(** * helpers/ml_utils.py: threshold metrics, ROC sweep, transformers,
      model loading

    A shallow embedding of [src/helpers/ml_utils.py].

    Conventions of the embedding.
    - A float64 that the source only compares, sorts or copies is an exact
      rational ([Q]).  Where a value can be NaN (table cells, quantiles) the
      type is [option Q] and [None] is NaN.
    - Three lines of the source round a float64 and let the rounded value
      decide: the truncation of line 57, the cutoffs of line 88 and the
      comparison of the mean of line 114 with the threshold.  These are
      embedded twice.  [metrics], [auc_overall] and [DropMissing] compute
      them on exact rationals.  [metrics64], [auc_overall64] and
      [DropMissing64] compute them in binary64, on primitive floats.  The
      two differ where rounding moves a product across an integer or a
      quotient onto the threshold ([num_ones64_rounds]); the claims that
      this difference decides are settled on the binary64 embeddings.
      Rates and areas are exact quotients throughout; the code returns the
      nearest doubles.
    - A Python exception is a value [Err e] of [result]; a function that can
      raise returns [result A].
    - Functions of numpy, pandas, scikit-learn and pathlib are modelled from
      their documented behaviour, each in the module named after the library.
      [argsort] is a parameter: the source calls it with numpy's default
      [kind], which is not a stable sort and whose order of equal keys numpy
      does not specify. *)

From Stdlib Require Import QArith Qround ZArith Lia Lqa Sorted Permutation.
From Stdlib Require Import Ascii String.
From Stdlib Require Import PrimFloat SpecFloat FloatOps.
From stdpp Require Import base option list sorting strings gmap.

Local Open Scope Z_scope.

(** ** Exceptions and results *)

Inductive exn : Type :=
  | ValueError (msg : string)
  | OverflowError (msg : string)
  | TypeError (msg : string)
  | IndexError (msg : string)
  | KeyError (key : string)
  | ImportError (msg : string)
  | AttributeError (msg : string)
  | UnpicklingError (msg : string).

Inductive result (A : Type) : Type :=
  | Ok (a : A)
  | Err (e : exn).
Arguments Ok {A} a.
Arguments Err {A} e.

Global Instance result_bind : MBind result := λ A B k m,
  match m with
  | Ok a => k a
  | Err e => Err e
  end.
Global Instance result_ret : MRet result := @Ok.

Definition is_ok {A} (r : result A) : bool :=
  match r with Ok _ => true | Err _ => false end.

(** ** Rational helpers *)

Definition Qlt_bool (x y : Q) : bool := negb (Qle_bool y x).

Lemma Qlt_bool_iff (x y : Q) : Qlt_bool x y = true ↔ (x < y)%Q.
Proof.
  unfold Qlt_bool. rewrite negb_true_iff. split.
  - intros H. apply Qnot_le_lt. intros Hle.
    apply Qle_bool_iff in Hle. congruence.
  - intros H. destruct (Qle_bool y x) eqn:E; [|done].
    apply Qle_bool_iff in E. exfalso. by apply (Qlt_not_le x y).
Qed.

(** Python's [int(x)] on a float: truncation towards zero. *)
Definition py_int (x : Q) : Z := Z.quot (Qnum x) (Z.pos (Qden x)).

Definition len {A} (l : list A) : Z := Z.of_nat (length l).

(** ** binary64

    A float64 whose rounding matters is a primitive [float], the binary64
    of IEEE 754 with rounding to nearest, ties to even. *)

Module f64.

(** The double nearest to an integer, as Python converts [len(a1)] in a
    product with a float. *)
Definition of_Z (n : Z) : float :=
  SF2Prim (binary_normalize prec emax n 0 false).

(** The exact value of a finite double. *)
Definition to_Q (x : float) : option Q :=
  match Prim2SF x with
  | S754_zero _ => Some 0%Q
  | S754_finite s m e =>
      let v := (inject_Z (Z.pos m) * Qpower 2 e)%Q in
      Some (if s then (- v)%Q else v)
  | S754_infinity _ | S754_nan => None
  end.

(** Python's [int(x)] on a float: truncation towards zero; an infinity
    raises OverflowError and NaN raises ValueError. *)
Definition int (x : float) : result Z :=
  match Prim2SF x with
  | S754_zero _ => Ok 0
  | S754_finite s m e =>
      let a := Z.shiftl (Z.pos m) e in
      Ok (if s then - a else a)
  | S754_infinity _ =>
      Err (OverflowError "cannot convert float infinity to integer")
  | S754_nan => Err (ValueError "cannot convert float NaN to integer")
  end.

End f64.

(** ** numpy *)

Module np.

(** [np.ones(k)], [np.zeros(k)]: a negative dimension raises. *)
Definition full (v : Q) (k : Z) : result (list Q) :=
  if k <? 0 then Err (ValueError "negative dimensions are not allowed")
  else Ok (replicate (Z.to_nat k) v).
Definition ones : Z → result (list Q) := full 1%Q.
Definition zeros : Z → result (list Q) := full 0%Q.

(** [np.vstack([a1, a2])]: a matrix of two rows; the rows must have the
    same length. *)
Definition vstack2 (a1 a2 : list Q) : result (list Q * list Q) :=
  if decide (length a1 = length a2) then Ok (a1, a2)
  else Err (ValueError "all the input array dimensions must match exactly").

(** [v[idx]] for an index array: an index out of range raises. *)
Definition take {A} (v : list A) (idx : list nat) : result (list A) :=
  match mapM (λ i, v !! i) idx with
  | Some r => Ok r
  | None => Err (IndexError "index out of bounds")
  end.

(** [a[:, idx]] on a matrix of two rows. *)
Definition take_cols (a : list Q * list Q) (idx : list nat)
  : result (list Q * list Q) :=
  r0 ← take a.1 idx;
  r1 ← take a.2 idx;
  Ok (r0, r1).

(** [a[0, :] = v] and [a[1, :] = v]: the shapes must agree. *)
Definition set_row0 (a : list Q * list Q) (v : list Q)
  : result (list Q * list Q) :=
  if decide (length v = length a.1) then Ok (v, a.2)
  else Err (ValueError "could not broadcast input array").
Definition set_row1 (a : list Q * list Q) (v : list Q)
  : result (list Q * list Q) :=
  if decide (length v = length a.2) then Ok (a.1, v)
  else Err (ValueError "could not broadcast input array").

(** [np.linspace(start, stop, num)] for [num >= 2]: [num] evenly spaced
    points, both ends included. *)
Definition linspace (start stop : Q) (num : nat) : list Q :=
  let step := ((stop - start) / inject_Z (Z.of_nat (num - 1)))%Q in
  map (λ i, (start + inject_Z (Z.of_nat i) * step)%Q) (seq 0 num).

(** [np.linspace(start, stop, num)] in binary64, for [num >= 2]:
    [arange(num) * step + start] with [step = (stop - start) / (num - 1)],
    the last point then set to [stop]. *)
Definition linspace64 (start stop : float) (num : nat) : list float :=
  let step := ((stop - start) / f64.of_Z (Z.of_nat (num - 1)))%float in
  let y := (λ i, (f64.of_Z (Z.of_nat i) * step + start)%float) <$> seq 0 num in
  <[(num - 1)%nat := stop]> y.

(** The contract of [argsort] whatever the [kind]: the result is a
    permutation of the indices that lists the keys in ascending order. *)
Definition key (keys : list Q) (i : nat) : Q := nth i keys 0%Q.

Definition is_argsort (keys : list Q) (idx : list nat) : Prop :=
  idx ≡ₚ seq 0 (length keys) ∧
  Sorted (λ i j, (key keys i <= key keys j)%Q) idx.

(** A stable [argsort] moreover keeps equal keys in their input order. *)
Definition stable_lt (keys : list Q) (i j : nat) : Prop :=
  (key keys i < key keys j)%Q ∨ ((key keys i == key keys j)%Q ∧ (i < j)%nat).

Definition is_stable_argsort (keys : list Q) (idx : list nat) : Prop :=
  idx ≡ₚ seq 0 (length keys) ∧ Sorted (stable_lt keys) idx.

End np.

(** ** scikit-learn *)

Module sk.

(** [unique_labels]: the sorted distinct values of both label vectors. *)
Fixpoint insert_label (x : Q) (ls : list Q) : list Q :=
  match ls with
  | [] => [x]
  | y :: ls' =>
      if Qeq_bool x y then ls
      else if Qlt_bool x y then x :: ls
      else y :: insert_label x ls'
  end.

Definition unique_labels (y_true y_pred : list Q) : list Q :=
  foldr insert_label [] (y_true ++ y_pred).

(** Number of observations whose true label is [t] and predicted label
    is [q]. *)
Fixpoint count_pair (t q : Q) (y_true y_pred : list Q) : Z :=
  match y_true, y_pred with
  | yt :: y_true', yp :: y_pred' =>
      (if Qeq_bool yt t && Qeq_bool yp q then 1 else 0)
      + count_pair t q y_true' y_pred'
  | _, _ => 0
  end.

(** [confusion_matrix(y_true, y_pred)]: one row per true label, one column
    per predicted label, over the labels present in either vector. *)
Definition confusion_matrix (y_true y_pred : list Q) : list (list Z) :=
  let labels := unique_labels y_true y_pred in
  map (λ t, map (λ q, count_pair t q y_true y_pred) labels) labels.

Definition ravel (m : list (list Z)) : list Z := concat m.

End sk.

(** ** metrics *)

Record metrics_locals : Type := MetricsLocals {
  y_true : list Q;      (* a[0, :] at line 67 *)
  y_pred : list Q;      (* a[1, :] at line 67 *)
  tn : Z; fp : Z; fn : Z; tp : Z;
  accuracy : Q; precision : Q; recall : Q; tpr : Q; fpr : Q
}.

Section metrics.
Variable argsort : list Q → list nat.

(** Lines 54-65: the two label vectors handed to [confusion_matrix]. *)
Definition label_assignments (a1 a2 : list Q) (p : Q)
  : result (list Q * list Q) :=
  if Qeq_bool p 0 || Qeq_bool p 100 then
    Err (ValueError
           "Percentage targeting must be between 0 and 100 (exclusive).")
  else
    let num_ones := py_int ((p / 100) * inject_Z (len a1))%Q in
    let num_zeros := len a1 - num_ones in
    o ← np.ones num_ones;
    z ← np.zeros num_zeros;
    let targeting_vector := o ++ z in
    a ← np.vstack2 a1 a2;
    a ← np.take_cols a (argsort a.1);
    a ← np.set_row0 a targeting_vector;
    a ← np.take_cols a (argsort a.2);
    a ← np.set_row1 a targeting_vector;
    Ok a.

(** Lines 54-75, with every local of the second half kept. *)
Definition metrics_run (a1 a2 : list Q) (p : Q) : result metrics_locals :=
  a ← label_assignments a1 a2 p;
  match sk.ravel (sk.confusion_matrix a.1 a.2) with
  | [tn; fp; fn; tp] =>
      let accuracy := (inject_Z (tp + tn) / inject_Z (tp + tn + fp + fn))%Q in
      let precision := (inject_Z tp / inject_Z (tp + fp))%Q in
      let recall := (inject_Z tp / inject_Z (tp + fn))%Q in
      let tpr := recall in
      let fpr := (inject_Z fp / inject_Z (fp + tn))%Q in
      Ok (MetricsLocals a.1 a.2 tn fp fn tp accuracy precision recall tpr fpr)
  | [] | [_] | [_; _] | [_; _; _] =>
      Err (ValueError "not enough values to unpack (expected 4)")
  | _ => Err (ValueError "too many values to unpack (expected 4)")
  end.

Definition metrics (a1 a2 : list Q) (p : Q) : result (Q * Q * Q * Q * Q) :=
  m ← metrics_run a1 a2 p;
  Ok (accuracy m, precision m, recall m, tpr m, fpr m).

End metrics.

(** ** metrics, with lines 54-57 in binary64

    [metrics] above reads the percentage as an exact rational.  Line 57
    truncates a float64 product, and rounding can move it across an integer:
    [metrics64] computes lines 54-57 in binary64.  The observations remain
    rationals, since lines 61-65 only compare them, and the rates of lines
    69-73 are the exact quotients of the counts, of which the code returns
    the nearest doubles. *)

Section metrics64.
Variable argsort : list Q → list nat.

(** Lines 58-65, from the [num_ones] of line 57. *)
Definition label_vectors (a1 a2 : list Q) (num_ones : Z)
  : result (list Q * list Q) :=
  let num_zeros := len a1 - num_ones in
  o ← np.ones num_ones;
  z ← np.zeros num_zeros;
  let targeting_vector := o ++ z in
  a ← np.vstack2 a1 a2;
  a ← np.take_cols a (argsort a.1);
  a ← np.set_row0 a targeting_vector;
  a ← np.take_cols a (argsort a.2);
  a ← np.set_row1 a targeting_vector;
  Ok a.

(** Lines 67-73, from the two label vectors. *)
Definition confusion_rates (a : list Q * list Q) : result metrics_locals :=
  match sk.ravel (sk.confusion_matrix a.1 a.2) with
  | [tn; fp; fn; tp] =>
      let accuracy := (inject_Z (tp + tn) / inject_Z (tp + tn + fp + fn))%Q in
      let precision := (inject_Z tp / inject_Z (tp + fp))%Q in
      let recall := (inject_Z tp / inject_Z (tp + fn))%Q in
      let tpr := recall in
      let fpr := (inject_Z fp / inject_Z (fp + tn))%Q in
      Ok (MetricsLocals a.1 a.2 tn fp fn tp accuracy precision recall tpr fpr)
  | [] | [_] | [_; _] | [_; _; _] =>
      Err (ValueError "not enough values to unpack (expected 4)")
  | _ => Err (ValueError "too many values to unpack (expected 4)")
  end.

(** Line 57: [int((p/100)*len(a1))]. *)
Definition num_ones64 (p : float) (n : Z) : result Z :=
  f64.int (p / 100 * f64.of_Z n)%float.

(** Lines 54-65. *)
Definition label_assignments64 (a1 a2 : list Q) (p : float)
  : result (list Q * list Q) :=
  if (p =? 0)%float || (p =? 100)%float then
    Err (ValueError
           "Percentage targeting must be between 0 and 100 (exclusive).")
  else
    num_ones ← num_ones64 p (len a1);
    label_vectors a1 a2 num_ones.

(** Lines 54-73. *)
Definition metrics_run64 (a1 a2 : list Q) (p : float)
  : result metrics_locals :=
  a ← label_assignments64 a1 a2 p;
  confusion_rates a.

(** Lines 54-75. *)
Definition metrics64 (a1 a2 : list Q) (p : float)
  : result (Q * Q * Q * Q * Q) :=
  m ← metrics_run64 a1 a2 p;
  Ok (accuracy m, precision m, recall m, tpr m, fpr m).

End metrics64.

(** ** Two implementations of [argsort]

    Both sort by insertion: the indices are inserted in input order, each in
    front of the first index that [before] puts it before. *)

Fixpoint insert_by (before : nat → nat → bool) (i : nat) (l : list nat)
  : list nat :=
  match l with
  | [] => [i]
  | j :: l' => if before i j then i :: l else j :: insert_by before i l'
  end.

Definition insertion_argsort (before : list Q → nat → nat → bool)
    (keys : list Q) : list nat :=
  foldl (λ acc i, insert_by (before keys) i acc) [] (seq 0 (length keys)).

(** Stable: an index goes behind every index whose key is not greater. *)
Definition stable_argsort : list Q → list nat :=
  insertion_argsort (λ keys i j, Qlt_bool (np.key keys i) (np.key keys j)).

(** Not stable: an index goes in front of the indices with an equal key, so
    equal keys come out in reverse input order. *)
Definition reversing_argsort : list Q → list nat :=
  insertion_argsort (λ keys i j, Qle_bool (np.key keys i) (np.key keys j)).

(** * Properties *)

(** ** Results *)

Lemma bind_Ok {A B} (m : result A) (k : A → result B) (b : B) :
  m ≫= k = Ok b ↔ ∃ a, m = Ok a ∧ k a = Ok b.
Proof.
  destruct m as [a|e]; simpl; split.
  - intros H. by exists a.
  - by intros (a' & [= ->] & H).
  - done.
  - by intros (a' & [=] & _).
Qed.

(** ** Indexing by an index array *)

Section take.
Context {A : Type}.
Implicit Types (v : list A) (idx : list nat).

Lemma take_in_range v idx (d : A) :
  Forall (λ i, (i < length v)%nat) idx →
  np.take v idx = Ok ((λ i, nth i v d) <$> idx).
Proof.
  intros Hidx. unfold np.take.
  rewrite (proj2 (mapM_Some _ idx ((λ i, nth i v d) <$> idx))); [done|].
  induction Hidx as [|i idx Hi _ IH]; csimpl; constructor; [|done].
  destruct (nth_lookup_or_length v i d) as [->|]; [done|lia].
Qed.

Lemma nth_seq_self v (d : A) : (λ i, nth i v d) <$> seq 0 (length v) = v.
Proof.
  apply list_eq. intros i. rewrite list_lookup_fmap.
  destruct (decide (i < length v)%nat) as [Hi|Hi].
  - rewrite lookup_seq_lt by done. simpl.
    destruct (nth_lookup_or_length v i d) as [->|]; [done|lia].
  - rewrite lookup_seq_ge by lia. simpl. symmetry.
    apply lookup_ge_None. lia.
Qed.

Lemma take_permutation v idx :
  idx ≡ₚ seq 0 (length v) →
  ∃ r, np.take v idx = Ok r ∧ r ≡ₚ v ∧ length r = length v.
Proof.
  intros Hp. destruct v as [|d v'] eqn:Ev.
  - apply Permutation_nil_r in Hp as ->. by exists [].
  - rewrite <-Ev in *. exists ((λ i, nth i v d) <$> idx).
    assert ((λ i, nth i v d) <$> idx ≡ₚ v) as Hr.
    { rewrite Hp. by rewrite nth_seq_self. }
    split_and!; [|done|by rewrite Hr].
    apply take_in_range, Forall_forall. intros i Hi.
    rewrite Hp in Hi. apply elem_of_seq in Hi. lia.
Qed.

Lemma take_seq v : np.take v (seq 0 (length v)) = Ok v.
Proof.
  destruct v as [|d v'] eqn:Ev; [done|]. rewrite <-Ev.
  rewrite (take_in_range v _ d), nth_seq_self; [done|].
  apply Forall_forall. intros i Hi. apply elem_of_seq in Hi. lia.
Qed.
End take.

(** ** Truncation and the number of ones *)

Lemma inject_Z_nonneg (n : Z) : 0 ≤ n → (0 <= inject_Z n)%Q.
Proof. intros H. change 0%Q with (inject_Z 0). by rewrite <-Zle_Qle. Qed.

Lemma py_int_floor (x : Q) : (0 <= x)%Q → py_int x = Qfloor x.
Proof.
  destruct x as [a d]. unfold py_int, Qle. simpl. intros H.
  apply Z.quot_div_nonneg; lia.
Qed.

Lemma py_int_small (x : Q) : (0 <= x)%Q → (x < 1)%Q → py_int x = 0.
Proof.
  intros H0 H1. rewrite py_int_floor by done.
  pose proof (Qfloor_le x) as Hle. pose proof (Qlt_floor x) as Hlt.
  assert (inject_Z (Qfloor x) < inject_Z 1)%Q as Hu.
  { change (inject_Z 1) with 1%Q. lra. }
  assert (inject_Z (-1) < inject_Z (Qfloor x))%Q as Hl.
  { rewrite inject_Z_plus in Hlt.
    change (inject_Z 1) with 1%Q in Hlt. change (inject_Z (-1)) with (-1#1)%Q.
    lra. }
  rewrite <-Zlt_Qlt in Hu, Hl. lia.
Qed.

Lemma py_int_ge_1 (x : Q) : (1 <= x)%Q → 1 ≤ py_int x.
Proof.
  intros H1. rewrite py_int_floor by lra.
  change 1 with (Qfloor 1). by apply Qfloor_resp_le.
Qed.

(** ** The label vectors of [metrics] *)

(** The synthetic label vector of line 59 for [k] ones among [n]
    observations. *)
Definition targeting (k n : Z) : list Q :=
  replicate (Z.to_nat k) 1%Q ++ replicate (Z.to_nat (n - k)) 0%Q.

Definition num_ones_of (p : Q) (n : Z) : Z :=
  py_int ((p / 100) * inject_Z n)%Q.

Lemma length_targeting k n : 0 ≤ k ≤ n → length (targeting k n) = Z.to_nat n.
Proof.
  intros H. unfold targeting. rewrite length_app, !length_replicate. lia.
Qed.

Section label_assignments.
Variable argsort : list Q → list nat.
Hypothesis argsort_spec : ∀ keys, np.is_argsort keys (argsort keys).

Lemma take_cols_argsort (a : list Q * list Q) (keys : list Q) :
  length keys = length a.1 → length a.1 = length a.2 →
  ∃ r0 r1, np.take_cols a (argsort keys) = Ok (r0, r1)
           ∧ r0 ≡ₚ a.1 ∧ r1 ≡ₚ a.2.
Proof.
  intros Hk Hlen. destruct (argsort_spec keys) as [Hperm _].
  destruct (take_permutation a.1 (argsort keys)) as (r0 & E0 & P0 & _).
  { by rewrite <-Hk. }
  destruct (take_permutation a.2 (argsort keys)) as (r1 & E1 & P1 & _).
  { by rewrite <-Hlen, <-Hk. }
  exists r0, r1. unfold np.take_cols. by rewrite E0, E1.
Qed.

(** Whenever the guard of line 54 passes and the number of ones is
    between 0 and the number of observations, lines 57-65 succeed:
    the predicted labels are the targeting vector and the true labels
    a rearrangement of it. *)
Lemma label_assignments_ok (a1 a2 : list Q) (p : Q) :
  Qeq_bool p 0 = false → Qeq_bool p 100 = false →
  length a1 = length a2 →
  0 ≤ num_ones_of p (len a1) ≤ len a1 →
  ∃ yt, label_assignments argsort a1 a2 p
          = Ok (yt, targeting (num_ones_of p (len a1)) (len a1))
        ∧ yt ≡ₚ targeting (num_ones_of p (len a1)) (len a1).
Proof.
  intros Hp0 Hp100 Hlen Hk. unfold label_assignments.
  rewrite Hp0, Hp100. simpl.
  fold (num_ones_of p (len a1)). set (k := num_ones_of p (len a1)) in *.
  unfold np.ones, np.zeros, np.full.
  destruct (Z.ltb_spec k 0) as [?|_]; [lia|].
  destruct (Z.ltb_spec (len a1 - k) 0) as [?|_]; [lia|].
  cbn [mbind result_bind]. fold (targeting k (len a1)).
  assert (length (targeting k (len a1)) = length a1) as Htv.
  { rewrite length_targeting by done. unfold len. lia. }
  unfold np.vstack2. rewrite decide_True by done.
  cbn [mbind result_bind fst snd].
  destruct (take_cols_argsort (a1, a2) a1) as (r0 & r1 & -> & P0 & P1);
    [done..|].
  cbn [mbind result_bind fst snd] in *.
  unfold np.set_row0. cbn [fst snd].
  rewrite decide_True by (by rewrite P0). cbn [mbind result_bind fst snd].
  destruct (take_cols_argsort (targeting k (len a1), r1) r1)
    as (yt & r1' & -> & Pyt & P1'); cbn [fst snd].
  { by rewrite Htv, P1. }
  { by rewrite Htv, P1. }
  cbn [mbind result_bind fst snd] in *.
  unfold np.set_row1. cbn [fst snd].
  rewrite decide_True by (by rewrite P1', P1, Htv).
  exists yt. done.
Qed.
End label_assignments.

Section num_ones.
Variables (p : Q) (n : Z).
Hypothesis n_nonneg : 0 ≤ n.

Lemma num_ones_of_bounds :
  (0 < p)%Q → (p < 100)%Q →
  0 ≤ num_ones_of p n ≤ n ∧ (0 < n → num_ones_of p n < n).
Proof.
  intros Hp0 Hp100. pose proof (inject_Z_nonneg n n_nonneg) as Hn.
  unfold num_ones_of. change (p / 100)%Q with (p * (1#100))%Q.
  set (x := (p * (1#100) * inject_Z n)%Q).
  assert (0 <= x)%Q as Hx0 by (unfold x; nra).
  assert (x <= inject_Z n)%Q as Hxn by (unfold x; nra).
  rewrite py_int_floor by done.
  pose proof (Qfloor_le x) as Hfl.
  split_and!.
  - change 0 with (Qfloor 0). by apply Qfloor_resp_le.
  - rewrite Zle_Qle. lra.
  - intros Hpos. rewrite Zlt_Qlt.
    assert (0 < inject_Z n)%Q.
    { change 0%Q with (inject_Z 0). by rewrite <-Zlt_Qlt. }
    assert (x < inject_Z n)%Q by (unfold x; nra). lra.
Qed.

Lemma num_ones_of_pos :
  (100 <= p * inject_Z n)%Q → 1 ≤ num_ones_of p n.
Proof.
  intros H. unfold num_ones_of. change (p / 100)%Q with (p * (1#100))%Q.
  apply py_int_ge_1. lra.
Qed.
End num_ones.

(** ** The confusion matrix of two 0/1 vectors *)

Definition binary (l : list Q) : Prop := Forall (λ x, x = 0%Q ∨ x = 1%Q) l.

Definition has (v : Q) (l : list Q) : bool := existsb (Qeq_bool v) l.

Fixpoint count_val (v : Q) (l : list Q) : Z :=
  match l with
  | [] => 0
  | x :: l' => (if Qeq_bool x v then 1 else 0) + count_val v l'
  end.

Lemma binary_app l1 l2 : binary l1 → binary l2 → binary (l1 ++ l2).
Proof. apply Forall_app_2. Qed.

Lemma binary_replicate n v : v = 0%Q ∨ v = 1%Q → binary (replicate n v).
Proof. intros H. by apply Forall_replicate. Qed.

Lemma binary_targeting k n : binary (targeting k n).
Proof. apply binary_app; apply binary_replicate; auto. Qed.

Lemma binary_Permutation l1 l2 : l1 ≡ₚ l2 → binary l1 → binary l2.
Proof. intros Hp. unfold binary. by rewrite Hp. Qed.

Lemma has_Permutation v l1 l2 : l1 ≡ₚ l2 → has v l1 = has v l2.
Proof.
  intros Hp. unfold has. apply eq_true_iff_eq. rewrite !existsb_exists.
  split; intros (x & Hx & E); exists x; (split; [|done]);
    rewrite <-?list_elem_of_In in *; [by rewrite <-Hp|by rewrite Hp].
Qed.

Lemma has_app v l1 l2 : has v (l1 ++ l2) = has v l1 || has v l2.
Proof. apply existsb_app. Qed.

Lemma count_val_Permutation v l1 l2 :
  l1 ≡ₚ l2 → count_val v l1 = count_val v l2.
Proof. induction 1; simpl; lia. Qed.

Lemma count_val_app v l1 l2 :
  count_val v (l1 ++ l2) = count_val v l1 + count_val v l2.
Proof. induction l1; simpl; lia. Qed.

Lemma count_val_replicate v w n :
  count_val v (replicate n w) = if Qeq_bool w v then Z.of_nat n else 0.
Proof. induction n; simpl; destruct (Qeq_bool w v); lia. Qed.

Lemma count_val_nonneg v l : 0 ≤ count_val v l.
Proof. induction l; simpl; [done|]. case_match; lia. Qed.

Lemma has_count_val v l : has v l = true ↔ 0 < count_val v l.
Proof.
  induction l as [|x l IH]; simpl; [lia|].
  pose proof (count_val_nonneg v l).
  rewrite orb_true_iff, IH.
  assert (Qeq_bool v x = Qeq_bool x v) as ->.
  { apply eq_true_iff_eq. rewrite !Qeq_bool_iff. split; by symmetry. }
  destruct (Qeq_bool x v); intuition lia.
Qed.

Lemma count_val_targeting_1 k n :
  0 ≤ k ≤ n → count_val 1 (targeting k n) = k.
Proof.
  intros H. unfold targeting.
  rewrite count_val_app, !count_val_replicate. simpl. lia.
Qed.

Lemma count_val_targeting_0 k n :
  0 ≤ k ≤ n → count_val 0 (targeting k n) = n - k.
Proof.
  intros H. unfold targeting.
  rewrite count_val_app, !count_val_replicate. simpl. lia.
Qed.

Lemma count_pair_nonneg t q yt yp : 0 ≤ sk.count_pair t q yt yp.
Proof.
  revert yp. induction yt as [|x yt IH]; intros [|y yp]; simpl; try done.
  specialize (IH yp). case_match; lia.
Qed.

(** The labels found in two 0/1 vectors, in ascending order. *)
Lemma unique_labels_binary yt yp :
  binary yt → binary yp →
  sk.unique_labels yt yp
  = (if has 0 (yt ++ yp) then [0%Q] else [])
    ++ (if has 1 (yt ++ yp) then [1%Q] else []).
Proof.
  intros Ht Hp. unfold sk.unique_labels.
  pose proof (binary_app _ _ Ht Hp) as Hb. clear Ht Hp.
  induction Hb as [|x l Hx _ IH]; [done|].
  cbn [foldr]. rewrite IH. unfold has. cbn [existsb].
  fold (has 0 l) (has 1 l).
  destruct Hx as [-> | ->], (has 0 l), (has 1 l); reflexivity.
Qed.

(** Row and column sums of the four cells. *)
Lemma count_pair_binary yt yp :
  binary yt → binary yp → length yt = length yp →
  let c t q := sk.count_pair t q yt yp in
  c 0%Q 0%Q + c 0%Q 1%Q = count_val 0 yt ∧
  c 1%Q 0%Q + c 1%Q 1%Q = count_val 1 yt ∧
  c 0%Q 1%Q + c 1%Q 1%Q = count_val 1 yp ∧
  c 0%Q 0%Q + c 1%Q 0%Q = count_val 0 yp ∧
  c 0%Q 0%Q + c 0%Q 1%Q + c 1%Q 0%Q + c 1%Q 1%Q = len yt.
Proof.
  intros Ht. revert yp.
  induction Ht as [|x yt Hx _ IH]; intros yp Hp Hlen;
    destruct Hp as [|y yp Hy Hp]; simplify_eq/=; [done|].
  destruct (IH yp Hp) as (E1 & E2 & E3 & E4 & E5); [done|].
  unfold len in *.
  destruct Hx as [-> | ->], Hy as [-> | ->]; simpl; lia.
Qed.

Lemma has_targeting_1 k n :
  0 ≤ k ≤ n → has 1 (targeting k n) = bool_decide (0 < k).
Proof.
  intros H. apply eq_true_iff_eq.
  rewrite has_count_val, count_val_targeting_1, bool_decide_eq_true; done.
Qed.

Lemma has_targeting_0 k n :
  0 ≤ k ≤ n → has 0 (targeting k n) = bool_decide (k < n).
Proof.
  intros H. apply eq_true_iff_eq.
  rewrite has_count_val, count_val_targeting_0, bool_decide_eq_true; [lia|done].
Qed.

(** The flattened confusion matrix of a rearranged targeting vector against
    the targeting vector: four cells when both labels occur, one cell when
    only one label occurs, none for empty vectors. *)
Lemma ravel_confusion_targeting (yt : list Q) (k n : Z) :
  0 ≤ k ≤ n → yt ≡ₚ targeting k n →
  let c t q := sk.count_pair t q yt (targeting k n) in
  sk.ravel (sk.confusion_matrix yt (targeting k n))
  = match bool_decide (k < n), bool_decide (0 < k) with
    | true, true => [c 0%Q 0%Q; c 0%Q 1%Q; c 1%Q 0%Q; c 1%Q 1%Q]
    | true, false => [c 0%Q 0%Q]
    | false, true => [c 1%Q 1%Q]
    | false, false => []
    end.
Proof.
  intros Hk Hperm. unfold sk.confusion_matrix.
  rewrite unique_labels_binary;
    [|by eapply binary_Permutation, binary_targeting|apply binary_targeting].
  rewrite !has_app, !(has_Permutation _ _ _ Hperm), !orb_diag.
  rewrite has_targeting_0, has_targeting_1 by done.
  by destruct (bool_decide (k < n)), (bool_decide (0 < k)).
Qed.

Section metrics_facts.
Variable argsort : list Q → list nat.
Hypothesis argsort_spec : ∀ keys, np.is_argsort keys (argsort keys).

Lemma label_assignments_inv (a1 a2 : list Q) (p : Q) (yt yp : list Q) :
  label_assignments argsort a1 a2 p = Ok (yt, yp) →
  Qeq_bool p 0 = false ∧ Qeq_bool p 100 = false ∧
  length a1 = length a2 ∧
  0 ≤ num_ones_of p (len a1) ≤ len a1 ∧
  yp = targeting (num_ones_of p (len a1)) (len a1) ∧
  yt ≡ₚ yp.
Proof.
  intros Hrun.
  assert (Qeq_bool p 0 = false ∧ Qeq_bool p 100 = false ∧
          length a1 = length a2 ∧
          0 ≤ num_ones_of p (len a1) ≤ len a1) as (Hp0 & Hp100 & Hlen & Hk).
  { revert Hrun. unfold label_assignments.
    destruct (Qeq_bool p 0), (Qeq_bool p 100); simpl; try done.
    fold (num_ones_of p (len a1)).
    unfold np.ones, np.zeros, np.full, np.vstack2.
    destruct (Z.ltb_spec (num_ones_of p (len a1)) 0); [done|].
    destruct (Z.ltb_spec (len a1 - num_ones_of p (len a1)) 0); [done|].
    cbn [mbind result_bind].
    destruct (decide (length a1 = length a2)); [|done].
    intros _. split_and!; [done..|lia|lia]. }
  destruct (label_assignments_ok argsort argsort_spec a1 a2 p)
    as (yt' & E & Hperm); [done..|].
  rewrite E in Hrun. by simplify_eq.
Qed.

(** When the targeting vector has both labels, line 67 unpacks four
    counts and [metrics] returns. *)
Lemma metrics_run_ok (a1 a2 : list Q) (p : Q) :
  Qeq_bool p 0 = false → Qeq_bool p 100 = false →
  length a1 = length a2 →
  1 ≤ num_ones_of p (len a1) < len a1 →
  ∃ m, metrics_run argsort a1 a2 p = Ok m.
Proof.
  intros Hp0 Hp100 Hlen Hk. unfold metrics_run.
  destruct (label_assignments_ok argsort argsort_spec a1 a2 p)
    as (yt & -> & Hperm); [done..|lia|].
  cbn [mbind result_bind fst snd].
  rewrite ravel_confusion_targeting by (done || lia).
  rewrite !bool_decide_eq_true_2 by lia. eauto.
Qed.

(** With a single label, or none, the unpack of line 67 fails. *)
Lemma metrics_run_single_class (a1 a2 : list Q) (p : Q) :
  Qeq_bool p 0 = false → Qeq_bool p 100 = false →
  length a1 = length a2 →
  0 ≤ num_ones_of p (len a1) ≤ len a1 →
  ¬ (1 ≤ num_ones_of p (len a1) < len a1) →
  metrics_run argsort a1 a2 p
  = Err (ValueError "not enough values to unpack (expected 4)").
Proof.
  intros Hp0 Hp100 Hlen Hk Hdeg. unfold metrics_run.
  destruct (label_assignments_ok argsort argsort_spec a1 a2 p)
    as (yt & -> & Hperm); [done..|].
  cbn [mbind result_bind fst snd].
  rewrite ravel_confusion_targeting by done.
  repeat case_bool_decide; (done || lia).
Qed.

(** What holds of the locals whenever [metrics] returns. *)
Lemma metrics_run_inv (a1 a2 : list Q) (p : Q) (m : metrics_locals) :
  metrics_run argsort a1 a2 p = Ok m →
  let k := num_ones_of p (len a1) in
  Qeq_bool p 0 = false ∧ Qeq_bool p 100 = false ∧
  length a1 = length a2 ∧ 1 ≤ k < len a1 ∧
  y_pred m = targeting k (len a1) ∧ y_true m ≡ₚ y_pred m ∧
  0 ≤ tn m ∧ 0 ≤ fp m ∧ 0 ≤ fn m ∧ 0 ≤ tp m ∧
  tn m + fp m + fn m + tp m = len a1 ∧
  tp m + fp m = k ∧ tp m + fn m = k ∧ fp m + tn m = len a1 - k ∧
  accuracy m = (inject_Z (tp m + tn m)
                / inject_Z (tp m + tn m + fp m + fn m))%Q ∧
  precision m = (inject_Z (tp m) / inject_Z (tp m + fp m))%Q ∧
  recall m = (inject_Z (tp m) / inject_Z (tp m + fn m))%Q ∧
  tpr m = recall m ∧
  fpr m = (inject_Z (fp m) / inject_Z (fp m + tn m))%Q.
Proof.
  intros Hrun k. unfold metrics_run in Hrun.
  apply bind_Ok in Hrun as ([yt yp] & Hla & Hrun).
  apply label_assignments_inv in Hla
    as (Hp0 & Hp100 & Hlen & Hk & -> & Hperm).
  fold k in Hk, Hrun, Hperm. cbn [fst snd] in Hrun.
  rewrite ravel_confusion_targeting in Hrun by done.
  pose proof (binary_targeting k (len a1)) as Hbp.
  assert (binary yt) as Hbt by (by eapply binary_Permutation).
  destruct (count_pair_binary yt (targeting k (len a1)))
    as (E1 & E2 & E3 & E4 & E5); [done|done|by rewrite Hperm|].
  rewrite (count_val_Permutation _ _ _ Hperm) in E1.
  rewrite (count_val_Permutation _ _ _ Hperm) in E2.
  rewrite count_val_targeting_0 in E1, E4 by done.
  rewrite count_val_targeting_1 in E2, E3 by done.
  assert (len yt = len a1) as Hn.
  { unfold len. rewrite Hperm, length_targeting by done.
    unfold len. lia. }
  rewrite Hn in E5.
  repeat case_bool_decide; simplify_eq; cbn.
  split_and!; try done; try apply count_pair_nonneg; lia.
Qed.
End metrics_facts.

(** ** The two [argsort] implementations meet numpy's contract *)

Section insertion.
Variables (R : relation nat) (before : nat → nat → bool).
Hypothesis before_true : ∀ i j, before i j = true → R i j.
Hypothesis before_false : ∀ i j, (j < i)%nat → before i j = false → R j i.

Lemma insert_by_Permutation i l : insert_by before i l ≡ₚ i :: l.
Proof.
  induction l as [|j l IH]; simpl; [done|].
  destruct (before i j); [done|]. by rewrite IH, Permutation_swap.
Qed.

Lemma insert_by_HdRel j i l :
  HdRel R j l → R j i → HdRel R j (insert_by before i l).
Proof.
  intros Hhd Hji. destruct Hhd as [|k l Hjk]; simpl; [by constructor|].
  destruct (before i k); by constructor.
Qed.

Lemma insert_by_Sorted i l :
  Forall (λ j, (j < i)%nat) l → Sorted R l → Sorted R (insert_by before i l).
Proof.
  intros Hlt Hs. induction Hs as [|j l Hs IH Hhd]; simpl.
  { repeat constructor. }
  apply Forall_cons in Hlt as [Hj Hlt].
  destruct (before i j) eqn:E.
  - constructor; [by constructor|]. constructor. by apply before_true.
  - constructor; [by apply IH|].
    apply insert_by_HdRel; [done|]. by apply before_false.
Qed.

Lemma insertion_prefix n :
  let acc := foldl (λ acc i, insert_by before i acc) [] (seq 0 n) in
  acc ≡ₚ seq 0 n ∧ Sorted R acc.
Proof.
  induction n as [|n [IHp IHs]]; cbn zeta.
  { split; [done|constructor]. }
  rewrite seq_S, foldl_app. cbn [foldl plus]. split.
  - by rewrite insert_by_Permutation, IHp, Permutation_cons_append.
  - apply insert_by_Sorted; [|done].
    apply Forall_forall. intros j Hj. rewrite IHp in Hj.
    apply elem_of_seq in Hj. lia.
Qed.
End insertion.

Lemma stable_argsort_stable (keys : list Q) :
  np.is_stable_argsort keys (stable_argsort keys).
Proof.
  apply (insertion_prefix (np.stable_lt keys)).
  - intros i j H. left. by apply Qlt_bool_iff.
  - intros i j Hji H. unfold np.stable_lt.
    destruct (Qlt_le_dec (np.key keys j) (np.key keys i)) as [?|Hle]; [by left|].
    right. split; [|done]. apply Qle_antisym; [|done].
    apply Qnot_lt_le. intros Hlt. apply Qlt_bool_iff in Hlt. congruence.
Qed.

Lemma stable_lt_le (keys : list Q) (i j : nat) :
  np.stable_lt keys i j → (np.key keys i <= np.key keys j)%Q.
Proof. intros [H|[H _]]; lra. Qed.

Lemma Sorted_impl {A} (R1 R2 : relation A) (l : list A) :
  (∀ x y, R1 x y → R2 x y) → Sorted R1 l → Sorted R2 l.
Proof.
  intros HR. induction 1 as [|x l _ IH Hhd]; constructor; [done|].
  destruct Hhd; constructor; auto.
Qed.

Lemma is_stable_is_argsort (keys : list Q) (idx : list nat) :
  np.is_stable_argsort keys idx → np.is_argsort keys idx.
Proof.
  intros [Hp Hs]. split; [done|].
  eapply Sorted_impl; [|done]. apply stable_lt_le.
Qed.

Lemma stable_argsort_spec (keys : list Q) :
  np.is_argsort keys (stable_argsort keys).
Proof. apply is_stable_is_argsort, stable_argsort_stable. Qed.

Lemma reversing_argsort_spec (keys : list Q) :
  np.is_argsort keys (reversing_argsort keys).
Proof.
  apply (insertion_prefix (λ i j, (np.key keys i <= np.key keys j)%Q)).
  - intros i j H. by apply Qle_bool_iff.
  - intros i j _ H. apply Qnot_lt_le. intros Hlt.
    apply Qlt_le_weak, Qle_bool_iff in Hlt. congruence.
Qed.

(** ** A stable [argsort] is determined by its input *)

Global Instance stable_lt_trans (keys : list Q) : Transitive (np.stable_lt keys).
Proof.
  intros i j k [H1|[H1 L1]] [H2|[H2 L2]]; unfold np.stable_lt;
    [left; lra..|right; split; [lra|lia]].
Qed.

Lemma stable_lt_asym (keys : list Q) (i j : nat) :
  np.stable_lt keys i j → np.stable_lt keys j i → False.
Proof. intros [H1|[H1 L1]] [H2|[H2 L2]]; (lra || lia). Qed.

Lemma stable_argsort_unique (keys : list Q) (idx1 idx2 : list nat) :
  np.is_stable_argsort keys idx1 → np.is_stable_argsort keys idx2 →
  idx1 = idx2.
Proof.
  intros [P1 S1] [P2 S2].
  apply (Sorted_unique_strong (np.stable_lt keys)); [|done|done|].
  - intros i j _ _ H1 H2. destruct (stable_lt_asym keys i j H1 H2).
  - by rewrite P1, P2.
Qed.

(** ** Claims about [metrics] *)

Lemma targeting_0 (n : nat) : targeting 0 (Z.of_nat n) = replicate n 0%Q.
Proof. unfold targeting. by rewrite Z.sub_0_r, Nat2Z.id. Qed.

Lemma count_pair_replicate (v : Q) (n : nat) :
  sk.count_pair v v (replicate n v) (replicate n v) = Z.of_nat n.
Proof.
  induction n as [|n IH]; [done|]. cbn [replicate sk.count_pair].
  rewrite IH, (proj2 (Qeq_bool_iff v v)) by reflexivity. simpl. lia.
Qed.

Lemma confusion_matrix_zeros (n : nat) :
  (0 < n)%nat →
  sk.confusion_matrix (replicate n 0%Q) (replicate n 0%Q) = [[Z.of_nat n]].
Proof.
  intros Hn. unfold sk.confusion_matrix.
  rewrite unique_labels_binary by (apply binary_replicate; auto).
  rewrite !has_app, !orb_diag.
  destruct n as [|n]; [lia|].
  assert (has 1 (replicate (S n) 0%Q) = false) as ->.
  { apply not_true_iff_false. rewrite has_count_val, count_val_replicate.
    simpl. lia. }
  assert (has 0 (replicate (S n) 0%Q) = true) as ->.
  { rewrite has_count_val, count_val_replicate. simpl. lia. }
  simpl app. cbn [map]. by rewrite count_pair_replicate.
Qed.

Lemma metrics_of_run argsort a1 a2 p e :
  metrics_run argsort a1 a2 p = Err e → metrics argsort a1 a2 p = Err e.
Proof. unfold metrics. by intros ->. Qed.

Lemma guard_passes (p : Q) :
  (0 < p)%Q → (p < 100)%Q → Qeq_bool p 0 = false ∧ Qeq_bool p 100 = false.
Proof.
  intros H0 H100.
  split; apply not_true_iff_false; rewrite Qeq_bool_iff; intros E; lra.
Qed.



(** ** Comparisons of rationals are decidable *)

Global Instance Qlt_decision (x y : Q) : Decision (x < y)%Q.
Proof.
  refine (cast_if (decide (Qlt_bool x y = true))); by rewrite <-Qlt_bool_iff.
Defined.

Global Instance Qeq_decision (x y : Q) : Decision (x == y)%Q.
Proof.
  refine (cast_if (decide (Qeq_bool x y = true))); by rewrite <-Qeq_bool_iff.
Defined.

(** ** Keys in ascending order *)

Lemma key_cons (x : Q) (s : list Q) (i : nat) :
  np.key (x :: s) (S i) = np.key s i.
Proof. done. Qed.

(** On keys already in ascending order the stable order of the indices is
    the identity. *)
Lemma Sorted_seq_stable (s : list Q) :
  Sorted Qle s → Sorted (np.stable_lt s) (seq 0 (length s)).
Proof.
  induction 1 as [|x s Hs IH Hhd]; [constructor|].
  cbn [length seq]. rewrite <-fmap_S_seq. constructor.
  - eapply (Sorted_fmap _ (np.stable_lt s)); [|done].
    intros i j [H|[H L]]; [left|right; split; [|lia]]; by rewrite !key_cons.
  - destruct Hhd as [|y s Hxy]; [constructor|].
    cbn [length seq fmap list_fmap]. constructor.
    unfold np.stable_lt, np.key. cbn [nth].
    destruct (Qlt_le_dec x y); [by left|right]. split; [lra|lia].
Qed.

Lemma stable_argsort_of_sorted (s : list Q) (idx : list nat) :
  Sorted Qle s → np.is_stable_argsort s idx → idx = seq 0 (length s).
Proof.
  intros Hs Hidx. apply (stable_argsort_unique s); [done|].
  split; [done|]. by apply Sorted_seq_stable.
Qed.

Lemma count_pair_diag_off (t q : Q) (l : list Q) :
  ¬ (t == q)%Q → sk.count_pair t q l l = 0.
Proof.
  intros Hne. induction l as [|x l IH]; [done|]. cbn [sk.count_pair].
  rewrite IH.
  destruct (Qeq_bool x t) eqn:E1, (Qeq_bool x q) eqn:E2; try done.
  apply Qeq_bool_iff in E1, E2. destruct Hne. by rewrite <-E1, <-E2.
Qed.

Lemma Qdiv_diag (z : Z) : z ≠ 0 → (inject_Z z / inject_Z z == 1)%Q.
Proof.
  intros Hz. apply Qmult_inv_r. intros E.
  unfold Qeq in E. simpl in E. lia.
Qed.

(** ** Lines 58-73 at a given number of ones *)

Lemma label_assignments_unfold argsort (a1 a2 : list Q) (p : Q) :
  label_assignments argsort a1 a2 p
  = if Qeq_bool p 0 || Qeq_bool p 100 then
      Err (ValueError
             "Percentage targeting must be between 0 and 100 (exclusive).")
    else label_vectors argsort a1 a2 (num_ones_of p (len a1)).
Proof. reflexivity. Qed.

Lemma metrics_run_unfold argsort (a1 a2 : list Q) (p : Q) :
  metrics_run argsort a1 a2 p
  = label_assignments argsort a1 a2 p ≫= confusion_rates.
Proof. reflexivity. Qed.

Section label_vectors.
Variable argsort : list Q → list nat.
Hypothesis argsort_spec : ∀ keys, np.is_argsort keys (argsort keys).

Lemma label_vectors_ok (a1 a2 : list Q) (k : Z) :
  length a1 = length a2 → 0 ≤ k ≤ len a1 →
  ∃ yt, label_vectors argsort a1 a2 k = Ok (yt, targeting k (len a1))
        ∧ yt ≡ₚ targeting k (len a1).
Proof.
  intros Hlen Hk. unfold label_vectors.
  unfold np.ones, np.zeros, np.full.
  destruct (Z.ltb_spec k 0) as [?|_]; [lia|].
  destruct (Z.ltb_spec (len a1 - k) 0) as [?|_]; [lia|].
  cbn [mbind result_bind]. fold (targeting k (len a1)).
  assert (length (targeting k (len a1)) = length a1) as Htv.
  { rewrite length_targeting by done. unfold len. lia. }
  unfold np.vstack2. rewrite decide_True by done.
  cbn [mbind result_bind fst snd].
  destruct (take_cols_argsort argsort argsort_spec (a1, a2) a1)
    as (r0 & r1 & -> & P0 & P1); [done..|].
  cbn [mbind result_bind fst snd] in *.
  unfold np.set_row0. cbn [fst snd].
  rewrite decide_True by (by rewrite P0). cbn [mbind result_bind fst snd].
  destruct (take_cols_argsort argsort argsort_spec
              (targeting k (len a1), r1) r1)
    as (yt & r1' & -> & Pyt & P1'); cbn [fst snd].
  { by rewrite Htv, P1. }
  { by rewrite Htv, P1. }
  cbn [mbind result_bind fst snd] in *.
  unfold np.set_row1. cbn [fst snd].
  rewrite decide_True by (by rewrite P1', P1, Htv).
  exists yt. done.
Qed.

Lemma label_vectors_inv (a1 a2 : list Q) (k : Z) (yt yp : list Q) :
  label_vectors argsort a1 a2 k = Ok (yt, yp) →
  length a1 = length a2 ∧ 0 ≤ k ≤ len a1 ∧
  yp = targeting k (len a1) ∧ yt ≡ₚ yp.
Proof.
  intros Hrun.
  assert (length a1 = length a2 ∧ 0 ≤ k ≤ len a1) as (Hlen & Hk).
  { revert Hrun. unfold label_vectors.
    unfold np.ones, np.zeros, np.full, np.vstack2.
    destruct (Z.ltb_spec k 0); [done|].
    destruct (Z.ltb_spec (len a1 - k) 0); [done|].
    cbn [mbind result_bind].
    destruct (decide (length a1 = length a2)); [|done].
    intros _. split; [done|lia]. }
  destruct (label_vectors_ok a1 a2 k) as (yt' & E & Hperm); [done..|].
  rewrite E in Hrun. by simplify_eq.
Qed.

(** The facts that [metrics_run_inv] lists, for any number of ones. *)
Lemma confusion_rates_inv (a1 a2 : list Q) (k : Z) (m : metrics_locals) :
  label_vectors argsort a1 a2 k ≫= confusion_rates = Ok m →
  length a1 = length a2 ∧ 1 ≤ k < len a1 ∧
  y_pred m = targeting k (len a1) ∧ y_true m ≡ₚ y_pred m ∧
  0 ≤ tn m ∧ 0 ≤ fp m ∧ 0 ≤ fn m ∧ 0 ≤ tp m ∧
  tn m + fp m + fn m + tp m = len a1 ∧
  tp m + fp m = k ∧ tp m + fn m = k ∧ fp m + tn m = len a1 - k ∧
  accuracy m = (inject_Z (tp m + tn m)
                / inject_Z (tp m + tn m + fp m + fn m))%Q ∧
  precision m = (inject_Z (tp m) / inject_Z (tp m + fp m))%Q ∧
  recall m = (inject_Z (tp m) / inject_Z (tp m + fn m))%Q ∧
  tpr m = recall m ∧
  fpr m = (inject_Z (fp m) / inject_Z (fp m + tn m))%Q.
Proof.
  intros Hrun.
  apply bind_Ok in Hrun as ([yt yp] & Hla & Hrun).
  apply label_vectors_inv in Hla as (Hlen & Hk & -> & Hperm).
  unfold confusion_rates in Hrun. cbn [fst snd] in Hrun.
  rewrite ravel_confusion_targeting in Hrun by done.
  pose proof (binary_targeting k (len a1)) as Hbp.
  assert (binary yt) as Hbt by (by eapply binary_Permutation).
  destruct (count_pair_binary yt (targeting k (len a1)))
    as (E1 & E2 & E3 & E4 & E5); [done|done|by rewrite Hperm|].
  rewrite (count_val_Permutation _ _ _ Hperm) in E1.
  rewrite (count_val_Permutation _ _ _ Hperm) in E2.
  rewrite count_val_targeting_0 in E1, E4 by done.
  rewrite count_val_targeting_1 in E2, E3 by done.
  assert (len yt = len a1) as Hn.
  { unfold len. rewrite Hperm, length_targeting by done.
    unfold len. lia. }
  rewrite Hn in E5.
  repeat case_bool_decide; simplify_eq; cbn.
  split_and!; try done; try apply count_pair_nonneg; lia.
Qed.

Lemma confusion_rates_ok (a1 a2 : list Q) (k : Z) :
  length a1 = length a2 → 1 ≤ k < len a1 →
  ∃ m, label_vectors argsort a1 a2 k ≫= confusion_rates = Ok m.
Proof.
  intros Hlen Hk.
  destruct (label_vectors_ok a1 a2 k) as (yt & -> & Hperm); [done|lia|].
  cbn [mbind result_bind]. unfold confusion_rates. cbn [fst snd].
  rewrite ravel_confusion_targeting by (done || lia).
  rewrite !bool_decide_eq_true_2 by lia. eauto.
Qed.

Lemma confusion_rates_single_class (a1 a2 : list Q) (k : Z) :
  length a1 = length a2 → 0 ≤ k ≤ len a1 → ¬ (1 ≤ k < len a1) →
  label_vectors argsort a1 a2 k ≫= confusion_rates
  = Err (ValueError "not enough values to unpack (expected 4)").
Proof.
  intros Hlen Hk Hdeg.
  destruct (label_vectors_ok a1 a2 k) as (yt & -> & Hperm); [done..|].
  cbn [mbind result_bind]. unfold confusion_rates. cbn [fst snd].
  rewrite ravel_confusion_targeting by done.
  repeat case_bool_decide; (done || lia).
Qed.
End label_vectors.

(** ** [metrics64] through its number of ones *)

Lemma label_assignments64_eq argsort (a1 a2 : list Q) (p : float) (k : Z) :
  ((p =? 0) || (p =? 100))%float = false →
  num_ones64 p (len a1) = Ok k →
  label_assignments64 argsort a1 a2 p = label_vectors argsort a1 a2 k.
Proof. intros Hg Hk. unfold label_assignments64. by rewrite Hg, Hk. Qed.

Lemma metrics_run64_eq argsort (a1 a2 : list Q) (p : float) (k : Z) :
  ((p =? 0) || (p =? 100))%float = false →
  num_ones64 p (len a1) = Ok k →
  metrics_run64 argsort a1 a2 p
  = label_vectors argsort a1 a2 k ≫= confusion_rates.
Proof.
  intros Hg Hk. unfold metrics_run64.
  by rewrite (label_assignments64_eq _ _ _ _ k).
Qed.

Lemma label_assignments64_inv argsort (a1 a2 : list Q) (p : float)
    (a : list Q * list Q) :
  label_assignments64 argsort a1 a2 p = Ok a →
  ((p =? 0) || (p =? 100))%float = false ∧
  ∃ k, num_ones64 p (len a1) = Ok k ∧ label_vectors argsort a1 a2 k = Ok a.
Proof.
  unfold label_assignments64.
  destruct ((p =? 0) || (p =? 100))%float; [done|].
  destruct (num_ones64 p (len a1)) as [k|e]; [|done]. eauto.
Qed.

Lemma metrics_run64_inv argsort (a1 a2 : list Q) (p : float)
    (m : metrics_locals) :
  metrics_run64 argsort a1 a2 p = Ok m →
  ((p =? 0) || (p =? 100))%float = false ∧
  ∃ k, num_ones64 p (len a1) = Ok k ∧
       label_vectors argsort a1 a2 k ≫= confusion_rates = Ok m.
Proof.
  unfold metrics_run64. intros H. apply bind_Ok in H as (a & Ha & H).
  apply label_assignments64_inv in Ha as (Hg & k & Hk & Ha).
  split; [done|]. exists k. split; [done|]. by rewrite Ha.
Qed.

Lemma metrics64_of_run argsort a1 a2 p e :
  metrics_run64 argsort a1 a2 p = Err e → metrics64 argsort a1 a2 p = Err e.
Proof. unfold metrics64. by intros ->. Qed.

(** Rounding moves the number of ones across an integer: 29/100 is not a
    double, and for 100 observations line 57 truncates 28.999999999999996
    to 28, where the exact product is 29. *)
Lemma num_ones64_rounds :
  num_ones64 29 100 = Ok 28 ∧ num_ones_of 29 100 = 29.
Proof. split; reflexivity. Qed.

(** ** Observations without ties *)

(** No two values of the list are equal. *)
Fixpoint distinct (l : list Q) : bool :=
  match l with
  | [] => true
  | x :: l' => forallb (λ y, negb (Qeq_bool x y)) l' && distinct l'
  end.

Definition tie_free (l : list Q) : Prop :=
  ∀ i j x y, l !! i = Some x → l !! j = Some y → (x == y)%Q → i = j.


Lemma distinct_tie_free (l : list Q) : distinct l = true → tie_free l.
Proof.
  induction l as [|a l IH]; intros H i j x y Hi Hj E; [done|].
  cbn [distinct] in H. apply andb_true_iff in H as [Ha Hl].
  rewrite forallb_forall in Ha.
  assert (∀ n z, l !! n = Some z → ¬ (a == z)%Q) as Hne.
  { intros n z Hn Hz. apply list_elem_of_lookup_2, list_elem_of_In, Ha in Hn.
    apply negb_true_iff, not_true_iff_false in Hn. apply Hn.
    by apply Qeq_bool_iff. }
  destruct i as [|i], j as [|j]; simplify_eq/=; [done| | |].
  - by destruct (Hne j y).
  - destruct (Hne i x); [done|]. by symmetry.
  - f_equal. by apply (IH Hl i j x y).
Qed.

Lemma key_lookup (keys : list Q) (i : nat) :
  (i < length keys)%nat → keys !! i = Some (np.key keys i).
Proof.
  intros Hi. unfold np.key.
  destruct (nth_lookup_or_length keys i 0%Q) as [->|]; [done|lia].
Qed.


(** On keys without ties every index array that meets the contract of
    [argsort] lists the keys in strictly ascending order. *)
Lemma argsort_strict (keys : list Q) (idx : list nat) :
  tie_free keys → np.is_argsort keys idx →
  Sorted (λ i j, (np.key keys i < np.key keys j)%Q) idx.
Proof.
  intros Htf [Hp Hs].
  assert (NoDup idx) as Hnd by (rewrite Hp; apply NoDup_seq).
  assert (Forall (λ i, (i < length keys)%nat) idx) as Hlt.
  { rewrite Hp. apply Forall_forall. intros i Hi.
    apply elem_of_seq in Hi. lia. }
  clear Hp. induction Hs as [|i l Hs IH Hhd]; constructor.
  - apply IH; [by apply NoDup_cons in Hnd as [_ ?]|by inv Hlt].
  - destruct Hhd as [|j l Hij]; constructor.
    apply NoDup_cons in Hnd as [Hi _].
    apply Forall_cons in Hlt as [Hli Hlt]. apply Forall_cons in Hlt as [Hlj _].
    destruct (Qlt_le_dec (np.key keys i) (np.key keys j)) as [|Hle]; [done|].
    destruct Hi. rewrite (Htf i j (np.key keys i) (np.key keys j));
      [by left|by apply key_lookup..|by apply Qle_antisym].
Qed.

Lemma argsort_tie_free_stable (keys : list Q) (idx : list nat) :
  tie_free keys → np.is_argsort keys idx → np.is_stable_argsort keys idx.
Proof.
  intros Htf Hidx. split; [by destruct Hidx|].
  eapply Sorted_impl; [|by apply argsort_strict]. intros i j H. by left.
Qed.


Lemma tie_free_reorder (keys : list Q) (idx : list nat) :
  tie_free keys → idx ≡ₚ seq 0 (length keys) →
  tie_free (np.key keys <$> idx).
Proof.
  intros Htf Hp i j x y Hi Hj E.
  rewrite list_lookup_fmap in Hi, Hj.
  destruct (idx !! i) as [a|] eqn:Ha; [|done].
  destruct (idx !! j) as [b|] eqn:Hb; [|done]. simplify_eq/=.
  assert (NoDup idx) as Hnd by (rewrite Hp; apply NoDup_seq).
  assert (∀ c, c ∈ idx → (c < length keys)%nat) as Hlt.
  { intros c Hc. rewrite Hp in Hc. apply elem_of_seq in Hc. lia. }
  apply (NoDup_lookup idx i j a); [done|done|].
  rewrite (Htf a b (np.key keys a) (np.key keys b)); [done| | |done];
    apply key_lookup, Hlt; by eapply list_elem_of_lookup_2.
Qed.

Lemma argsort_in_range (keys : list Q) (idx : list nat) :
  np.is_argsort keys idx → Forall (λ i, (i < length keys)%nat) idx.
Proof.
  intros [Hp _]. rewrite Hp. apply Forall_forall. intros i Hi.
  apply elem_of_seq in Hi. lia.
Qed.

Lemma argsort_length (keys : list Q) (idx : list nat) :
  np.is_argsort keys idx → length idx = length keys.
Proof. intros [Hp _]. by rewrite Hp, length_seq. Qed.

(** ** The label vectors, position by position *)


Section label_vectors_explicit.
Variable argsort : list Q → list nat.
Hypothesis argsort_spec : ∀ keys, np.is_argsort keys (argsort keys).

(** Lines 58-65 with every indexing step written out: the true label at
    position [j] is the entry of the targeting vector that the second sort
    moves there. *)
Lemma label_vectors_explicit (a1 a2 : list Q) (k : Z) :
  length a1 = length a2 → 0 ≤ k ≤ len a1 →
  let tv := targeting k (len a1) in
  let r1 := np.key a2 <$> argsort a1 in
  label_vectors argsort a1 a2 k
  = Ok ((λ c, nth c tv 0%Q) <$> argsort r1, tv).
Proof.
  intros Hlen Hk tv r1. unfold label_vectors.
  unfold np.ones, np.zeros, np.full.
  destruct (Z.ltb_spec k 0) as [?|_]; [lia|].
  destruct (Z.ltb_spec (len a1 - k) 0) as [?|_]; [lia|].
  cbn [mbind result_bind]. fold (targeting k (len a1)). fold tv.
  assert (length tv = length a1) as Htv.
  { unfold tv. rewrite length_targeting by done. unfold len. lia. }
  unfold np.vstack2. rewrite decide_True by done.
  cbn [mbind result_bind fst snd]. unfold np.take_cols. cbn [fst snd].
  pose proof (argsort_in_range _ _ (argsort_spec a1)) as Hr1.
  pose proof (argsort_length _ _ (argsort_spec a1)) as Hl1.
  rewrite (take_in_range a1 _ 0%Q) by done.
  rewrite (take_in_range a2 _ 0%Q) by (by rewrite <-Hlen).
  cbn [mbind result_bind fst snd]. fold (np.key a2). fold r1.
  assert (length r1 = length a1) as Hlr1.
  { unfold r1. by rewrite length_fmap. }
  unfold np.set_row0. cbn [fst snd].
  rewrite decide_True by (by rewrite length_fmap, Hl1).
  cbn [mbind result_bind fst snd].
  pose proof (argsort_in_range _ _ (argsort_spec r1)) as Hr2.
  pose proof (argsort_length _ _ (argsort_spec r1)) as Hl2.
  rewrite (take_in_range tv _ 0%Q) by (by rewrite Htv, <-Hlr1).
  rewrite (take_in_range r1 _ 0%Q) by done.
  cbn [mbind result_bind fst snd].
  unfold np.set_row1. cbn [fst snd].
  rewrite decide_True by (rewrite length_fmap; congruence).
  done.
Qed.
End label_vectors_explicit.





Global Instance Qlt_Transitive : Transitive Qlt.
Proof. intros x y z. apply Qlt_trans. Qed.


(** ** The perfect predictor on observations without ties *)

Section perfect_predictor.
Variable argsort : list Q → list nat.
Hypothesis argsort_spec : ∀ keys, np.is_argsort keys (argsort keys).

(** When the predictions are the truth values themselves and no two of
    them are equal, both label vectors are the targeting vector. *)
Lemma label_vectors_perfect (a1 : list Q) (k : Z) :
  tie_free a1 → 0 ≤ k ≤ len a1 →
  let tv := targeting k (len a1) in
  label_vectors argsort a1 a1 k = Ok (tv, tv).
Proof.
  intros Htf Hk tv. rewrite label_vectors_explicit by done. cbn zeta. fold tv.
  set (r1 := np.key a1 <$> argsort a1).
  assert (length tv = length a1) as Htv.
  { unfold tv. rewrite length_targeting by done. unfold len. lia. }
  assert (length r1 = length a1) as Hr1.
  { unfold r1. by rewrite length_fmap, (argsort_length a1). }
  assert (argsort r1 = seq 0 (length r1)) as ->.
  { apply stable_argsort_of_sorted.
    - unfold r1.
      apply (Sorted_fmap _ (λ i j, (np.key a1 i <= np.key a1 j)%Q));
        [done|apply argsort_spec].
    - apply argsort_tie_free_stable; [|done].
      apply tie_free_reorder; [done|apply argsort_spec]. }
  by rewrite Hr1, <-Htv, nth_seq_self.
Qed.

Lemma confusion_rates_perfect (a1 : list Q) (k : Z) :
  tie_free a1 → 1 ≤ k < len a1 →
  ∃ m, label_vectors argsort a1 a1 k ≫= confusion_rates = Ok m ∧
       (accuracy m == 1)%Q ∧ (precision m == 1)%Q ∧ (recall m == 1)%Q ∧
       (tpr m == 1)%Q ∧ (fpr m == 0)%Q.
Proof.
  intros Htf Hk.
  destruct (confusion_rates_ok argsort argsort_spec a1 a1 k) as [m Hm];
    [done..|].
  pose proof (confusion_rates_inv argsort argsort_spec a1 a1 k m Hm)
    as (_ & _ & Eyp & _ & _ & _ & _ & _ & Esum & E1 & E2 & E3
        & Eacc & Eprec & Erec & Etpr & Efpr).
  assert (fp m = 0 ∧ fn m = 0) as [Efp Efn].
  { revert Hm. rewrite label_vectors_perfect by (done || lia).
    cbn [mbind result_bind]. unfold confusion_rates. cbn [fst snd].
    rewrite ravel_confusion_targeting by (done || lia).
    rewrite !bool_decide_eq_true_2 by lia.
    intros [= <-]. cbn. split; by apply count_pair_diag_off. }
  exists m. split; [done|].
  rewrite Etpr, Eacc, Eprec, Erec, Efpr, Efp, Efn in *.
  rewrite !Z.add_0_r in *. rewrite Z.add_0_l in *.
  split_and!; try (apply Qdiv_diag; lia).
  unfold Qdiv. by rewrite Qmult_0_l.
Qed.

Lemma metrics_perfect_predictor (a1 : list Q) (p : Q) :
  tie_free a1 →
  Qeq_bool p 0 = false → Qeq_bool p 100 = false →
  1 ≤ num_ones_of p (len a1) < len a1 →
  ∃ acc prec rec t f,
    metrics argsort a1 a1 p = Ok (acc, prec, rec, t, f) ∧
    (acc == 1)%Q ∧ (prec == 1)%Q ∧ (rec == 1)%Q ∧ (t == 1)%Q ∧ (f == 0)%Q.
Proof.
  intros Htf Hp0 Hp100 Hk.
  destruct (confusion_rates_perfect a1 _ Htf Hk) as (m & Hm & ?).
  unfold metrics. rewrite metrics_run_unfold, label_assignments_unfold.
  rewrite Hp0, Hp100. cbn [orb]. rewrite Hm. cbn [mbind result_bind].
  by eexists _, _, _, _, _.
Qed.
End perfect_predictor.

(** ** Claims about [metrics64] *)

(** C4, as stated, fails in float64.  The largest double below 100/7 is
    14.285714285714285 (0x1.c924924924924p+3): it lies strictly between 0
    and 100/len(a1) for seven observations, yet the product of line 57
    rounds to 1.0, one observation is labelled positive and [metrics]
    returns its tuple, whatever order [argsort] gives to equal values. *)
Lemma metrics_returns_below_100_over_len :
  let p := 0x1.c924924924924p+3%float in
  let a1 := [1; 2; 3; 4; 5; 6; 7]%Q in
  let a2 := [2; 1; 3; 4; 5; 6; 7]%Q in
  (∃ q, f64.to_Q p = Some q ∧ (0 < q)%Q ∧ (q < 100 / inject_Z (len a1))%Q) ∧
  num_ones64 p (len a1) = Ok 1 ∧
  metrics64 stable_argsort a1 a2 p = Ok (5 # 7, 0, 0, 0, 1 # 6)%Q ∧
  metrics64 reversing_argsort a1 a2 p = Ok (5 # 7, 0, 0, 0, 1 # 6)%Q.
Proof.
  cbn zeta. split_and!.
  - eexists. split; [vm_compute; reflexivity|]. split; reflexivity.
  - vm_compute. reflexivity.
  - vm_compute. reflexivity.
  - vm_compute. reflexivity.
Qed.

(** C4, amended.  Whenever the float64 product of line 57 truncates to 0
    on equal-length, non-empty inputs with a percentage that the guard of
    line 54 accepts, both label vectors are all zeros, the confusion matrix
    has the single cell [len(a1)], and [metrics] raises at the four-way
    unpack of line 67 instead of returning its tuple. *)
Theorem metrics_not_total_when_num_ones_is_zero
    (argsort : list Q → list nat)
    (argsort_spec : ∀ keys, np.is_argsort keys (argsort keys))
    (a1 a2 : list Q) (p : float) :
  length a1 = length a2 → (0 < length a1)%nat →
  ((p =? 0) || (p =? 100))%float = false →
  num_ones64 p (len a1) = Ok 0 →
  let zeros := replicate (length a1) 0%Q in
  label_assignments64 argsort a1 a2 p = Ok (zeros, zeros) ∧
  sk.confusion_matrix zeros zeros = [[len a1]] ∧
  metrics64 argsort a1 a2 p
  = Err (ValueError "not enough values to unpack (expected 4)").
Proof.
  intros Hlen Hpos Hg Hk zeros.
  assert (0 ≤ 0 ≤ len a1) as Hk0 by (unfold len; lia).
  split_and!.
  - rewrite (label_assignments64_eq _ _ _ _ 0) by done.
    destruct (label_vectors_ok argsort argsort_spec a1 a2 0)
      as (yt & E & Hperm); [done..|].
    rewrite E. unfold len in Hperm |- *.
    rewrite targeting_0 in Hperm |- *.
    symmetry in Hperm. by apply replicate_Permutation in Hperm as <-.
  - by apply confusion_matrix_zeros.
  - apply metrics64_of_run. rewrite (metrics_run64_eq _ _ _ _ 0) by done.
    apply confusion_rates_single_class; [done..|lia].
Qed.

Lemma metrics_not_total_when_num_ones_is_zero_witness :
  num_ones64 20 (len [3; 1; 2]%Q) = Ok 0 ∧
  metrics64 stable_argsort [3; 1; 2]%Q [1; 2; 3]%Q 20
  = Err (ValueError "not enough values to unpack (expected 4)").
Proof.
  split; [reflexivity|].
  apply (metrics_not_total_when_num_ones_is_zero
           stable_argsort stable_argsort_spec [3; 1; 2]%Q [1; 2; 3]%Q 20);
    [reflexivity|simpl; lia|reflexivity|reflexivity].
Defined.

(** C3.  What the code does for the perfect predictor, [a2 = a1], with a
    percentage that the guard of line 54 accepts and [k] the number of ones
    of line 57: when [k] is 0 it returns no tuple, the unpack of line 67
    raises; when [1 <= k < len(a1)] and no two values of [a1] are equal,
    accuracy, precision and recall are all 1, whatever [argsort] meeting
    numpy's contract is used.  The claim fails in the first case, as for
    [a1 = [5]], [p = 50]. *)
Theorem metrics_perfect_predictor_or_unpack_raises
    (argsort : list Q → list nat)
    (argsort_spec : ∀ keys, np.is_argsort keys (argsort keys))
    (a1 : list Q) (p : float) (k : Z) :
  ((p =? 0) || (p =? 100))%float = false →
  num_ones64 p (len a1) = Ok k →
  (k = 0 →
   metrics64 argsort a1 a1 p
   = Err (ValueError "not enough values to unpack (expected 4)"))
  ∧ (1 ≤ k < len a1 → distinct a1 = true →
     ∃ acc prec rec t f,
       metrics64 argsort a1 a1 p = Ok (acc, prec, rec, t, f) ∧
       (acc == 1)%Q ∧ (prec == 1)%Q ∧ (rec == 1)%Q).
Proof.
  intros Hg Hk. split.
  - intros ->. apply metrics64_of_run.
    rewrite (metrics_run64_eq _ _ _ _ 0) by done.
    apply confusion_rates_single_class; [done|done|unfold len; lia|lia].
  - intros Hk1 Hd. apply distinct_tie_free in Hd.
    destruct (confusion_rates_perfect argsort argsort_spec a1 k Hd Hk1)
      as (m & Hm & ? & ? & ? & _).
    unfold metrics64. rewrite (metrics_run64_eq _ _ _ _ k), Hm by done.
    cbn [mbind result_bind]. by eexists _, _, _, _, _.
Qed.

Lemma metrics_perfect_predictor_or_unpack_raises_witness :
  num_ones64 50 (len [5]%Q) = Ok 0 ∧
  metrics64 stable_argsort [5]%Q [5]%Q 50
  = Err (ValueError "not enough values to unpack (expected 4)").
Proof.
  split; [reflexivity|].
  apply (metrics_perfect_predictor_or_unpack_raises
           stable_argsort stable_argsort_spec [5]%Q 50 0);
    reflexivity.
Defined.

(** ** Ties *)





(** * auc_overall *)

Module py.
(** [l[:-1]]. *)
Definition drop_last {A} (l : list A) : list A := take (length l - 1) l.

(** [l[i] = v] on a list: an index out of range raises. *)
Definition setitem {A} (l : list A) (i : nat) (v : A) : result (list A) :=
  if decide (i < length l)%nat then Ok (<[i := v]> l)
  else Err (IndexError "list assignment index out of range").

(** [l[i]] for an index in range. *)
Definition getitem (l : list Q) (i : nat) : Q := nth i l 0%Q.

(** [[l[i] for i in range(len(l)) if i not in to_remove]]. *)
Definition keep {A} (l : list A) (to_remove : list nat) : list A :=
  omap id (imap (λ i x, if bool_decide (i ∈ to_remove) then None else Some x) l).
End py.

Module sk_auc.
(** [np.diff(x)]. *)
Definition diff (x : list Q) : list Q :=
  zip_with (λ a b, b - a)%Q x (tail x).

Definition Qsum (l : list Q) : Q := foldr Qplus 0%Q l.

(** [np.trapz(y, x)]: [sum(diff(x) * (y[1:] + y[:-1]) / 2)]. *)
Definition trapz (y x : list Q) : Q :=
  Qsum (zip_with (λ d s, d * s / 2)%Q (diff x) (zip_with Qplus (tail y) y)).

(** [sklearn.metrics.auc(x, y)]. *)
Definition auc (x y : list Q) : result Q :=
  if negb (bool_decide (length x = length y)) then
    Err (ValueError "Found input variables with inconsistent numbers of samples")
  else if bool_decide (length x < 2)%nat then
    Err (ValueError "At least 2 points are needed to compute area under curve")
  else
    let dx := diff x in
    if existsb (λ d, Qlt_bool d 0) dx then
      if forallb (λ d, Qle_bool d 0) dx then Ok (- trapz y x)%Q
      else Err (ValueError "x is neither increasing nor decreasing")
    else Ok (trapz y x).
End sk_auc.

(** Modelled from the spec: [strictly_increasing] of [helpers/utils.py],
    imported at line 29 and not among the sources.  The spec has the loop
    repeat "until strictly increasing": every element is smaller than its
    successor. *)
Fixpoint strictly_increasing (l : list Q) : bool :=
  match l with
  | x :: l' =>
      match l' with
      | y :: _ => Qlt_bool x y && strictly_increasing l'
      | [] => true
      end
  | [] => true
  end.

(** Lines 98-101: the indices whose fpr does not exceed its predecessor. *)
Definition to_remove (fprs : list Q) : list nat :=
  foldl (λ acc j,
           if Qle_bool (py.getitem fprs j) (py.getitem fprs (j - 1))
           then acc ++ [j] else acc)
        [] (seq 1 (length fprs - 1)).

(** Lines 98-103: one pass of the loop body. *)
Definition monotonize_pass (s : list Q * list Q) : list Q * list Q :=
  let '(fprs, tprs) := s in
  let tr := to_remove fprs in
  (py.keep fprs tr, py.keep tprs tr).

(** Lines 97-103.  [fuel] bounds the number of passes; [None] means that
    the loop has not exited within [fuel] passes. *)
Fixpoint monotonize (fuel : nat) (s : list Q * list Q)
  : option (list Q * list Q) :=
  if strictly_increasing s.1 then Some s
  else match fuel with
       | O => None
       | S fuel' => monotonize fuel' (monotonize_pass s)
       end.

Section auc_overall.
Variable argsort : list Q → list nat.

Definition grid : list Q := py.drop_last (np.linspace 1 100 99).

(** Lines 88-95: the ROC points handed to the loop. *)
Definition roc_points (a1 a2 : list Q) : result (list Q * list Q) :=
  metrics_grid ← mapM (metrics argsort a1 a2) grid;
  let tprs := (λ g : Q * Q * Q * Q * Q, g.1.2) <$> metrics_grid in
  let fprs := (λ g : Q * Q * Q * Q * Q, g.2) <$> metrics_grid in
  fprs ← py.setitem fprs 0 0%Q;
  tprs ← py.setitem tprs 0 0%Q;
  let fprs := fprs ++ [1%Q] in
  let tprs := tprs ++ [1%Q] in
  Ok (fprs, tprs).

(** Lines 88-105. *)
Definition auc_overall (fuel : nat) (a1 a2 : list Q) : option (result Q) :=
  match roc_points a1 a2 with
  | Err e => Some (Err e)
  | Ok s =>
      match monotonize fuel s with
      | None => None
      | Some (fprs, tprs) => Some (sk_auc.auc fprs tprs)
      end
  end.
End auc_overall.

(** ** auc_overall, with line 88 and the numbers of ones in binary64

    The cutoffs of line 88 are float64 values and each is handed to
    [metrics], whose line 57 truncates a float64 product: [auc_overall64]
    takes the cutoffs from [np.linspace64] and the tuples from [metrics64].
    The rates and the area remain exact rationals. *)

Section auc_overall64.
Variable argsort : list Q → list nat.

(** Line 88. *)
Definition grid64 : list float := py.drop_last (np.linspace64 1 100 99).

(** Lines 88-95: the ROC points handed to the loop. *)
Definition roc_points64 (a1 a2 : list Q) : result (list Q * list Q) :=
  metrics_grid ← mapM (metrics64 argsort a1 a2) grid64;
  let tprs := (λ g : Q * Q * Q * Q * Q, g.1.2) <$> metrics_grid in
  let fprs := (λ g : Q * Q * Q * Q * Q, g.2) <$> metrics_grid in
  fprs ← py.setitem fprs 0 0%Q;
  tprs ← py.setitem tprs 0 0%Q;
  let fprs := fprs ++ [1%Q] in
  let tprs := tprs ++ [1%Q] in
  Ok (fprs, tprs).

(** Lines 88-105. *)
Definition auc_overall64 (fuel : nat) (a1 a2 : list Q) : option (result Q) :=
  match roc_points64 a1 a2 with
  | Err e => Some (Err e)
  | Ok s =>
      match monotonize fuel s with
      | None => None
      | Some (fprs, tprs) => Some (sk_auc.auc fprs tprs)
      end
  end.
End auc_overall64.

(** ** One pass of the loop, by recursion on the lists *)

(** [flags prev l]: for each element of [l], whether it fails to exceed
    its predecessor, the predecessor of the first one being [prev]. *)
Fixpoint flags (prev : Q) (l : list Q) : list bool :=
  match l with
  | [] => []
  | y :: l' => Qle_bool y prev :: flags y l'
  end.

(** Which positions a pass removes: never the first. *)
Definition removal_flags (fprs : list Q) : list bool :=
  match fprs with
  | [] => []
  | x :: l => false :: flags x l
  end.

(** Keep the elements whose flag is not set; positions beyond the flags
    are kept. *)
Fixpoint select {A} (fl : list bool) (l : list A) : list A :=
  match l with
  | [] => []
  | a :: l' =>
      match fl with
      | [] => a :: select [] l'
      | b :: fl' => if b then select fl' l' else a :: select fl' l'
      end
  end.

Lemma foldl_append_filter (test : nat → bool) (js acc : list nat) :
  foldl (λ acc j, if test j then acc ++ [j] else acc) acc js
  = acc ++ filter (λ j, test j = true) js.
Proof.
  revert acc. induction js as [|j js IH]; intros acc; cbn [foldl].
  { by rewrite app_nil_r. }
  rewrite IH, filter_cons. destruct (test j) eqn:E.
  - rewrite decide_True by done. by rewrite <-app_assoc.
  - by rewrite decide_False by done.
Qed.

Lemma to_remove_filter (fprs : list Q) :
  to_remove fprs
  = filter (λ j, Qle_bool (py.getitem fprs j) (py.getitem fprs (j - 1)) = true)
      (seq 1 (length fprs - 1)).
Proof.
  unfold to_remove.
  apply (foldl_append_filter
           (λ j, Qle_bool (py.getitem fprs j) (py.getitem fprs (j - 1)))).
Qed.

Lemma elem_of_to_remove (fprs : list Q) (j : nat) :
  j ∈ to_remove fprs ↔
  (1 ≤ j < length fprs)%nat
  ∧ Qle_bool (py.getitem fprs j) (py.getitem fprs (j - 1)) = true.
Proof.
  rewrite to_remove_filter, list_elem_of_filter, elem_of_seq.
  intuition lia.
Qed.

Lemma nth_flags (prev : Q) (l : list Q) (j : nat) :
  nth j (flags prev l) false
  = bool_decide (j < length l)%nat
    && Qle_bool (nth j l 0%Q) (nth j (prev :: l) 0%Q).
Proof.
  revert prev j. induction l as [|y l IH]; intros prev [|j]; try done.
  cbn [flags nth length]. rewrite IH.
  f_equal. apply bool_decide_ext. lia.
Qed.

Lemma to_remove_flags (fprs : list Q) (i : nat) :
  bool_decide (i ∈ to_remove fprs) = nth i (removal_flags fprs) false.
Proof.
  destruct fprs as [|x l].
  { by destruct i. }
  destruct i as [|j]; cbn [removal_flags nth].
  { apply bool_decide_eq_false_2. rewrite elem_of_to_remove. lia. }
  rewrite nth_flags. unfold py.getitem.
  replace (S j - 1)%nat with j by lia. cbn [nth].
  apply eq_true_iff_eq.
  rewrite bool_decide_eq_true, elem_of_to_remove, andb_true_iff,
    bool_decide_eq_true.
  unfold py.getitem. replace (S j - 1)%nat with j by lia. cbn [nth length].
  intuition lia.
Qed.

Lemma keep_select {A} (l : list A) (fprs : list Q) :
  py.keep l (to_remove fprs) = select (removal_flags fprs) l.
Proof.
  unfold py.keep.
  assert (∀ (rm : nat → bool) (fl : list bool),
            (∀ i, rm i = nth i fl false) →
            omap id (imap (λ i x, if rm i then None else Some x) l)
            = select fl l) as H.
  { induction l as [|a l IH]; intros rm fl Hrm; [done|].
    assert (omap id (imap ((λ i x, if rm i then None else Some x) ∘ S) l)
            = select (tail fl) l) as E.
    { apply (IH (rm ∘ S) (tail fl)). intros i. cbn. rewrite Hrm.
      by destruct fl, i. }
    cbn [imap select]. pose proof (Hrm 0%nat) as H0.
    destruct fl as [|b fl]; cbn [nth] in H0; rewrite H0; [|destruct b];
      csimpl; by rewrite E. }
  apply (H (λ i, bool_decide (i ∈ to_remove fprs))), to_remove_flags.
Qed.

Lemma monotonize_pass_select (fprs tprs : list Q) :
  monotonize_pass (fprs, tprs)
  = (select (removal_flags fprs) fprs, select (removal_flags fprs) tprs).
Proof. unfold monotonize_pass. by rewrite !keep_select. Qed.

(** ** The loop terminates *)

Lemma length_select_le {A} (fl : list bool) (l : list A) :
  (length (select fl l) ≤ length l)%nat.
Proof.
  revert fl. induction l as [|a l IH]; intros fl; [done|].
  destruct fl as [|[|] fl]; cbn [select length];
    [specialize (IH [])|specialize (IH fl)..]; lia.
Qed.

Lemma length_select_eq {A B} (fl : list bool) (l1 : list A) (l2 : list B) :
  length l1 = length l2 → length (select fl l1) = length (select fl l2).
Proof.
  revert fl l2. induction l1 as [|a l1 IH]; intros fl [|b l2] Hlen;
    simplify_eq/=; [done|].
  destruct fl as [|[|] fl]; cbn [length]; auto.
Qed.

Lemma select_no_flag {A} (fl : list bool) (l : list A) :
  forallb negb fl = true → select fl l = l.
Proof.
  revert fl. induction l as [|a l IH]; intros fl Hfl; [done|].
  destruct fl as [|[|] fl]; cbn [select]; [by rewrite IH| done |].
  by rewrite IH.
Qed.

Lemma length_select_lt {A} (fl : list bool) (l : list A) :
  length fl = length l → forallb negb fl = false →
  (length (select fl l) < length l)%nat.
Proof.
  revert fl. induction l as [|a l IH]; intros [|b fl] Hlen Hfl; try done.
  injection Hlen as Hlen. destruct b; cbn [forallb negb andb select] in *.
  - pose proof (length_select_le fl l). simpl. lia.
  - specialize (IH fl Hlen Hfl). simpl. lia.
Qed.

Lemma length_flags (prev : Q) (l : list Q) : length (flags prev l) = length l.
Proof. revert prev. induction l; intros; simpl; auto. Qed.

Lemma length_removal_flags (fprs : list Q) :
  length (removal_flags fprs) = length fprs.
Proof. destruct fprs; simpl; by rewrite ?length_flags. Qed.

Lemma strictly_increasing_flags (fprs : list Q) :
  strictly_increasing fprs = forallb negb (removal_flags fprs).
Proof.
  destruct fprs as [|x l]; [done|]. cbn [removal_flags forallb negb andb].
  revert x. induction l as [|y l IH]; intros x; [done|].
  change (strictly_increasing (x :: y :: l))
    with (Qlt_bool x y && strictly_increasing (y :: l)).
  cbn [flags forallb]. by rewrite IH.
Qed.

Lemma monotonize_pass_shorter (s : list Q * list Q) :
  strictly_increasing s.1 = false →
  (length (monotonize_pass s).1 < length s.1)%nat.
Proof.
  destruct s as [fprs tprs]. cbn [fst]. intros Hsi.
  rewrite monotonize_pass_select. cbn [fst].
  apply length_select_lt; [apply length_removal_flags|].
  by rewrite <-strictly_increasing_flags.
Qed.

(** With as many passes allowed as there are points, the loop exits, and
    the result does not depend on the passes left over. *)
Lemma monotonize_terminates (s : list Q * list Q) :
  ∃ r, (∀ fuel, (length s.1 ≤ fuel)%nat → monotonize fuel s = Some r)
       ∧ strictly_increasing r.1 = true.
Proof.
  remember (length s.1) as n eqn:Hn.
  assert (length s.1 ≤ n)%nat as Hle by lia. clear Hn.
  revert s Hle. induction n as [|n IH]; intros s Hle.
  - exists s. assert (strictly_increasing s.1 = true) as Hsi.
    { destruct s as [[|] ?]; [done|simpl in Hle; lia]. }
    split; [|done]. intros fuel _. destruct fuel; simpl; by rewrite Hsi.
  - destruct (strictly_increasing s.1) eqn:Hsi.
    + exists s. split; [|done].
      intros fuel _. destruct fuel; simpl; by rewrite Hsi.
    + pose proof (monotonize_pass_shorter s Hsi) as Hlt.
      destruct (IH (monotonize_pass s)) as (r & Hr & Hsr); [lia|].
      exists r. split; [|done]. intros [|fuel] Hfuel; [lia|].
      simpl. rewrite Hsi. apply Hr. lia.
Qed.

Lemma monotonize_more_fuel (fuel fuel' : nat) (s r : list Q * list Q) :
  monotonize fuel s = Some r → (fuel ≤ fuel')%nat →
  monotonize fuel' s = Some r.
Proof.
  revert fuel' s. induction fuel as [|fuel IH]; intros fuel' s; simpl;
    destruct (strictly_increasing s.1) eqn:Hsi; try done.
  - intros [= <-] _. destruct fuel'; simpl; by rewrite Hsi.
  - intros [= <-] _. destruct fuel'; simpl; by rewrite Hsi.
  - intros Hrun Hle. destruct fuel' as [|fuel']; [lia|].
    simpl. rewrite Hsi. apply IH; [done|lia].
Qed.

(** Whatever a pass preserves while the loop runs holds at the exit. *)
Lemma monotonize_invariant (I : list Q * list Q → Prop)
    (fuel : nat) (s r : list Q * list Q) :
  (∀ s', I s' → strictly_increasing s'.1 = false → I (monotonize_pass s')) →
  I s → monotonize fuel s = Some r → I r.
Proof.
  intros Hpass. revert s. induction fuel as [|fuel IH]; intros s Hs; simpl;
    destruct (strictly_increasing s.1) eqn:Hsi; try naive_solver.
Qed.

Lemma monotonize_Some_increasing (fuel : nat) (s r : list Q * list Q) :
  monotonize fuel s = Some r → strictly_increasing r.1 = true.
Proof.
  revert s. induction fuel as [|fuel IH]; intros s; simpl;
    destruct (strictly_increasing s.1) eqn:E; naive_solver.
Qed.

(** ** What survives the loop *)

Lemma Forall_select {A} (P : A → Prop) (fl : list bool) (l : list A) :
  Forall P l → Forall P (select fl l).
Proof.
  intros Hl. revert fl. induction Hl as [|a l Ha _ IH]; intros fl; [done|].
  destruct fl as [|[|] fl]; cbn [select]; auto.
Qed.

(** An element that attains an upper bound [M] of the list survives a pass:
    the first such element exceeds its predecessor. *)
Lemma select_flags_max (M prev : Q) (l : list Q) :
  Forall (λ y, y <= M)%Q l → (prev < M)%Q →
  Exists (λ y, y == M)%Q l →
  Exists (λ y, y == M)%Q (select (flags prev l) l).
Proof.
  intros Hle. revert prev.
  induction Hle as [|y l Hy _ IH]; intros prev Hprev Hex; [by inv Hex|].
  cbn [flags select].
  destruct (Qeq_dec y M) as [E|Hne].
  - assert (Qle_bool y prev = false) as ->.
    { apply not_true_iff_false. rewrite Qle_bool_iff. lra. }
    by left.
  - assert (Exists (λ y, y == M)%Q (select (flags y l) l)) as Hrec.
    { apply IH; [lra|]. by inv Hex. }
    destruct (Qle_bool y prev); [done|by right].
Qed.

Definition attains (M : Q) (l : list Q) : Prop :=
  Forall (λ y, y <= M)%Q l ∧ Exists (λ y, y == M)%Q l.

Lemma pass_attains (M : Q) (fprs : list Q) :
  attains M fprs → attains M (select (removal_flags fprs) fprs).
Proof.
  intros [Hle Hex]. split; [by apply Forall_select|].
  destruct fprs as [|x l]; [by inv Hex|]. cbn [removal_flags select].
  destruct (Qeq_dec x M) as [E|Hne]; [by left|]. right.
  apply Forall_cons in Hle as [Hx Hle].
  apply select_flags_max; [done|lra|by inv Hex].
Qed.

Lemma pass_head {A} (fprs : list Q) (l : list A) :
  fprs ≠ [] → head (select (removal_flags fprs) l) = head l.
Proof. destruct fprs, l; naive_solver. Qed.

(** In a strictly increasing list the element that attains the upper
    bound is the last one. *)
Lemma strictly_increasing_last (M : Q) (l : list Q) :
  strictly_increasing l = true → attains M l →
  ∃ z, last l = Some z ∧ (z == M)%Q.
Proof.
  intros Hsi [Hle Hex]. induction l as [|x l IH]; [by inv Hex|].
  destruct l as [|y l].
  { exists x. split; [done|]. inv Hex; [done|]. by inv H0. }
  change (strictly_increasing (x :: y :: l))
    with (Qlt_bool x y && strictly_increasing (y :: l)) in Hsi.
  apply andb_true_iff in Hsi as [Hxy Hsi]. apply Qlt_bool_iff in Hxy.
  apply Forall_cons in Hle as [Hx Hle].
  destruct IH as (z & Hz & E); [done|done| |by exists z].
  inv Hex; [|done]. apply Forall_cons in Hle as [Hy _]. lra.
Qed.

(** The ROC points as the loop receives them: a first fpr of 0, a last
    fpr of 1, nothing above 1 in between. *)
Definition roc_shaped (s : list Q * list Q) : Prop :=
  ∃ mid, s.1 = 0%Q :: mid ++ [1%Q] ∧ Forall (λ y, y <= 1)%Q mid
         ∧ length s.1 = length s.2.

Lemma roc_shaped_attains (s : list Q * list Q) :
  roc_shaped s → head s.1 = Some 0%Q ∧ attains 1 s.1.
Proof.
  intros (mid & -> & Hmid & _). split; [done|]. split.
  - constructor; [done|]. apply Forall_app. split; [done|]. by constructor.
  - right. apply Exists_app. right. by left.
Qed.

Lemma monotonize_roc_shaped (fuel : nat) (s r : list Q * list Q) :
  roc_shaped s → monotonize fuel s = Some r →
  head r.1 = Some 0%Q ∧ head r.2 = head s.2 ∧
  (∃ z, last r.1 = Some z ∧ (z == 1)%Q) ∧
  (2 ≤ length r.1 ≤ length s.1)%nat ∧ length r.1 = length r.2.
Proof.
  intros Hs Hrun. pose proof Hs as (_ & _ & _ & Hlen).
  apply roc_shaped_attains in Hs as [Hhd Hatt].
  pose (I := λ s' : list Q * list Q,
          head s'.1 = Some 0%Q ∧ head s'.2 = head s.2 ∧ attains 1 s'.1 ∧
          (length s'.1 ≤ length s.1)%nat ∧ length s'.1 = length s'.2).
  assert (I r) as (Hr1 & Hr2 & Hr3 & Hr4 & Hr5).
  { apply (monotonize_invariant I fuel s); [|done|done].
    intros [f t] (H1 & H2 & H3 & H4 & H5) Hsi. cbn [fst snd] in *.
    rewrite monotonize_pass_select. unfold I. cbn [fst snd].
    assert (f ≠ []) by (by intros ->).
    rewrite !pass_head by done. split_and!; [done|done| | |].
    - by apply pass_attains.
    - pose proof (length_select_le (removal_flags f) f). lia.
    - by apply length_select_eq. }
  assert (strictly_increasing r.1 = true) as Hsi.
  { clear -Hrun. revert s Hrun. induction fuel as [|fuel IH]; intros s; simpl;
      destruct (strictly_increasing s.1) eqn:E; naive_solver. }
  destruct (strictly_increasing_last 1 r.1 Hsi Hr3) as (z & Hz & Ez).
  split_and!; [done|done|by exists z| |done|done].
  destruct r.1 as [|x [|y l]]; simplify_eq/=; [|lia].
  exfalso. by apply (Q_apart_0_1).
Qed.

(** The worst case: when no fpr in between exceeds 0, one pass leaves the
    two forced endpoints. *)
Lemma select_flags_zeros {A} (n : nat) (z : Q) (ts : list A) (t1 : A) :
  (0 <= z)%Q → (z < 1)%Q → length ts = n →
  select (flags z (replicate n 0%Q ++ [1%Q])) (replicate n 0%Q ++ [1%Q]) = [1%Q]
  ∧ select (flags z (replicate n 0%Q ++ [1%Q])) (ts ++ [t1]) = [t1].
Proof.
  revert z ts. induction n as [|n IH]; intros z ts Hz0 Hz1 Hlen.
  - destruct ts; [|done]. cbn.
    assert (Qle_bool 1 z = false) as ->; [|done].
    apply not_true_iff_false. rewrite Qle_bool_iff. intros H. lra.
  - destruct ts as [|t ts]; [done|]. injection Hlen as Hlen.
    cbn [replicate app flags select].
    assert (Qle_bool 0 z = true) as -> by (apply Qle_bool_iff; lra).
    apply IH; [lra|lra|done].
Qed.

Lemma monotonize_worst_case (n : nat) (ts : list Q) :
  length ts = n →
  monotonize 1 (0%Q :: replicate n 0%Q ++ [1%Q], 0%Q :: ts ++ [1%Q])
  = Some ([0%Q; 1%Q], [0%Q; 1%Q]).
Proof.
  intros Hlen. destruct n as [|n].
  { by destruct ts. }
  cbn [monotonize fst]. rewrite monotonize_pass_select.
  cbn [removal_flags select].
  destruct (select_flags_zeros (S n) 0 ts 1%Q) as [-> ->]; [lra|lra|done|].
  done.
Qed.

(** ** Which point is the last to survive *)

Lemma select_sublist {A} (fl : list bool) (l : list A) :
  select fl l `sublist_of` l.
Proof.
  revert fl. induction l as [|a l IH]; intros fl; [done|].
  destruct fl as [|[|] fl]; cbn [select];
    [by apply sublist_skip|by apply sublist_cons|by apply sublist_skip].
Qed.

Lemma zip_select {A B} (fl : list bool) (l1 : list A) (l2 : list B) :
  zip (select fl l1) (select fl l2) = select fl (zip l1 l2).
Proof.
  revert fl l2. induction l1 as [|a l1 IH]; intros fl l2; [done|].
  destruct l2 as [|b l2].
  { cbn [select zip zip_with]. by destruct fl as [|[|] fl], (select _ l1). }
  destruct fl as [|[|] fl]; cbn [select zip zip_with]; by rewrite ?IH.
Qed.

Lemma flags_app (prev : Q) (l1 l2 : list Q) :
  flags prev (l1 ++ l2) = flags prev l1 ++ flags (default prev (last l1)) l2.
Proof.
  revert prev. induction l1 as [|a l1 IH]; intros prev; [done|].
  cbn [app flags]. rewrite IH.
  assert (default a (last l1) = default prev (last (a :: l1))) as ->; [|done].
  destruct l1 as [|b l1]; [done|]. rewrite last_cons_cons.
  destruct (last (b :: l1)) eqn:E; [done|]. by apply last_None in E.
Qed.

Lemma select_app {A} (fl1 fl2 : list bool) (m1 m2 : list A) :
  length fl1 = length m1 →
  select (fl1 ++ fl2) (m1 ++ m2) = select fl1 m1 ++ select fl2 m2.
Proof.
  revert fl1. induction m1 as [|a m1 IH]; intros [|[|] fl1] Hlen;
    simplify_eq/=; try done; by rewrite IH.
Qed.

(** The first point whose fpr attains an upper bound of the fprs survives
    a pass, in front of what survives of the points after it. *)
Lemma pass_first_attaining (pre post : list (Q * Q)) (x y : Q) :
  Forall (λ pt, (pt.1 < x)%Q) pre →
  let pts := pre ++ (x, y) :: post in
  ∃ pre' post',
    select (removal_flags pts.*1) pts = pre' ++ (x, y) :: post' ∧
    pre' `sublist_of` pre ∧ post' `sublist_of` post.
Proof.
  intros Hpre pts. unfold pts. destruct pre as [|q pre0].
  - exists [], (select (flags x post.*1) post).
    split_and!; [done|done|apply select_sublist].
  - exists (q :: select (flags q.1 pre0.*1) pre0),
           (select (flags x post.*1) post).
    split_and!; [|apply sublist_skip, select_sublist|apply select_sublist].
    cbn [app fmap list_fmap removal_flags select]. rewrite fmap_app.
    cbn [fmap list_fmap fst]. rewrite flags_app. cbn [flags].
    assert (Qle_bool x (default q.1 (last pre0.*1)) = false) as ->.
    { apply not_true_iff_false. rewrite Qle_bool_iff.
      apply Forall_cons in Hpre as [Hq Hpre0].
      destruct (last pre0.*1) as [z|] eqn:Hz; cbn [default]; intros Hle.
      - apply last_Some_elem_of, list_elem_of_fmap in Hz as (pt & -> & Hpt).
        rewrite Forall_forall in Hpre0. specialize (Hpre0 pt Hpt).
        cbn in Hpre0, Hle. lra.
      - cbn in Hq, Hle. lra. }
    rewrite select_app by (by rewrite length_flags, length_fmap).
    done.
Qed.

Lemma strictly_increasing_app_inv (l1 l2 : list Q) (x q : Q) :
  strictly_increasing (l1 ++ x :: q :: l2) = true → (x < q)%Q.
Proof.
  induction l1 as [|a l1 IH].
  - change (strictly_increasing ([] ++ x :: q :: l2))
      with (Qlt_bool x q && strictly_increasing (q :: l2)).
    intros [H _]%andb_true_iff. by apply Qlt_bool_iff.
  - intros H. apply IH. destruct l1 as [|b l1].
    + change (strictly_increasing ([a] ++ x :: q :: l2))
        with (Qlt_bool a x && strictly_increasing (x :: q :: l2)) in H.
      by apply andb_true_iff in H as [_ ?].
    + change (strictly_increasing ((a :: b :: l1) ++ x :: q :: l2))
        with (Qlt_bool a b
              && strictly_increasing ((b :: l1) ++ x :: q :: l2)) in H.
      by apply andb_true_iff in H as [_ ?].
Qed.

Lemma first_attaining (M : Q) (pts : list (Q * Q)) :
  Forall (λ pt, (pt.1 <= M)%Q) pts → Exists (λ pt, (pt.1 == M)%Q) pts →
  ∃ pre x y post,
    pts = pre ++ (x, y) :: post ∧ Forall (λ pt, (pt.1 < M)%Q) pre ∧
    (x == M)%Q ∧ Forall (λ pt, (pt.1 <= M)%Q) post.
Proof.
  intros Hle. induction Hle as [|[x y] pts Hx Hle IH]; intros Hex;
    [by inv Hex|].
  destruct (Qeq_dec x M) as [E|Hne].
  - by exists [], x, y, pts.
  - destruct IH as (pre & x' & y' & post & -> & Hpre & E & Hpost).
    { inv Hex; [done|done]. }
    exists ((x, y) :: pre), x', y', post. split_and!; [done| |done|done].
    constructor; [|done]. cbn in *. lra.
Qed.

Lemma Forall_sublist {A} (P : A → Prop) (l k : list A) :
  l `sublist_of` k → Forall P k → Forall P l.
Proof.
  intros Hsub Hk. apply Forall_forall. intros x Hx.
  rewrite Forall_forall in Hk. apply Hk. by apply (sublist_subseteq l k).
Qed.

Lemma fst_zip_eq {A B} (l1 : list A) (l2 : list B) :
  length l1 = length l2 → (zip l1 l2).*1 = l1.
Proof. intros H. apply fst_zip. lia. Qed.

(** On ROC points shaped as lines 92-95 leave them, the last point to
    leave the loop is the first point whose fpr is 1, with the tpr it came
    with, and no point behind it survives. *)
Lemma monotonize_last_point (fuel : nat) (s r : list Q * list Q) :
  roc_shaped s → monotonize fuel s = Some r →
  ∃ pre x y post,
    zip s.1 s.2 = pre ++ (x, y) :: post ∧
    Forall (λ pt, (pt.1 < 1)%Q) pre ∧ (x == 1)%Q ∧
    last (zip r.1 r.2) = Some (x, y) ∧
    zip r.1 r.2 `sublist_of` pre ++ [(x, y)].
Proof.
  intros Hs Hrun. pose proof Hs as (mid & Hs1 & Hmid & Hlen).
  destruct (first_attaining 1 (zip s.1 s.2))
    as (pre & x & y & post & Hzip & Hpre & Ex & Hpost).
  { apply roc_shaped_attains in Hs as [_ [Hle _]].
    apply Forall_forall. intros [a b] Hin. apply elem_of_zip_l in Hin.
    rewrite Forall_forall in Hle. by apply Hle. }
  { apply roc_shaped_attains in Hs as [_ [_ Hex]].
    apply Exists_exists in Hex as (a & Hin & E).
    apply list_elem_of_lookup in Hin as [i Hi].
    destruct (lookup_lt_is_Some_2 s.2 i) as [b Hb].
    { rewrite <-Hlen. by eapply lookup_lt_Some. }
    apply Exists_exists. exists (a, b). split; [|done].
    apply list_elem_of_lookup. exists i.
    apply lookup_zip_with_Some. by exists a, b. }
  assert (∃ pre', zip r.1 r.2 = pre' ++ [(x, y)] ∧ pre' `sublist_of` pre)
    as (pre' & Hr & Hsub).
  { pose (Inv := λ s' : list Q * list Q,
          length s'.1 = length s'.2 ∧
          ∃ pre' post', zip s'.1 s'.2 = pre' ++ (x, y) :: post' ∧
                        pre' `sublist_of` pre ∧
                        Forall (λ pt, (pt.1 <= 1)%Q) post').
    assert (Inv r) as (Hlr & pre' & post' & Hr & Hsub & Hpost').
    { apply (monotonize_invariant Inv fuel s); [| |done].
      - intros [f t] (Hl & pre' & post' & Hz & Hsub & Hpost') _.
        cbn [fst snd] in *. rewrite monotonize_pass_select. unfold Inv.
        cbn [fst snd]. split; [by apply length_select_eq|].
        rewrite zip_select.
        assert (removal_flags f = removal_flags (zip f t).*1) as ->
          by (by rewrite fst_zip_eq).
        rewrite Hz.
        destruct (pass_first_attaining pre' post' x y)
          as (pre'' & post'' & -> & Hsub' & Hsub'').
        { eapply Forall_impl; [by eapply (Forall_sublist _ _ _ Hsub)|].
          intros pt Hpt. cbn in *. lra. }
        exists pre'', post''. split_and!;
          [done|by etrans|by eapply Forall_sublist].
      - split; [done|]. by exists pre, post. }
    assert (post' = []) as ->.
    { destruct post' as [|[qx qy] post']; [done|]. exfalso.
      pose proof (monotonize_Some_increasing _ _ _ Hrun) as Hsi.
      rewrite <-(fst_zip_eq r.1 r.2), Hr, fmap_app in Hsi by done.
      cbn [fmap list_fmap fst] in Hsi.
      apply strictly_increasing_app_inv in Hsi.
      apply Forall_cons in Hpost' as [Hq _]. cbn in Hq. lra. }
    by exists pre'. }
  exists pre, x, y, post. split_and!; [done|done|done| |].
  - rewrite Hr. apply last_snoc.
  - rewrite Hr. by apply sublist_app.
Qed.

(** ** Claims about the loop *)

Definition has_point (x y : Q) (s : list Q * list Q) : bool :=
  existsb (λ pt : Q * Q, Qeq_bool pt.1 x && Qeq_bool pt.2 y) (zip s.1 s.2).

Definition ascending_100 : list Q :=
  (λ i, inject_Z (Z.of_nat i)) <$> seq 1 100.
Definition descending_100 : list Q := reverse ascending_100.

(** C2, as stated, fails on the point (1, 1).  On three points whose
    middle fpr is already 1 the pass removes the appended (1, 1) and keeps
    the point (1, 1/2).  The same happens in a run of [auc_overall]: for
    truth values 1..100 predicted in reverse order the point (1, 1) is among
    the ROC points before the loop and not among them after it. *)
Lemma monotonize_removes_forced_endpoint :
  monotonize 3 ([0; 1; 1]%Q, [0; 1 # 2; 1]%Q)
  = Some ([0; 1]%Q, [0; 1 # 2]%Q)
  ∧ (s ← roc_points stable_argsort ascending_100 descending_100;
     Ok (has_point 1 1 s, has_point 1 1 <$> monotonize 99 s))
    = Ok (true, Some false).
Proof. split; vm_compute; reflexivity. Qed.

(** C2, amended.  The loop of lines 97-103 terminates on every input: as
    many passes as there are points suffice, and more passes do not change
    the result.  At the exit the fpr sequence is strictly increasing.  On
    ROC points shaped as lines 92-95 leave them, at least two points
    survive: the first one, with fpr 0 and its tpr unchanged, and a last one
    with fpr 1.  That last point is the first point whose fpr is 1, with
    the tpr it came with, and every point behind it is removed: the
    appended (1, 1) survives only when no earlier point has fpr 1.  The
    worst case is reached: when no fpr in between exceeds 0, only the
    forced endpoints (0, 0) and (1, 1) remain. *)
Theorem monotonize_terminates_strictly_increasing (s : list Q * list Q) :
  ∃ r,
    (∀ fuel, (length s.1 ≤ fuel)%nat → monotonize fuel s = Some r) ∧
    strictly_increasing r.1 = true ∧
    (roc_shaped s →
       head r.1 = Some 0%Q ∧ head r.2 = head s.2 ∧
       (∃ z, last r.1 = Some z ∧ (z == 1)%Q) ∧
       (2 ≤ length r.1 ≤ length s.1)%nat ∧
       ∃ pre x y post,
         zip s.1 s.2 = pre ++ (x, y) :: post ∧
         Forall (λ pt, (pt.1 < 1)%Q) pre ∧ (x == 1)%Q ∧
         last (zip r.1 r.2) = Some (x, y) ∧
         zip r.1 r.2 `sublist_of` pre ++ [(x, y)]) ∧
    (∀ n ts, s = (0%Q :: replicate n 0%Q ++ [1%Q], 0%Q :: ts ++ [1%Q]) →
             length ts = n → r = ([0%Q; 1%Q], [0%Q; 1%Q])).
Proof.
  destruct (monotonize_terminates s) as (r & Hr & Hsi).
  exists r. split_and!; [done|done| |].
  - intros Hs.
    destruct (monotonize_roc_shaped (length s.1) s r Hs) as (?&?&?&?&?);
      [by apply Hr|].
    do 4 (split; [done|]).
    apply (monotonize_last_point (length s.1)); [done|by apply Hr].
  - intros n ts -> Hlen.
    pose proof (monotonize_worst_case n ts Hlen) as Hw.
    apply (monotonize_more_fuel _ (S (length (replicate n 0%Q ++ [1%Q]))))
      in Hw; [|lia].
    rewrite Hr in Hw by done. by injection Hw.
Qed.


(** ** The ROC points of [auc_overall] *)

Lemma mapM_Ok_Forall2 {A B} (f : A → result B) (l : list A) (k : list B) :
  mapM f l = Ok k → Forall2 (λ x y, f x = Ok y) l k.
Proof.
  revert k. induction l as [|x l IH]; intros k; cbn [mapM].
  { intros [= <-]. constructor. }
  intros H. apply bind_Ok in H as (y & Hy & H).
  apply bind_Ok in H as (k' & Hk' & [= <-]). constructor; auto.
Qed.

Lemma mapM_result_cons {A B} (f : A → result B) (x : A) (l : list A) :
  mapM f (x :: l) = y ← f x; k ← mapM f l; Ok (y :: k).
Proof. done. Qed.

Lemma grid_length : length grid = 98%nat.
Proof. reflexivity. Qed.

Section roc_points_facts.
Variable argsort : list Q → list nat.
Hypothesis argsort_spec : ∀ keys, np.is_argsort keys (argsort keys).

(** In a returned tuple the rates are fractions of positive counts: no
    division by zero is ever evaluated, and the false positive rate lies
    in [0, 1]. *)
Lemma metrics_fpr_bounds (a1 a2 : list Q) (p : Q) (g : Q * Q * Q * Q * Q) :
  metrics argsort a1 a2 p = Ok g → (0 <= g.2)%Q ∧ (g.2 <= 1)%Q.
Proof.
  unfold metrics. intros H. apply bind_Ok in H as (m & Hm & [= <-]).
  cbn [snd].
  pose proof (metrics_run_inv argsort argsort_spec a1 a2 p m Hm)
    as (_ & _ & _ & Hk & _ & _ & Htn & Hfp & _ & _ & _ & _ & _ & E3
        & _ & _ & _ & _ & ->).
  assert (0 < fp m + tn m) as Hpos by lia.
  assert (0 < inject_Z (fp m + tn m))%Q as HposQ.
  { change 0%Q with (inject_Z 0). by rewrite <-Zlt_Qlt. }
  split.
  - apply Qle_shift_div_l; [done|]. rewrite Qmult_0_l.
    by apply inject_Z_nonneg.
  - apply Qle_shift_div_r; [done|]. rewrite Qmult_1_l, <-Zle_Qle. lia.
Qed.

Lemma roc_points_inv (a1 a2 : list Q) (s : list Q * list Q) :
  roc_points argsort a1 a2 = Ok s →
  ∃ g gs,
    mapM (metrics argsort a1 a2) grid = Ok (g :: gs) ∧
    s = (0%Q :: ((λ g : Q * Q * Q * Q * Q, g.2) <$> gs) ++ [1%Q],
         0%Q :: ((λ g : Q * Q * Q * Q * Q, g.1.2) <$> gs) ++ [1%Q]) ∧
    roc_shaped s ∧ length s.1 = 99%nat.
Proof.
  unfold roc_points. intros H. apply bind_Ok in H as (gs & Hgs & H).
  pose proof (mapM_Ok_Forall2 _ _ _ Hgs) as Hall.
  pose proof (Forall2_length _ _ _ Hall) as Hlen. rewrite grid_length in Hlen.
  destruct gs as [|g gs]; [done|]. injection Hlen as Hlen.
  cbn in H. injection H as <-. exists g, gs. split_and!; [done|done| |].
  - eexists. split_and!; [done| |].
    + apply Forall_fmap, Forall_forall. intros g' Hg'.
      apply Forall2_cons_inv_r in Hall as (p & ps & _ & Hps & _).
      apply list_elem_of_lookup in Hg' as [i Hi].
      destruct (Forall2_lookup_r _ _ _ _ _ Hps Hi) as (p' & _ & Hp').
      by apply metrics_fpr_bounds in Hp' as [_ ?].
    + cbn. by rewrite !length_app, !length_fmap.
  - cbn. rewrite length_app, length_fmap. simpl. lia.
Qed.
End roc_points_facts.

(** ** [auc] on a strictly increasing abscissa *)

Lemma diff_cons (x y : Q) (l : list Q) :
  sk_auc.diff (x :: y :: l) = (y - x)%Q :: sk_auc.diff (y :: l).
Proof. done. Qed.

Lemma diff_strictly_increasing (x : list Q) :
  strictly_increasing x = true →
  existsb (λ d, Qlt_bool d 0) (sk_auc.diff x) = false.
Proof.
  induction x as [|a x IH]; [done|]. destruct x as [|b x]; [done|].
  change (strictly_increasing (a :: b :: x))
    with (Qlt_bool a b && strictly_increasing (b :: x)).
  intros [Hab Hsi]%andb_true_iff. apply Qlt_bool_iff in Hab.
  rewrite diff_cons. cbn [existsb]. rewrite IH by done.
  rewrite orb_false_r. apply not_true_iff_false. rewrite Qlt_bool_iff.
  intros H. lra.
Qed.

Lemma auc_strictly_increasing (x y : list Q) :
  strictly_increasing x = true → (2 ≤ length x)%nat → length x = length y →
  sk_auc.auc x y = Ok (sk_auc.trapz y x).
Proof.
  intros Hsi Hlen Hxy. unfold sk_auc.auc.
  rewrite bool_decide_eq_true_2 by done. cbn [negb].
  rewrite bool_decide_eq_false_2 by lia.
  by rewrite diff_strictly_increasing.
Qed.

(** ** The spec's description of [auc_overall] *)

(** 98 cutoffs from 1 in steps of 99/98: the 99 evenly spaced points over
    [1, 100] without the last. *)
Definition spec_cutoffs : list Q :=
  (λ i, 1 + inject_Z (Z.of_nat i) * (99 # 98))%Q <$> seq 0 98.

(** The trapezoidal rule over a list of points (x, y). *)
Fixpoint spec_trapezoid (pts : list (Q * Q)) : Q :=
  match pts with
  | p0 :: rest =>
      match rest with
      | p1 :: _ =>
          ((p1.1 - p0.1) * (p0.2 + p1.2) / 2 + spec_trapezoid rest)%Q
      | [] => 0%Q
      end
  | [] => 0%Q
  end.

Lemma trapz_spec_trapezoid (x y : list Q) :
  length x = length y →
  (sk_auc.trapz y x == spec_trapezoid (zip x y))%Q.
Proof.
  revert y. induction x as [|a x IH]; intros [|b y] Hlen; try done.
  destruct x as [|a' x], y as [|b' y]; try done.
  injection Hlen as Hlen. specialize (IH (b' :: y)).
  unfold sk_auc.trapz in *. rewrite diff_cons.
  cbn [tail zip_with sk_auc.Qsum foldr zip spec_trapezoid fst snd] in *.
  rewrite IH by (simpl; lia). field.
Qed.

(** One scan drops every point whose fpr is not greater than the fpr of its
    immediate predecessor; the first point has none. *)
Fixpoint spec_scan (prev : Q) (pts : list (Q * Q)) : list (Q * Q) :=
  match pts with
  | [] => []
  | pt :: rest =>
      if Qle_bool pt.1 prev then spec_scan pt.1 rest
      else pt :: spec_scan pt.1 rest
  end.

Definition spec_pass (pts : list (Q * Q)) : list (Q * Q) :=
  match pts with
  | [] => []
  | pt :: rest => pt :: spec_scan pt.1 rest
  end.

(** Scans are repeated until the fprs are strictly increasing; a scan that
    changes something removes a point, so no more scans are needed than
    there are points. *)
Fixpoint spec_repeat (n : nat) (pts : list (Q * Q)) : list (Q * Q) :=
  match n with
  | O => pts
  | S n' =>
      if strictly_increasing pts.*1 then pts
      else spec_repeat n' (spec_pass pts)
  end.

Definition spec_monotonize (pts : list (Q * Q)) : list (Q * Q) :=
  spec_repeat (length pts) pts.

(** [metrics_at] at each cutoff in turn, the first ROC point forced to
    (0, 0), (1, 1) appended, monotonization, trapezoidal rule. *)
Definition spec_auc_overall {P} (metrics_at : P → result (Q * Q * Q * Q * Q))
    (cutoffs : list P) : result Q :=
  gs ← mapM metrics_at cutoffs;
  let points := (λ g : Q * Q * Q * Q * Q, (g.2, g.1.2)) <$> gs in
  let points := (0%Q, 0%Q) :: tail points ++ [(1%Q, 1%Q)] in
  Ok (spec_trapezoid (spec_monotonize points)).

(** Same exception, or equal areas as rationals. *)
Definition same_result (x y : result Q) : Prop :=
  match x, y with
  | Err e1, Err e2 => e1 = e2
  | Ok v1, Ok v2 => (v1 == v2)%Q
  | _, _ => False
  end.

(** A double within 1e-13 of a rational. *)
Definition close_to (c : float) (x : Q) : bool :=
  match f64.to_Q c with
  | Some q =>
      Qle_bool (q - x) (1 # 10000000000000)
      && Qle_bool (x - q) (1 # 10000000000000)
  | None => false
  end.

Lemma spec_scan_select (prev : Q) (pts : list (Q * Q)) :
  spec_scan prev pts = select (flags prev pts.*1) pts.
Proof.
  revert prev. induction pts as [|pt pts IH]; intros prev; [done|].
  cbn [spec_scan fmap list_fmap flags select]. rewrite IH.
  by destruct (Qle_bool pt.1 prev).
Qed.

Lemma spec_pass_select (pts : list (Q * Q)) :
  spec_pass pts = select (removal_flags pts.*1) pts.
Proof.
  destruct pts as [|pt pts]; [done|].
  cbn [spec_pass fmap list_fmap removal_flags select].
  by rewrite spec_scan_select.
Qed.

Lemma monotonize_pass_spec (s : list Q * list Q) :
  length s.1 = length s.2 →
  zip (monotonize_pass s).1 (monotonize_pass s).2 = spec_pass (zip s.1 s.2).
Proof.
  destruct s as [f t]. cbn [fst snd]. intros Hlen.
  rewrite monotonize_pass_select. cbn [fst snd].
  by rewrite zip_select, spec_pass_select, fst_zip_eq.
Qed.

(** The loop of lines 97-103 computes the spec's monotonization. *)
Lemma monotonize_spec (fuel : nat) (s r : list Q * list Q) :
  length s.1 = length s.2 → monotonize fuel s = Some r →
  ∀ n, (length s.1 ≤ n)%nat → spec_repeat n (zip s.1 s.2) = zip r.1 r.2.
Proof.
  revert s. induction fuel as [|fuel IH]; intros s Hlen Hrun n Hn;
    cbn [monotonize] in Hrun;
    destruct (strictly_increasing s.1) eqn:Hsi; try done.
  1,2: injection Hrun as <-; destruct n; cbn [spec_repeat]; [done|];
       by rewrite fst_zip_eq, Hsi.
  pose proof (monotonize_pass_shorter s Hsi) as Hlt.
  destruct n as [|n]; [lia|]. cbn [spec_repeat].
  rewrite fst_zip_eq, Hsi by done.
  rewrite <-monotonize_pass_spec by done. apply IH; [|done|lia].
  destruct s as [f t]. rewrite monotonize_pass_select. cbn [fst snd] in *.
  by apply length_select_eq.
Qed.

Lemma length_zip_eq {A B} (l1 : list A) (l2 : list B) :
  length l1 = length l2 → length (zip l1 l2) = length l1.
Proof. intros H. rewrite length_zip_with. lia. Qed.

Lemma monotonize_spec_monotonize (fuel : nat) (s r : list Q * list Q) :
  length s.1 = length s.2 → monotonize fuel s = Some r →
  spec_monotonize (zip s.1 s.2) = zip r.1 r.2.
Proof.
  intros Hlen Hrun. unfold spec_monotonize.
  apply (monotonize_spec fuel); [done|done|]. by rewrite length_zip_eq.
Qed.

Lemma zip_fmap_points {G} (f h : G → Q) (gs : list G) :
  zip (0%Q :: (f <$> gs) ++ [1%Q]) (0%Q :: (h <$> gs) ++ [1%Q])
  = (0%Q, 0%Q) :: ((λ g, (f g, h g)) <$> gs) ++ [(1%Q, 1%Q)].
Proof.
  cbn [zip zip_with]. f_equal.
  induction gs as [|g gs IH]; [done|]. cbn. by rewrite <-IH.
Qed.

Lemma grid64_length : length grid64 = 98%nat.
Proof. vm_compute. reflexivity. Qed.

Lemma forallb_zip_Forall2 {A B} (f : A → B → bool) (l : list A) (k : list B) :
  length l = length k →
  forallb (λ ab, f ab.1 ab.2) (zip l k) = true →
  Forall2 (λ a b, f a b = true) l k.
Proof.
  revert k. induction l as [|a l IH]; intros [|b k] Hlen H; simplify_eq/=;
    [constructor|].
  apply andb_true_iff in H as [H1 H2]. constructor; auto.
Qed.

(** ** The sweep around [metrics] *)

(** Lines 88-105 with any function in the place of [metrics] and any list
    in the place of the grid; [auc_overall64] is the instance at
    [metrics64] and [grid64]. *)
Section sweep.
Context {P : Type}.
Variable metrics_at : P → result (Q * Q * Q * Q * Q).
Variable cutoffs : list P.

Definition roc_points_with : result (list Q * list Q) :=
  metrics_grid ← mapM metrics_at cutoffs;
  let tprs := (λ g : Q * Q * Q * Q * Q, g.1.2) <$> metrics_grid in
  let fprs := (λ g : Q * Q * Q * Q * Q, g.2) <$> metrics_grid in
  fprs ← py.setitem fprs 0 0%Q;
  tprs ← py.setitem tprs 0 0%Q;
  let fprs := fprs ++ [1%Q] in
  let tprs := tprs ++ [1%Q] in
  Ok (fprs, tprs).

Definition auc_overall_with (fuel : nat) : option (result Q) :=
  match roc_points_with with
  | Err e => Some (Err e)
  | Ok s =>
      match monotonize fuel s with
      | None => None
      | Some (fprs, tprs) => Some (sk_auc.auc fprs tprs)
      end
  end.

Hypothesis cutoffs_nonempty : cutoffs ≠ [].
Hypothesis fpr_le_1 : ∀ c g, metrics_at c = Ok g → (g.2 <= 1)%Q.

Lemma roc_points_with_inv (s : list Q * list Q) :
  roc_points_with = Ok s →
  ∃ g gs,
    mapM metrics_at cutoffs = Ok (g :: gs) ∧
    s = (0%Q :: ((λ g : Q * Q * Q * Q * Q, g.2) <$> gs) ++ [1%Q],
         0%Q :: ((λ g : Q * Q * Q * Q * Q, g.1.2) <$> gs) ++ [1%Q]) ∧
    roc_shaped s ∧ length s.1 = S (length cutoffs).
Proof.
  unfold roc_points_with. intros H. apply bind_Ok in H as (gs & Hgs & H).
  pose proof (mapM_Ok_Forall2 _ _ _ Hgs) as Hall.
  pose proof (Forall2_length _ _ _ Hall) as Hlen.
  destruct gs as [|g gs]; [by destruct cutoffs|].
  cbn in H. injection H as <-. exists g, gs. split_and!; [done|done| |].
  - eexists. split_and!; [done| |].
    + apply Forall_fmap, Forall_forall. intros g' Hg'.
      apply Forall2_cons_inv_r in Hall as (p & ps & _ & Hps & _).
      apply list_elem_of_lookup in Hg' as [i Hi].
      destruct (Forall2_lookup_r _ _ _ _ _ Hps Hi) as (p' & _ & Hp').
      by apply fpr_le_1 in Hp'.
    + cbn. by rewrite !length_app, !length_fmap.
  - cbn. rewrite length_app, length_fmap, Hlen. simpl. lia.
Qed.

Lemma roc_points_with_Err (e : exn) :
  roc_points_with = Err e → mapM metrics_at cutoffs = Err e.
Proof.
  unfold roc_points_with. intros Hroc.
  destruct (mapM metrics_at cutoffs) as [gs|e'] eqn:Hgs.
  - exfalso. pose proof (mapM_Ok_Forall2 _ _ _ Hgs) as Hall.
    apply Forall2_length in Hall. destruct gs; [by destruct cutoffs|done].
  - cbn in Hroc. by injection Hroc as ->.
Qed.

(** Whatever stands in the place of [metrics], as long as its fifth value
    is at most 1: once the loop has exited, the outcome is that of the
    spec's description. *)
Lemma auc_overall_with_refines_spec (fuel : nat) (r : result Q) :
  auc_overall_with fuel = Some r →
  same_result r (spec_auc_overall metrics_at cutoffs).
Proof.
  unfold auc_overall_with, spec_auc_overall.
  destruct roc_points_with as [s|e] eqn:Hroc.
  - destruct (roc_points_with_inv s Hroc)
      as (g & gs & Hgs & -> & Hshape & Hlen).
    rewrite Hgs. cbn [mbind result_bind fmap list_fmap tail].
    destruct (monotonize fuel _) as [[fprs tprs]|] eqn:Hrun; [|done].
    intros [= <-].
    pose proof (monotonize_Some_increasing _ _ _ Hrun) as Hsi.
    destruct (monotonize_roc_shaped _ _ _ Hshape Hrun)
      as (_ & _ & _ & [Hge _] & Hlens).
    pose proof Hshape as (_ & _ & _ & Hlen2).
    apply monotonize_spec_monotonize in Hrun; [|done].
    cbn [fst snd] in *.
    rewrite auc_strictly_increasing by done. cbn [same_result].
    rewrite zip_fmap_points in Hrun. rewrite Hrun.
    by apply trapz_spec_trapezoid.
  - intros [= <-]. by rewrite (roc_points_with_Err e).
Qed.

Lemma auc_overall_with_exits (fuel : nat) :
  (S (length cutoffs) ≤ fuel)%nat → is_Some (auc_overall_with fuel).
Proof.
  intros Hfuel. unfold auc_overall_with.
  destruct roc_points_with as [s|e] eqn:Hroc; [|done].
  destruct (roc_points_with_inv s Hroc) as (_ & _ & _ & _ & _ & Hlen).
  destruct (monotonize_terminates s) as ([fprs tprs] & Hr & _).
  rewrite Hr by lia. done.
Qed.
End sweep.

Lemma auc_overall64_with argsort (fuel : nat) (a1 a2 : list Q) :
  auc_overall64 argsort fuel a1 a2
  = auc_overall_with (metrics64 argsort a1 a2) grid64 fuel.
Proof. reflexivity. Qed.

Lemma metrics64_fpr_le_1 argsort (a1 a2 : list Q) (p : float)
    (g : Q * Q * Q * Q * Q) :
  (∀ keys, np.is_argsort keys (argsort keys)) →
  metrics64 argsort a1 a2 p = Ok g → (g.2 <= 1)%Q.
Proof.
  intros argsort_spec. unfold metrics64. intros H.
  apply bind_Ok in H as (m & Hm & [= <-]).
  cbn [snd]. apply metrics_run64_inv in Hm as (_ & k & _ & Hm).
  pose proof (confusion_rates_inv argsort argsort_spec a1 a2 k m Hm)
    as (_ & Hk & _ & _ & Htn & Hfp & _ & _ & _ & _ & _ & E3
        & _ & _ & _ & _ & ->).
  assert (0 < fp m + tn m) as Hpos by lia.
  assert (0 < inject_Z (fp m + tn m))%Q as HposQ.
  { change 0%Q with (inject_Z 0). by rewrite <-Zlt_Qlt. }
  apply Qle_shift_div_r; [done|]. rewrite Qmult_1_l, <-Zle_Qle. lia.
Qed.

(** C5.  [auc_overall] evaluates [metrics] on a grid of exactly 98
    cutoffs: the 99 points of [linspace(1, 100, 99)] without the last one,
    which is 100; the first cutoff is exactly 1, and each cutoff is the
    evenly spaced value [1 + i * 99/98] up to the rounding of float64
    (within 1e-13).  It then overwrites the first ROC point with (0, 0),
    appends (1, 1), and after the loop integrates by the trapezoidal rule:
    whenever the loop has exited, the outcome is that of the spec's
    description [spec_auc_overall] applied to [metrics] and these cutoffs,
    the same exception or the same area, and 99 passes are enough for the
    loop to exit.  Nothing of this rests on what [metrics] computes: the
    same holds of lines 88-105 with any function in its place whose fifth
    value, the false positive rate, is at most 1. *)
Theorem auc_overall_refines_spec
    (argsort : list Q → list nat)
    (argsort_spec : ∀ keys, np.is_argsort keys (argsort keys))
    (fuel : nat) (a1 a2 : list Q) :
  length grid64 = 98%nat ∧
  head grid64 = Some 1%float ∧
  np.linspace64 1 100 99 = grid64 ++ [100%float] ∧
  Forall2 (λ c x, close_to c x = true) grid64 spec_cutoffs ∧
  (∀ r, auc_overall64 argsort fuel a1 a2 = Some r →
        same_result r (spec_auc_overall (metrics64 argsort a1 a2) grid64)) ∧
  ((99 ≤ fuel)%nat → is_Some (auc_overall64 argsort fuel a1 a2)) ∧
  (∀ metrics_at : float → result (Q * Q * Q * Q * Q),
     (∀ c g, metrics_at c = Ok g → (g.2 <= 1)%Q) →
     ∀ r, auc_overall_with metrics_at grid64 fuel = Some r →
          same_result r (spec_auc_overall metrics_at grid64)).
Proof.
  assert (grid64 ≠ []) as Hne by (by vm_compute).
  split_and!.
  - apply grid64_length.
  - vm_compute. reflexivity.
  - vm_compute. reflexivity.
  - apply forallb_zip_Forall2; vm_compute; reflexivity.
  - intros r. rewrite auc_overall64_with.
    apply auc_overall_with_refines_spec; [done|].
    intros c g. by apply metrics64_fpr_le_1.
  - intros Hfuel. rewrite auc_overall64_with.
    apply auc_overall_with_exits; [done| |by rewrite grid64_length].
    intros c g. by apply metrics64_fpr_le_1.
  - intros metrics_at Hfpr r. by apply auc_overall_with_refines_spec.
Qed.

Lemma auc_overall_refines_spec_witness :
  is_Some (auc_overall64 stable_argsort 99 ascending_100 descending_100).
Proof.
  apply (auc_overall_refines_spec stable_argsort stable_argsort_spec
           99 ascending_100 descending_100).
  lia.
Defined.


(** * Tables *)

Module pd.

(** A column is a float64 column, whose missing entries are NaN, an int64
    column, which has no missing entries, or an object column of strings,
    whose missing entries are [None].  Boolean and other dtypes are not
    modelled. *)
Inductive column : Type :=
  | FloatCol (cells : list (option Q))
  | IntCol (cells : list Z)
  | ObjCol (cells : list (option string)).

(** A [DataFrame]: its columns in order, by name.  The row index is not
    modelled. *)
Abbreviation table := (list (string * column)).

Definition size (c : column) : nat :=
  match c with
  | FloatCol cells => length cells
  | IntCol cells => length cells
  | ObjCol cells => length cells
  end.

(** [pd.api.types.is_numeric_dtype]. *)
Definition is_numeric_dtype (c : column) : bool :=
  match c with FloatCol _ | IntCol _ => true | ObjCol _ => false end.

(** The values of a numeric column as floats, as [quantile] reads them. *)
Definition as_floats (c : column) : option (list (option Q)) :=
  match c with
  | FloatCol cells => Some cells
  | IntCol cells => Some ((λ z, Some (inject_Z z)) <$> cells)
  | ObjCol _ => None
  end.

Definition count_none {A} (cells : list (option A)) : nat :=
  length (filter (λ x, x = None) cells).

(** [c.isna().mean()]: the fraction of missing entries, NaN for a column
    without rows. *)
Definition isna_mean (c : column) : option Q :=
  if decide (size c = 0%nat) then None
  else
    let missing := match c with
                   | FloatCol cells => count_none cells
                   | IntCol _ => 0%nat
                   | ObjCol cells => count_none cells
                   end in
    Some (inject_Z (Z.of_nat missing) / inject_Z (Z.of_nat (size c)))%Q.

(** The number of missing entries of a column. *)
Definition count_missing (c : column) : nat :=
  match c with
  | FloatCol cells => count_none cells
  | IntCol _ => 0%nat
  | ObjCol cells => count_none cells
  end.

(** [c.isna().mean()] in binary64: the sum of the flags divided by the
    number of rows, NaN (0/0) for a column without rows. *)
Definition isna_mean64 (c : column) : float :=
  (f64.of_Z (Z.of_nat (count_missing c)) / f64.of_Z (Z.of_nat (size c)))%float.

(** [X[name]]. *)
Fixpoint get_col (name : string) (X : table) : option column :=
  match X with
  | [] => None
  | (n, c) :: X' => if decide (n = name) then Some c else get_col name X'
  end.

(** [X[name] = c]: replaces the column in place, or appends a new one. *)
Fixpoint set_col (name : string) (c : column) (X : table) : table :=
  match X with
  | [] => [(name, c)]
  | (n, c') :: X' =>
      if decide (n = name) then (n, c) :: X'
      else (n, c') :: set_col name c X'
  end.

(** [X.drop(labels, axis=1)]: a label that is not a column raises; every
    column with one of the labels is left out. *)
Definition drop (labels : list string) (X : table) : result table :=
  match list_find (λ l, l ∉ X.*1) labels with
  | Some (_, l) => Err (KeyError l)
  | None => Ok (filter (λ nc, nc.1 ∉ labels) X)
  end.

(** Comparisons of floats: false when either side is NaN. *)
Definition flt (a b : option Q) : bool :=
  match a, b with
  | Some x, Some y => Qlt_bool x y
  | _, _ => false
  end.
Definition fle (a b : option Q) : bool :=
  match a, b with
  | Some x, Some y => Qle_bool x y
  | _, _ => false
  end.

End pd.

(** * DropMissing *)

Module DropMissing.

Record t : Type := Make {
  threshold : option Q;
  missing_frac : option (list (string * option Q));
  cols_to_drop : option (list string);
  cols_to_keep : option (list string)
}.

(** Line 110. *)
Definition init (threshold : option Q) : t := Make threshold None None None.

(** Lines 113-118. *)
Definition fit (self : t) (X : pd.table) : result t :=
  let missing := (λ nc : string * pd.column, (nc.1, pd.isna_mean nc.2)) <$> X in
  match threshold self with
  | None =>
      (* pandas compares a Series with None elementwise as all False *)
      Ok (Make (threshold self) (Some missing) (Some []) (Some []))
  | Some th =>
      let to_drop := filter (λ nf, pd.flt (Some th) nf.2 = true) missing in
      let to_keep := filter (λ nf, pd.fle nf.2 (Some th) = true) missing in
      Ok (Make (threshold self) (Some missing)
               (Some to_drop.*1) (Some to_keep.*1))
  end.

(** Lines 120-121. *)
Definition transform (self : t) (X : pd.table) : result pd.table :=
  match cols_to_drop self with
  | None =>
      Err (AttributeError "'DropMissing' object has no attribute 'cols_to_drop'")
  | Some labels => pd.drop labels X
  end.

End DropMissing.

(** ** DropMissing, with the comparison of lines 116-117 in binary64

    [DropMissing] above compares the exact fraction of missing entries with
    the threshold.  The code compares the float64 mean of line 114, a
    rounded quotient, and a threshold equal to that rounded value decides
    differently: [DropMissing64] keeps the mean and the threshold in
    binary64. *)

Module DropMissing64.

Record t : Type := Make {
  threshold : option float;
  missing_frac : option (list (string * float));
  cols_to_drop : option (list string);
  cols_to_keep : option (list string)
}.

(** Line 110. *)
Definition init (threshold : option float) : t :=
  Make threshold None None None.

(** Lines 113-118. *)
Definition fit (self : t) (X : pd.table) : result t :=
  let missing :=
    (λ nc : string * pd.column, (nc.1, pd.isna_mean64 nc.2)) <$> X in
  match threshold self with
  | None =>
      (* pandas compares a Series with None elementwise as all False *)
      Ok (Make (threshold self) (Some missing) (Some []) (Some []))
  | Some th =>
      let to_drop := filter (λ nf, (th <? nf.2)%float = true) missing in
      let to_keep := filter (λ nf, (nf.2 <=? th)%float = true) missing in
      Ok (Make (threshold self) (Some missing)
               (Some to_drop.*1) (Some to_keep.*1))
  end.

(** Lines 120-121. *)
Definition transform (self : t) (X : pd.table) : result pd.table :=
  match cols_to_drop self with
  | None =>
      Err (AttributeError "'DropMissing' object has no attribute 'cols_to_drop'")
  | Some labels => pd.drop labels X
  end.

End DropMissing64.

(** ** Claims about [DropMissing] *)

Lemma filter_ext_elem_of {A} (P1 P2 : A → Prop)
    `{!∀ x, Decision (P1 x), !∀ x, Decision (P2 x)} (l : list A) :
  (∀ x, x ∈ l → P1 x ↔ P2 x) → filter P1 l = filter P2 l.
Proof.
  induction l as [|a l IH]; intros Hiff; [done|].
  rewrite !filter_cons, IH.
  - destruct (decide (P1 a)) as [H1|H1], (decide (P2 a)) as [H2|H2];
      try done; destruct (Hiff a); try (by left); tauto.
  - intros x Hx. apply Hiff. by right.
Qed.

Lemma NoDup_fst_unique {A B} (l : list (A * B)) (a : A) (b1 b2 : B) :
  NoDup l.*1 → (a, b1) ∈ l → (a, b2) ∈ l → b1 = b2.
Proof.
  induction l as [|[a' b'] l IH]; csimpl; intros Hnd H1 H2; [by inv H1|].
  apply NoDup_cons in Hnd as [Hnotin Hnd].
  apply elem_of_cons in H1 as [H1|H1], H2 as [H2|H2]; simplify_eq;
    [done| | |by apply IH];
    destruct Hnotin; apply list_elem_of_fmap; by eexists (_, _).
Qed.

(** The missing-value fraction of the column is strictly greater than the
    threshold. *)
Definition exceeds (th : Q) (c : pd.column) : Prop :=
  ∃ f, pd.isna_mean c = Some f ∧ (th < f)%Q.

Lemma flt_exceeds (th : Q) (c : pd.column) :
  pd.flt (Some th) (pd.isna_mean c) = true ↔ exceeds th c.
Proof.
  unfold exceeds. destruct (pd.isna_mean c) as [f|]; simpl.
  - rewrite Qlt_bool_iff. split; [by exists f|by intros (? & [= <-] & ?)].
  - split; [done|by intros (? & [=] & _)].
Qed.

Global Instance exceeds_decision th c : Decision (exceeds th c).
Proof.
  refine (cast_if (decide (pd.flt (Some th) (pd.isna_mean c) = true)));
    abstract (by rewrite <-flt_exceeds).
Defined.

(** The spec's words: the missing-value fraction of a column is the number
    of its missing entries over the number of its rows.  The code has it as
    a float64, the double nearest to that quotient. *)
Fixpoint spec_count_missing {A} (cells : list (option A)) : nat :=
  match cells with
  | [] => 0
  | None :: rest => S (spec_count_missing rest)
  | Some _ :: rest => spec_count_missing rest
  end.

Definition spec_missing (c : pd.column) : nat :=
  match c with
  | pd.FloatCol cells => spec_count_missing cells
  | pd.IntCol _ => 0
  | pd.ObjCol cells => spec_count_missing cells
  end.

Definition spec_rows (c : pd.column) : nat :=
  match c with
  | pd.FloatCol cells => length cells
  | pd.IntCol cells => length cells
  | pd.ObjCol cells => length cells
  end.

Definition spec_missing_fraction (c : pd.column) : float :=
  (f64.of_Z (Z.of_nat (spec_missing c))
   / f64.of_Z (Z.of_nat (spec_rows c)))%float.

(** The missing-value fraction of the column is strictly greater than the
    threshold. *)
Definition spec_exceeds (th : float) (c : pd.column) : Prop :=
  (th <? spec_missing_fraction c)%float = true.

Global Instance spec_exceeds_decision th c : Decision (spec_exceeds th c).
Proof. unfold spec_exceeds. apply _. Defined.

Lemma spec_count_missing_count_none {A} (cells : list (option A)) :
  spec_count_missing cells = pd.count_none cells.
Proof.
  unfold pd.count_none. induction cells as [|[a|] cells IH]; [done| |].
  - by rewrite filter_cons_False.
  - rewrite filter_cons_True by done. cbn. by rewrite IH.
Qed.

Lemma spec_missing_fraction_mean (c : pd.column) :
  spec_missing_fraction c = pd.isna_mean64 c.
Proof.
  unfold spec_missing_fraction, pd.isna_mean64.
  by destruct c; cbn [spec_missing spec_rows pd.count_missing pd.size];
    rewrite ?spec_count_missing_count_none.
Qed.

(** C8, as stated, fails in two ways.  Columns may share a name, and [drop]
    removes every column that carries a dropped name: of two columns named
    "a", one all missing and one without missing entries, both are removed
    at threshold 0.5.  And the fraction compared at line 116 is a float64:
    at threshold 0x1.5555555555555p-2, the double nearest to 1/3 and
    smaller than 1/3, a column with one entry of three missing has a
    missing fraction greater than the threshold and is kept. *)
Lemma dropmissing_duplicate_names_and_rounding :
  (let full := pd.FloatCol [Some 1%Q; Some 2%Q] in
   let X := [("a"%string, pd.FloatCol [None; None]); ("a"%string, full)] in
   ∃ self,
     DropMissing64.fit (DropMissing64.init (Some 0.5%float)) X = Ok self ∧
     DropMissing64.cols_to_drop self = Some ["a"%string] ∧
     DropMissing64.transform self X = Ok [] ∧
     pd.isna_mean full = Some (0 # 2)%Q) ∧
  (let th := 0x1.5555555555555p-2%float in
   let c := pd.FloatCol [None; Some 1%Q; Some 2%Q] in
   let X := [("a"%string, c)] in
   ∃ self q f,
     f64.to_Q th = Some q ∧ pd.isna_mean c = Some f ∧ (q < f)%Q ∧
     DropMissing64.fit (DropMissing64.init (Some th)) X = Ok self ∧
     DropMissing64.cols_to_drop self = Some [] ∧
     DropMissing64.transform self X = Ok X).
Proof.
  split; cbn zeta.
  - eexists. split; [reflexivity|]. split; [reflexivity|].
    split; reflexivity.
  - eexists _, _, _. split; [vm_compute; reflexivity|].
    split; [vm_compute; reflexivity|]. split; [reflexivity|].
    split; [reflexivity|]. split; reflexivity.
Qed.

(** C8, amended.  For a table [X] with distinct column names and a
    configured threshold [th], [fit] then [transform] on [X] both return;
    the columns to drop are the names of exactly the columns of [X] whose
    missing fraction, the float64 quotient of the number of missing entries
    by the number of rows, is strictly greater than [th]; the output is [X]
    without exactly those columns, the others kept in order; and no dropped
    name is a column name of the output. *)
Theorem dropmissing_drops_exactly_exceeding (X : pd.table) (th : float) :
  NoDup X.*1 →
  ∃ self labels X',
    DropMissing64.fit (DropMissing64.init (Some th)) X = Ok self ∧
    DropMissing64.cols_to_drop self = Some labels ∧
    DropMissing64.transform self X = Ok X' ∧
    (∀ n, n ∈ labels ↔ ∃ c, (n, c) ∈ X ∧ spec_exceeds th c) ∧
    X' = filter (λ nc, ¬ spec_exceeds th nc.2) X ∧
    (∀ n c, (n, c) ∈ X → ((n, c) ∈ X' ↔ ¬ spec_exceeds th c)) ∧
    (∀ n, n ∈ labels → n ∉ X'.*1).
Proof.
  intros Hnd. unfold DropMissing64.fit, DropMissing64.init.
  cbn [DropMissing64.threshold].
  set (missing :=
         (λ nc : string * pd.column, (nc.1, pd.isna_mean64 nc.2)) <$> X).
  set (labels := (filter (λ nf : string * float,
                            (th <? nf.2)%float = true) missing).*1).
  assert (∀ n, n ∈ labels ↔ ∃ c, (n, c) ∈ X ∧ spec_exceeds th c) as Hlabels.
  { intros n. unfold labels, missing, spec_exceeds.
    rewrite list_elem_of_fmap. split.
    - intros ([n' f] & -> & Hin). apply list_elem_of_filter in Hin as [Hf Hin].
      apply list_elem_of_fmap in Hin as ([n c] & [= -> ->] & Hin).
      exists c. split; [done|]. by rewrite spec_missing_fraction_mean.
    - intros (c & Hin & Hc). exists (n, pd.isna_mean64 c). split; [done|].
      apply list_elem_of_filter.
      split; [by rewrite <-spec_missing_fraction_mean|].
      apply list_elem_of_fmap. by exists (n, c). }
  assert (filter (λ nc : string * pd.column, nc.1 ∉ labels) X
          = filter (λ nc, ¬ spec_exceeds th nc.2) X) as Hfilter.
  { apply filter_ext_elem_of. intros [n c] Hin. cbn. rewrite Hlabels.
    split.
    - intros Hno Hc. apply Hno. by exists c.
    - intros Hno (c' & Hin' & Hc').
      by rewrite (NoDup_fst_unique X n c c') in Hno. }
  eexists _, labels, (filter (λ nc, ¬ spec_exceeds th nc.2) X).
  split_and!; [done|done| |done|done| |].
  - unfold DropMissing64.transform, pd.drop.
    cbn [DropMissing64.cols_to_drop].
    rewrite (proj2 (list_find_None _ labels)); [by rewrite Hfilter|].
    apply Forall_forall. intros n Hn Hnot. apply Hnot.
    apply Hlabels in Hn as (c & Hin & _).
    apply list_elem_of_fmap. by exists (n, c).
  - intros n c Hin. rewrite list_elem_of_filter. cbn. tauto.
  - intros n Hn Hin. apply list_elem_of_fmap in Hin as ([n' c] & -> & Hin).
    apply list_elem_of_filter in Hin as [Hc Hin]. cbn in *.
    apply Hlabels in Hn as (c' & Hin' & Hc').
    by rewrite (NoDup_fst_unique X n' c c') in Hc.
Qed.

Lemma dropmissing_drops_exactly_exceeding_witness :
  let X := [("a"%string, pd.FloatCol [Some 1%Q; None; None]);
            ("b"%string, pd.ObjCol [Some "x"%string; Some "y"%string; None]);
            ("c"%string, pd.FloatCol [Some 1%Q; Some 2%Q; Some 3%Q])] in
  NoDup X.*1 ∧
  ∃ self labels X',
    DropMissing64.fit (DropMissing64.init (Some 0.5%float)) X = Ok self ∧
    DropMissing64.cols_to_drop self = Some labels ∧
    DropMissing64.transform self X = Ok X' ∧
    (∀ n, n ∈ labels ↔ ∃ c, (n, c) ∈ X ∧ spec_exceeds 0.5 c) ∧
    X' = filter (λ nc, ¬ spec_exceeds 0.5 nc.2) X ∧
    (∀ n c, (n, c) ∈ X → ((n, c) ∈ X' ↔ ¬ spec_exceeds 0.5 c)) ∧
    (∀ n, n ∈ labels → n ∉ X'.*1).
Proof.
  intros X.
  assert (NoDup X.*1) as Hnd.
  { apply (bool_decide_unpack _). vm_compute. exact I. }
  split; [exact Hnd|].
  apply (dropmissing_drops_exactly_exceeding X 0.5 Hnd).
Defined.


(** * The store of DataFrame objects

    A [DataFrame] is a mutable object: the store maps the identity of each
    one to its current columns.  A computation threads the store and may
    raise; the store keeps what was written before the exception. *)

Module heap.

Definition loc : Type := positive.
Abbreviation store := (gmap positive pd.table).

Definition M (A : Type) : Type := store → result A * store.

Global Instance M_ret : MRet M := λ A a h, (Ok a, h).
Global Instance M_bind : MBind M := λ A B k m h,
  match m h with
  | (Ok a, h') => k a h'
  | (Err e, h') => (Err e, h')
  end.

Definition raise {A} (e : exn) : M A := λ h, (Err e, h).

Definition lift {A} (r : result A) : M A := λ h, (r, h).

(** A new object. *)
Definition alloc (X : pd.table) : M loc := λ h,
  let l := fresh (dom h) in (Ok l, <[l := X]> h).

(** The columns of an object.  [NoSuchObject] is not a Python exception:
    it is the model's answer for an identity outside the store, which no
    Python program holds. *)
Definition NoSuchObject : exn := ValueError "no such object".

Definition load (l : loc) : M pd.table := λ h,
  match h !! l with
  | Some X => (Ok X, h)
  | None => (Err NoSuchObject, h)
  end.

Definition store_at (l : loc) (X : pd.table) : M () := λ h,
  (Ok (), <[l := X]> h).

(** [for x in l: f(x)]. *)
Fixpoint for_each {A} (f : A → M ()) (l : list A) : M () :=
  match l with
  | [] => mret ()
  | x :: l' => _ ← f x; for_each f l'
  end.

(** [pd.DataFrame(X)] on a [DataFrame]: no copy is made, the result shares
    the data of [X]; here it is the same object. *)
Definition DataFrame (X : loc) : M loc := mret X.

(** [X.copy()]: a new object with the same columns. *)
Definition copy (X : loc) : M loc := Xv ← load X; alloc Xv.

(** [X[column]]. *)
Definition getitem (X : loc) (column : string) : M pd.column :=
  Xv ← load X;
  match pd.get_col column Xv with
  | Some c => mret c
  | None => raise (KeyError column)
  end.

(** [X[column] = c]: mutates the object. *)
Definition setitem (X : loc) (column : string) (c : pd.column) : M () :=
  Xv ← load X;
  store_at X (pd.set_col column c Xv).

End heap.

(** * Winsorizer *)

Global Instance Qle_decision (x y : Q) : Decision (x <= y)%Q.
Proof.
  refine (cast_if (decide (Qle_bool x y = true))); by rewrite <-Qle_bool_iff.
Defined.

Module quantile.

(** The values that are not NaN, in ascending order. *)
Definition sorted_values (cells : list (option Q)) : list Q :=
  merge_sort Qle (omap id cells).

(** Linear interpolation at position [q * (n - 1)] of [n] sorted values;
    NaN when there is no value. *)
Definition at_fraction (q : Q) (vals : list Q) : option Q :=
  match vals with
  | [] => None
  | v0 :: _ =>
      let pos := (q * inject_Z (Z.of_nat (length vals - 1)))%Q in
      let i := Z.to_nat (Qfloor pos) in
      let frac := (pos - inject_Z (Qfloor pos))%Q in
      let lo := nth i vals v0 in
      let hi := nth (i + 1) vals lo in
      Some (lo + (hi - lo) * frac)%Q
  end.

Definition valid (q : Q) : bool := Qle_bool 0 q && Qle_bool q 1.

(** [Series.quantile((q_low, q_high))]: both fractions are validated, then
    both quantiles computed, NaN skipped. *)
Definition quantile2 (qs : Q * Q) (cells : list (option Q))
  : result (option Q * option Q) :=
  if valid qs.1 && valid qs.2 then
    let vals := sorted_values cells in
    Ok (at_fraction qs.1 vals, at_fraction qs.2 vals)
  else
    Err (ValueError "percentiles should all be in the interval [0, 1]").

End quantile.

Module Winsorizer.

Inductive limits_t : Type :=
  | LimitsNone
  | LimitsFloat (f : Q)
  | LimitsPair (low high : Q).

Record t : Type := Make {
  limits : limits_t;
  columns_ : option (list string);
  threshold_dict_ : option (list (string * (option Q * option Q)))
}.

(** Lines 125-126. *)
Definition init (limits : limits_t) : t := Make limits None None.

(** Lines 130-133. *)
Definition resolve_limits (l : limits_t) : Q * Q :=
  match l with
  | LimitsNone => (1 # 100, 99 # 100)%Q
  | LimitsFloat f => (f, 1 - f)%Q
  | LimitsPair low high => (low, high)
  end.

(** Lines 139-140: [low, high = X[column].quantile(self.limits)] and the
    dictionary entry of the column. *)
Definition fit_column (limits : Q * Q) (Xv : pd.table) (column : string)
  : result (string * (option Q * option Q)) :=
  match pd.get_col column Xv with
  | Some c =>
      match pd.as_floats c with
      | Some vals =>
          lh ← quantile.quantile2 limits vals;
          Ok (column, lh)
      | None =>
          Err (TypeError "unsupported operand type(s) for -: 'str' and 'str'")
      end
  | None => Err (KeyError column)
  end.

(** Lines 128-145.  The fitted transformer is returned; the dictionary
    keeps the columns in the order of their insertion. *)
Definition fit (self : t) (X : heap.loc) : heap.M t :=
  X ← heap.DataFrame X;
  let limits := resolve_limits (limits self) in
  Xv ← heap.load X;
  let columns := (filter (λ nc, pd.is_numeric_dtype nc.2 = true) Xv).*1 in
  threshold_dict ← heap.lift (mapM (fit_column limits Xv) columns);
  mret (Make (LimitsPair limits.1 limits.2) (Some columns) (Some threshold_dict)).

(** What [trim] is called on: an element of an int64 column, or a float,
    [None] being NaN ([x: Union[float, int]] at line 151). *)
Inductive scalar : Type :=
  | SInt (z : Z)
  | SFloat (x : option Q).

Definition to_float (s : scalar) : option Q :=
  match s with
  | SInt z => Some (inject_Z z)
  | SFloat x => x
  end.

(** Lines 151-157.  The result is [x], [low] or [high] itself, with the
    type it has. *)
Definition trim (x low high : scalar) : scalar :=
  if bool_decide (to_float x = None) then x
  else
    let x := if pd.flt (to_float x) (to_float low) then low else x in
    let x := if pd.flt (to_float high) (to_float x) then high else x in
    x.

(** Conversion of a result to int64: truncation, and no NaN. *)
Definition to_int (s : scalar) : result Z :=
  match s with
  | SInt z => Ok z
  | SFloat (Some x) => Ok (py_int x)
  | SFloat None => Err (ValueError "cannot convert float NaN to integer")
  end.

(** [np.vectorize] without [otypes]: the dtype of the output array is that
    of the result for the first element, and every result is converted to
    it.  Without a first element it raises. *)
Definition vectorize_out (outs : list scalar) : result pd.column :=
  match outs with
  | [] =>
      Err (ValueError
             "cannot call `vectorize` on size 0 inputs unless `otypes` is set")
  | SInt _ :: _ => zs ← mapM to_int outs; Ok (pd.IntCol zs)
  | SFloat _ :: _ => Ok (pd.FloatCol (to_float <$> outs))
  end.

(** Line 158 applied at line 161: [np.vectorize(trim)] on a column and two
    floats.  On strings the comparison of line 155 raises. *)
Definition trim_vec (c : pd.column) (low high : option Q) : result pd.column :=
  match c with
  | pd.FloatCol cells =>
      vectorize_out ((λ x, trim (SFloat x) (SFloat low) (SFloat high)) <$> cells)
  | pd.IntCol cells =>
      vectorize_out ((λ z, trim (SInt z) (SFloat low) (SFloat high)) <$> cells)
  | pd.ObjCol cells =>
      if decide (cells = []) then
        Err (ValueError
               "cannot call `vectorize` on size 0 inputs unless `otypes` is set")
      else if forallb (λ x, bool_decide (x = None)) cells then Ok c
      else
        Err (TypeError
               "'<' not supported between instances of 'str' and 'float'")
  end.

(** Line 161: [X_t[column] = trim_vec(X_t[column], *tup)]. *)
Definition trim_item (X_t : heap.loc) (item : string * (option Q * option Q))
  : heap.M () :=
  c ← heap.getitem X_t item.1;
  c' ← heap.lift (trim_vec c item.2.1 item.2.2);
  heap.setitem X_t item.1 c'.

(** Lines 147-163. *)
Definition transform (self : t) (X : heap.loc) : heap.M heap.loc :=
  X ← heap.DataFrame X;
  X_t ← heap.copy X;
  threshold_dict ←
    match threshold_dict_ self with
    | Some d => mret d
    | None =>
        heap.raise
          (AttributeError "'Winsorizer' object has no attribute 'threshold_dict_'")
    end;
  _ ← heap.for_each (trim_item X_t) threshold_dict;
  mret X_t.

End Winsorizer.


(** ** Columns of a table *)

Section tables.
Implicit Types (X T : pd.table) (c : pd.column) (n name : string).

Lemma get_col_Some_elem_of name c X :
  pd.get_col name X = Some c → (name, c) ∈ X.
Proof.
  induction X as [|[n c'] X IH]; [done|]. cbn [pd.get_col].
  case_decide as E; [intros [= <-]; subst; by left|].
  intros H. right. by apply IH.
Qed.

Lemma get_col_None name X : pd.get_col name X = None ↔ name ∉ X.*1.
Proof.
  induction X as [|[n c'] X IH]; csimpl.
  { split; [intros _ H; inv H|done]. }
  rewrite not_elem_of_cons. case_decide as E.
  - split; [done|]. intros [Hne _]. by destruct Hne.
  - rewrite IH. split; [by split|by intros [_ ?]].
Qed.

Lemma elem_of_get_col name c X :
  NoDup X.*1 → (name, c) ∈ X → pd.get_col name X = Some c.
Proof.
  intros Hnd Hin. destruct (pd.get_col name X) as [c'|] eqn:E.
  - apply get_col_Some_elem_of in E. by rewrite (NoDup_fst_unique X name c c').
  - apply get_col_None in E. destruct E. apply list_elem_of_fmap.
    by exists (name, c).
Qed.

Lemma get_col_set_col_eq name c X :
  pd.get_col name (pd.set_col name c X) = Some c.
Proof.
  induction X as [|[n c'] X IH]; cbn [pd.set_col pd.get_col].
  { by rewrite decide_True. }
  case_decide as E; cbn [pd.get_col].
  - by rewrite decide_True.
  - by rewrite decide_False.
Qed.

Lemma get_col_set_col_ne name name' c X :
  name ≠ name' → pd.get_col name' (pd.set_col name c X) = pd.get_col name' X.
Proof.
  intros Hne. induction X as [|[n c'] X IH]; cbn [pd.set_col pd.get_col].
  { by rewrite decide_False. }
  case_decide as E; cbn [pd.get_col]; [subst; by rewrite !decide_False|].
  by rewrite IH.
Qed.

Lemma set_col_names name c c' X :
  pd.get_col name X = Some c' → (pd.set_col name c X).*1 = X.*1.
Proof.
  induction X as [|[n c''] X IH]; [done|]. cbn [pd.get_col pd.set_col].
  case_decide as E; csimpl; [done|]. intros H. by rewrite IH.
Qed.
End tables.

(** ** The loop of [transform], on the columns *)

Definition trim_column (item : string * (option Q * option Q)) (T : pd.table)
  : result pd.table :=
  match pd.get_col item.1 T with
  | None => Err (KeyError item.1)
  | Some c =>
      c' ← Winsorizer.trim_vec c item.2.1 item.2.2;
      Ok (pd.set_col item.1 c' T)
  end.

Fixpoint trim_columns (td : list (string * (option Q * option Q)))
    (T : pd.table) : result pd.table :=
  match td with
  | [] => Ok T
  | item :: td' => T' ← trim_column item T; trim_columns td' T'
  end.

Lemma trim_item_run (X_t : heap.loc) (item : string * (option Q * option Q))
    (h : heap.store) (T : pd.table) :
  h !! X_t = Some T →
  Winsorizer.trim_item X_t item h
  = match trim_column item T with
    | Ok T1 => (Ok (), <[X_t := T1]> h)
    | Err e => (Err e, h)
    end.
Proof.
  intros HT.
  unfold Winsorizer.trim_item, heap.getitem, heap.setitem, heap.load,
    heap.store_at, heap.lift, heap.raise, trim_column.
  unfold mbind, mret, heap.M_bind, heap.M_ret, result_bind. rewrite HT.
  destruct (pd.get_col item.1 T) as [c|]; [|done].
  destruct (Winsorizer.trim_vec c item.2.1 item.2.2) as [c'|e]; [|done].
  by rewrite HT.
Qed.

Lemma for_each_cons {A} (f : A → heap.M ()) (x : A) (l : list A)
    (h : heap.store) :
  heap.for_each f (x :: l) h
  = match f x h with
    | (Ok _, h') => heap.for_each f l h'
    | (Err e, h') => (Err e, h')
    end.
Proof. done. Qed.

(** The loop writes to the object [X_t] only, and on success leaves in it
    what [trim_columns] computes. *)
Lemma for_each_trim_item (X_t : heap.loc)
    (td : list (string * (option Q * option Q)))
    (h : heap.store) (T : pd.table) :
  h !! X_t = Some T →
  ∃ T', (heap.for_each (Winsorizer.trim_item X_t) td h).2 = <[X_t := T']> h ∧
        match (heap.for_each (Winsorizer.trim_item X_t) td h).1 with
        | Ok _ => trim_columns td T = Ok T'
        | Err e => trim_columns td T = Err e
        end.
Proof.
  revert h T. induction td as [|item td IH]; intros h T HT.
  { exists T. split; [symmetry; by apply insert_id|done]. }
  rewrite for_each_cons, (trim_item_run _ _ _ T HT). cbn [trim_columns].
  destruct (trim_column item T) as [T1|e]; cbn [mbind result_bind].
  - destruct (IH (<[X_t := T1]> h) T1) as (T' & Hh & Hr);
      [by rewrite lookup_insert_eq|].
    exists T'. by rewrite insert_insert_eq in Hh.
  - exists T. split; [symmetry; by apply insert_id|done].
Qed.

Section trim_columns.
Implicit Types (td : list (string * (option Q * option Q))) (T : pd.table).

Lemma trim_column_names item T T' :
  trim_column item T = Ok T' → T'.*1 = T.*1.
Proof.
  unfold trim_column. destruct (pd.get_col item.1 T) as [c|] eqn:E; [|done].
  intros (c' & _ & [= <-])%bind_Ok. by eapply set_col_names.
Qed.

Lemma trim_column_other item T T' name :
  trim_column item T = Ok T' → name ≠ item.1 →
  pd.get_col name T' = pd.get_col name T.
Proof.
  unfold trim_column. destruct (pd.get_col item.1 T) as [c|] eqn:E; [|done].
  intros (c' & _ & [= <-])%bind_Ok Hne. by apply get_col_set_col_ne.
Qed.

Lemma trim_columns_names td T T' :
  trim_columns td T = Ok T' → T'.*1 = T.*1.
Proof.
  revert T. induction td as [|item td IH]; intros T; cbn [trim_columns].
  { by intros [= <-]. }
  intros (T1 & H1 & H2)%bind_Ok.
  rewrite (IH _ H2). by eapply trim_column_names.
Qed.

Lemma trim_columns_other td T T' name :
  trim_columns td T = Ok T' → name ∉ td.*1 →
  pd.get_col name T' = pd.get_col name T.
Proof.
  revert T. induction td as [|item td IH]; intros T; cbn [trim_columns].
  { by intros [= <-]. }
  intros (T1 & H1 & H2)%bind_Ok Hnot. csimpl in Hnot.
  apply not_elem_of_cons in Hnot as [Hne Hnot].
  rewrite (IH _ H2 Hnot). by eapply trim_column_other.
Qed.

Lemma trim_columns_configured td T T' name low high :
  trim_columns td T = Ok T' → NoDup td.*1 → (name, (low, high)) ∈ td →
  ∃ c c', pd.get_col name T = Some c ∧
          Winsorizer.trim_vec c low high = Ok c' ∧
          pd.get_col name T' = Some c'.
Proof.
  revert T. induction td as [|item td IH]; intros T; cbn [trim_columns].
  { intros _ _ Hin. by inv Hin. }
  intros (T1 & H1 & H2)%bind_Ok Hnd Hin. csimpl in Hnd.
  apply NoDup_cons in Hnd as [Hnotin Hnd].
  apply elem_of_cons in Hin as [<-|Hin].
  - cbn in Hnotin. rewrite (trim_columns_other _ _ _ _ H2 Hnotin).
    revert H1. unfold trim_column. cbn [fst snd].
    destruct (pd.get_col name T) as [c|]; [|done].
    intros (c' & Hc' & [= <-])%bind_Ok. exists c, c'.
    by rewrite get_col_set_col_eq.
  - destruct (IH T1 H2 Hnd Hin) as (c & c' & Hc & Hc' & HT').
    exists c, c'. split_and!; [|done|done].
    rewrite <-Hc. symmetry. eapply trim_column_other; [done|].
    intros ->. apply Hnotin. apply list_elem_of_fmap.
    by exists (item.1, (low, high)).
Qed.
End trim_columns.

(** ** Claims about [Winsorizer.transform] *)

Lemma bind_run {A B} (m : heap.M A) (k : A → heap.M B) (h : heap.store) :
  (m ≫= k) h
  = match m h with
    | (Ok a, h') => k a h'
    | (Err e, h') => (Err e, h')
    end.
Proof. done. Qed.

Lemma bind_run_Ok {A B} (m : heap.M A) (k : A → heap.M B)
    (h h' : heap.store) (a : A) :
  m h = (Ok a, h') → (m ≫= k) h = k a h'.
Proof. intros H. by rewrite bind_run, H. Qed.

Lemma bind_run_Err {A B} (m : heap.M A) (k : A → heap.M B)
    (h h' : heap.store) (e : exn) :
  m h = (Err e, h') → (m ≫= k) h = (Err e, h').
Proof. intros H. by rewrite bind_run, H. Qed.

Lemma copy_run (X : heap.loc) (h : heap.store) (Xv : pd.table) :
  h !! X = Some Xv →
  heap.copy X h = (Ok (fresh (dom h)), <[fresh (dom h) := Xv]> h).
Proof.
  intros HX. unfold heap.copy. rewrite bind_run. unfold heap.load.
  by rewrite HX.
Qed.

(** A run of [transform] on a live object allocates one new object and
    writes to nothing else; on success the new object holds what
    [trim_columns] computes from the columns of the input. *)
Lemma transform_run (self : Winsorizer.t) (X : heap.loc)
    (h : heap.store) (Xv : pd.table) :
  h !! X = Some Xv →
  ∃ r T',
    Winsorizer.transform self X h = (r, <[fresh (dom h) := T']> h) ∧
    match r with
    | Ok X_t =>
        X_t = fresh (dom h) ∧
        ∃ td, Winsorizer.threshold_dict_ self = Some td
              ∧ trim_columns td Xv = Ok T'
    | Err e =>
        ∀ td, Winsorizer.threshold_dict_ self = Some td →
              trim_columns td Xv = Err e
    end.
Proof.
  intros HX. unfold Winsorizer.transform.
  rewrite bind_run. unfold heap.DataFrame at 1.
  unfold mret at 1, heap.M_ret at 1. cbv iota.
  rewrite bind_run, (copy_run X h Xv HX).
  set (X_t := fresh (dom h)). rewrite bind_run.
  destruct (Winsorizer.threshold_dict_ self) as [td|].
  2:{ exists (Err (AttributeError
        "'Winsorizer' object has no attribute 'threshold_dict_'")), Xv.
      split; [reflexivity|done]. }
  unfold mret at 1, heap.M_ret at 1. cbv iota.
  destruct (for_each_trim_item X_t td (<[X_t := Xv]> h) Xv) as (T' & Hh & Hr).
  { by rewrite lookup_insert_eq. }
  rewrite insert_insert_eq in Hh.
  destruct (heap.for_each (Winsorizer.trim_item X_t) td (<[X_t := Xv]> h))
    as [[[]|e] h2] eqn:Hfe; cbn [fst snd] in *; subst h2.
  - exists (Ok X_t), T'. rewrite (bind_run_Ok _ _ _ _ _ Hfe).
    split; [reflexivity|]. split; [done|]. by exists td.
  - exists (Err e), T'. rewrite (bind_run_Err _ _ _ _ _ Hfe).
    split; [reflexivity|]. by intros ? [= <-].
Qed.

(** C10.  [transform] never mutates its input: run on a live object [X] in
    any store, whether it returns or raises, it leaves [X] and every other
    object of the store as they were.  What it returns is a new object, a
    copy; the copy has the columns of [X] under the same names in the same
    order, and every column that is not a key of the fitted dictionary has
    the values it has in [X]. *)
Theorem winsorizer_transform_keeps_input (self : Winsorizer.t)
    (X : heap.loc) (h : heap.store) (Xv : pd.table) :
  h !! X = Some Xv →
  ∃ r h',
    Winsorizer.transform self X h = (r, h') ∧
    h' !! X = Some Xv ∧
    (∀ l, l ∈ dom h → h' !! l = h !! l) ∧
    (∀ X_t, r = Ok X_t →
       (X_t ∉ dom h) ∧
       ∃ td T',
         Winsorizer.threshold_dict_ self = Some td ∧
         h' !! X_t = Some T' ∧ T'.*1 = Xv.*1 ∧
         ∀ column, column ∉ td.*1 →
                   pd.get_col column T' = pd.get_col column Xv).
Proof.
  intros HX. destruct (transform_run self X h Xv HX) as (r & T' & Hrun & Hr).
  pose proof (is_fresh (dom h)) as Hfresh.
  assert (∀ l, l ∈ dom h → <[fresh (dom h) := T']> h !! l = h !! l) as Hframe.
  { intros l Hl. apply lookup_insert_ne. by intros <-. }
  exists r, (<[fresh (dom h) := T']> h). split_and!; [done| |done|].
  - rewrite Hframe; [done|]. apply elem_of_dom. by exists Xv.
  - intros X_t ->. destruct Hr as (-> & td & Htd & Htrim).
    split; [done|]. exists td, T'. split_and!; [done| | |].
    + by rewrite lookup_insert_eq.
    + by eapply trim_columns_names.
    + intros column Hc. by eapply trim_columns_other.
Qed.

Lemma winsorizer_transform_keeps_input_witness :
  let Xv := [("a"%string, pd.FloatCol [Some 1%Q; Some 3%Q; Some 2%Q]);
             ("b"%string, pd.ObjCol [Some "x"%string; None])] in
  let h : heap.store := {[ 1%positive := Xv ]} in
  let self := Winsorizer.Make (Winsorizer.LimitsPair (1 # 10) (9 # 10))
                (Some ["a"%string])
                (Some [("a"%string, (Some (12 # 10)%Q, Some (28 # 10)%Q))]) in
  h !! 1%positive = Some Xv ∧
  ∃ r h',
    Winsorizer.transform self 1%positive h = (r, h') ∧
    h' !! 1%positive = Some Xv ∧
    (∀ l, l ∈ dom h → h' !! l = h !! l) ∧
    (∀ X_t, r = Ok X_t →
       (X_t ∉ dom h) ∧
       ∃ td T',
         Winsorizer.threshold_dict_ self = Some td ∧
         h' !! X_t = Some T' ∧ T'.*1 = Xv.*1 ∧
         ∀ column, column ∉ td.*1 →
                   pd.get_col column T' = pd.get_col column Xv).
Proof.
  intros Xv h self.
  assert (h !! 1%positive = Some Xv) as HX by reflexivity.
  split; [exact HX|].
  apply (winsorizer_transform_keeps_input self 1%positive h Xv HX).
Defined.


(** ** Quantiles are monotone *)

Global Instance Qle_total : Total Qle.
Proof. intros x y. destruct (Qlt_le_dec x y); [left|right]; lra. Qed.

Global Instance Qle_trans_instance : Transitive Qle.
Proof. intros x y z. apply Qle_trans. Qed.

Lemma sorted_values_Sorted (cells : list (option Q)) :
  Sorted Qle (quantile.sorted_values cells).
Proof. apply Sorted_merge_sort, _. Qed.

Lemma sorted_values_nil (cells : list (option Q)) :
  quantile.sorted_values cells = [] → Forall (λ x, x = None) cells.
Proof.
  unfold quantile.sorted_values. intros H.
  assert (omap id cells = []) as Hom.
  { apply Permutation_nil_r. rewrite <-H. by rewrite merge_sort_Permutation. }
  clear H. induction cells as [|[v|] cells IH]; [done|done|].
  constructor; [done|]. by apply IH.
Qed.

Lemma Sorted_nth_le (l : list Q) (i j : nat) (d1 d2 : Q) :
  Sorted Qle l → (i ≤ j)%nat → (j < length l)%nat →
  (nth i l d1 <= nth j l d2)%Q.
Proof.
  intros Hs%Sorted_StronglySorted; [|apply _]. revert i j.
  induction Hs as [|x l Hs IH Hall]; intros i j Hij Hj; [simpl in Hj; lia|].
  destruct i as [|i], j as [|j]; cbn [nth]; [lra| |lia|].
  - rewrite Forall_forall in Hall. apply Hall.
    rewrite list_elem_of_In. apply nth_In. simpl in Hj. lia.
  - apply IH; simpl in Hj; lia.
Qed.

(** The interpolation of [at_fraction], with its position, and the two
    neighbours it interpolates between. *)
Definition position (vals : list Q) (q : Q) : Q :=
  (q * inject_Z (Z.of_nat (length vals - 1)))%Q.
Definition lower (vals : list Q) (q : Q) : Q :=
  nth (Z.to_nat (Qfloor (position vals q))) vals (hd 0%Q vals).
Definition upper (vals : list Q) (q : Q) : Q :=
  nth (Z.to_nat (Qfloor (position vals q)) + 1) vals (lower vals q).

Lemma at_fraction_eq (vals : list Q) (q : Q) :
  vals ≠ [] →
  quantile.at_fraction q vals
  = Some (lower vals q + (upper vals q - lower vals q)
                    * (position vals q - inject_Z (Qfloor (position vals q))))%Q.
Proof.
  intros Hne. unfold lower, upper, position. by destruct vals.
Qed.

Lemma position_bounds (vals : list Q) (q : Q) :
  vals ≠ [] →
  (0 <= q)%Q → (q <= 1)%Q →
  (0 ≤ Qfloor (position vals q))%Z ∧
  (Z.to_nat (Qfloor (position vals q)) < length vals)%nat ∧
  (inject_Z (Qfloor (position vals q)) <= position vals q)%Q ∧
  (position vals q < inject_Z (Qfloor (position vals q)) + 1)%Q.
Proof.
  intros vals_nonempty Hq0 Hq1. set (m := Z.of_nat (length vals - 1)).
  assert (0 <= inject_Z m)%Q as Hm.
  { apply inject_Z_nonneg. unfold m. lia. }
  assert (0 <= position vals q)%Q as Hpos0
    by (unfold position; fold m; nra).
  assert (position vals q <= inject_Z m)%Q as Hposm
    by (unfold position; fold m; nra).
  assert (0 ≤ Qfloor (position vals q))%Z as Hfl0.
  { change 0%Z with (Qfloor 0). by apply Qfloor_resp_le. }
  assert (Qfloor (position vals q) ≤ m)%Z as Hflm.
  { rewrite <-(Qfloor_Z m). by apply Qfloor_resp_le. }
  pose proof (Qlt_floor (position vals q)) as Hfu.
  rewrite inject_Z_plus in Hfu. change (inject_Z 1) with 1%Q in Hfu.
  split_and!; [done| |apply Qfloor_le|done].
  assert (0 < length vals)%nat by (destruct vals; [done|simpl; lia]).
  unfold m in Hflm. lia.
Qed.

Lemma lower_le_upper (vals : list Q) (q : Q) :
  Sorted Qle vals → vals ≠ [] →
  (0 <= q)%Q → (q <= 1)%Q → (lower vals q <= upper vals q)%Q.
Proof.
  intros vals_sorted vals_nonempty Hq0 Hq1.
  destruct (position_bounds vals q) as (_ & Hi & _); [done..|].
  unfold upper.
  destruct (decide (Z.to_nat (Qfloor (position vals q)) + 1 < length vals)%nat).
  - unfold lower at 1. apply Sorted_nth_le; [done|lia|done].
  - rewrite nth_overflow by lia. lra.
Qed.

(** For fractions [0 <= q1 <= q2 <= 1] the quantile at [q1] does not exceed
    the quantile at [q2]. *)
Lemma at_fraction_mono (vals : list Q) (q1 q2 : Q) :
  Sorted Qle vals → vals ≠ [] →
  (0 <= q1)%Q → (q1 <= q2)%Q → (q2 <= 1)%Q →
  ∃ low high,
    quantile.at_fraction q1 vals = Some low ∧
    quantile.at_fraction q2 vals = Some high ∧ (low <= high)%Q.
Proof.
  intros vals_sorted vals_nonempty H0 H12 H1.
  rewrite !at_fraction_eq by done. eexists _, _.
  split_and!; [done|done|].
  destruct (position_bounds vals q1) as (Hf1 & Hi1 & Hl1 & Hu1); [done|lra..|].
  destruct (position_bounds vals q2) as (Hf2 & Hi2 & Hl2 & Hu2); [done|lra..|].
  pose proof (lower_le_upper vals q1 vals_sorted vals_nonempty) as Hd1.
  pose proof (lower_le_upper vals q2 vals_sorted vals_nonempty) as Hd2.
  assert (position vals q1 <= position vals q2)%Q as Hpos.
  { unfold position.
    assert (0 <= inject_Z (Z.of_nat (length vals - 1)))%Q
      by (apply inject_Z_nonneg; lia).
    nra. }
  assert (Qfloor (position vals q1) ≤ Qfloor (position vals q2))%Z as Hfl
    by (by apply Qfloor_resp_le).
  destruct (decide (Qfloor (position vals q1) = Qfloor (position vals q2)))
    as [E|Hne].
  - assert (lower vals q1 = lower vals q2) as El
      by (unfold lower; by rewrite E).
    assert (upper vals q1 = upper vals q2) as Eu
      by (unfold upper; by rewrite E, El).
    rewrite El, Eu, E in *. nra.
  - assert (upper vals q1 <= lower vals q2)%Q as Hmid.
    { unfold upper, lower.
      apply Sorted_nth_le; [done|lia|done]. }
    assert (lower vals q1 + (upper vals q1 - lower vals q1)
              * (position vals q1 - inject_Z (Qfloor (position vals q1)))
            <= upper vals q1)%Q
      by nra.
    assert (lower vals q2 <= lower vals q2 + (upper vals q2 - lower vals q2)
              * (position vals q2 - inject_Z (Qfloor (position vals q2))))%Q
      by nra.
    lra.
Qed.

(** ** Clipping *)

(** What [trim] owes a cell: a missing entry stays missing, a value ends
    within the bounds. *)
Definition clipped (low high : option Q) (x x' : option Q) : Prop :=
  match x with
  | None => x' = None
  | Some _ =>
      ∃ v lo hi, x' = Some v ∧ low = Some lo ∧ high = Some hi
                 ∧ (lo <= v)%Q ∧ (v <= hi)%Q
  end.

(** The results of [trim] over a column, before [np.vectorize] converts
    them. *)
Definition trim_floats (cells : list (option Q)) (low high : option Q)
  : list Winsorizer.scalar :=
  (λ x, Winsorizer.trim (Winsorizer.SFloat x)
          (Winsorizer.SFloat low) (Winsorizer.SFloat high)) <$> cells.

Definition trim_ints (cells : list Z) (low high : option Q)
  : list Winsorizer.scalar :=
  (λ z, Winsorizer.trim (Winsorizer.SInt z)
          (Winsorizer.SFloat low) (Winsorizer.SFloat high)) <$> cells.

Lemma trim_clipped (x : Winsorizer.scalar) (lo hi : Q) :
  (lo <= hi)%Q →
  clipped (Some lo) (Some hi) (Winsorizer.to_float x)
    (Winsorizer.to_float
       (Winsorizer.trim x (Winsorizer.SFloat (Some lo))
          (Winsorizer.SFloat (Some hi)))).
Proof.
  intros Hle. unfold Winsorizer.trim.
  destruct (Winsorizer.to_float x) as [v|] eqn:Ev.
  2:{ rewrite bool_decide_eq_true_2 by done. by rewrite Ev. }
  rewrite bool_decide_eq_false_2 by done. cbn [Winsorizer.to_float pd.flt].
  destruct (Qlt_bool v lo) eqn:E1; cbn [Winsorizer.to_float pd.flt].
  - assert (Qlt_bool hi lo = false) as ->.
    { apply not_true_iff_false. rewrite Qlt_bool_iff. intros H. lra. }
    exists lo, lo, hi. split_and!; (done || lra).
  - apply not_true_iff_false in E1. rewrite Qlt_bool_iff in E1.
    rewrite Ev. cbn [pd.flt]. destruct (Qlt_bool hi v) eqn:E2.
    + exists hi, lo, hi. split_and!; (done || lra).
    + apply not_true_iff_false in E2. rewrite Qlt_bool_iff in E2.
      rewrite Ev. exists v, lo, hi.
      split_and!; [done..| |]; apply Qnot_lt_le; done.
Qed.

Lemma trim_missing (low high : option Q) :
  Winsorizer.trim (Winsorizer.SFloat None)
    (Winsorizer.SFloat low) (Winsorizer.SFloat high)
  = Winsorizer.SFloat None.
Proof. done. Qed.

(** On a float [trim] returns a float. *)
Lemma trim_float (x low high : option Q) :
  ∃ y, Winsorizer.trim (Winsorizer.SFloat x)
         (Winsorizer.SFloat low) (Winsorizer.SFloat high)
       = Winsorizer.SFloat y.
Proof. unfold Winsorizer.trim. repeat case_match; eauto. Qed.

(** On an integer [trim] returns the integer itself or one of the two
    bounds, which then is not NaN: the conversion to int64 succeeds. *)
Lemma trim_int (z : Z) (low high : option Q) :
  ∃ z', Winsorizer.to_int
          (Winsorizer.trim (Winsorizer.SInt z)
             (Winsorizer.SFloat low) (Winsorizer.SFloat high))
        = Ok z'.
Proof.
  unfold Winsorizer.trim. cbn [Winsorizer.to_float].
  rewrite bool_decide_eq_false_2 by done.
  destruct low as [lo|], high as [hi|]; cbn [pd.flt Winsorizer.to_float];
    repeat (case_match; cbn [pd.flt Winsorizer.to_float Winsorizer.to_int]);
    eauto.
Qed.

Lemma py_int_inject_Z (z : Z) : py_int (inject_Z z) = z.
Proof. unfold py_int. simpl. apply Z.quot_1_r. Qed.

(** The integer that [to_int] yields is the truncation of the float
    value of the result. *)
Lemma to_int_py_int (s : Winsorizer.scalar) (z : Z) :
  Winsorizer.to_int s = Ok z →
  ∃ v, Winsorizer.to_float s = Some v ∧ z = py_int v.
Proof.
  destruct s as [z0|[v|]]; cbn; intros [= <-].
  - exists (inject_Z z0). by rewrite py_int_inject_Z.
  - by exists v.
Qed.

Lemma trim_vec_float (cells : list (option Q)) (low high : option Q) :
  cells ≠ [] →
  Winsorizer.trim_vec (pd.FloatCol cells) low high
  = Ok (pd.FloatCol (Winsorizer.to_float <$> trim_floats cells low high)).
Proof.
  destruct cells as [|x cells]; [done|]. intros _.
  unfold Winsorizer.trim_vec. fold (trim_floats (x :: cells) low high).
  unfold Winsorizer.vectorize_out, trim_floats. cbn [fmap list_fmap].
  by destruct (trim_float x low high) as [y ->].
Qed.

Lemma trim_vec_float_inv (cells : list (option Q)) (low high : option Q)
    (c' : pd.column) :
  Winsorizer.trim_vec (pd.FloatCol cells) low high = Ok c' →
  c' = pd.FloatCol (Winsorizer.to_float <$> trim_floats cells low high).
Proof.
  destruct cells as [|x cells]; [done|].
  rewrite trim_vec_float by done. by intros [= <-].
Qed.

Lemma mapM_to_int (outs : list Winsorizer.scalar) :
  Forall (λ o, ∃ z, Winsorizer.to_int o = Ok z) outs →
  ∃ zs, mapM Winsorizer.to_int outs = Ok zs.
Proof.
  induction 1 as [|o outs [z Hz] _ [zs IH]]; [by exists []|].
  exists (z :: zs). by rewrite mapM_result_cons, Hz, IH.
Qed.

(** An integer column comes out as a float column or as an integer
    column, after the first result; in the second case the other results
    are truncated. *)
Lemma trim_vec_int_inv (cells : list Z) (low high : option Q)
    (c' : pd.column) :
  Winsorizer.trim_vec (pd.IntCol cells) low high = Ok c' →
  c' = pd.FloatCol (Winsorizer.to_float <$> trim_ints cells low high)
  ∨ ∃ zs, c' = pd.IntCol zs
          ∧ Forall2 (λ o z, Winsorizer.to_int o = Ok z)
              (trim_ints cells low high) zs.
Proof.
  unfold Winsorizer.trim_vec. fold (trim_ints cells low high).
  destruct (trim_ints cells low high) as [|[z0|y0] outs] eqn:E; [done| |].
  - cbn [Winsorizer.vectorize_out].
    intros (zs & Hzs & [= <-])%bind_Ok. right. exists zs. split; [done|].
    by apply mapM_Ok_Forall2.
  - cbn [Winsorizer.vectorize_out]. intros [= <-]. by left.
Qed.

Lemma trim_vec_returns (c : pd.column) (low high : option Q) :
  pd.is_numeric_dtype c = true → pd.size c ≠ 0%nat →
  ∃ c', Winsorizer.trim_vec c low high = Ok c'.
Proof.
  destruct c as [cells|cells|cells]; [| |done]; intros _ Hsize.
  - rewrite trim_vec_float; [by eexists|by destruct cells].
  - unfold Winsorizer.trim_vec. fold (trim_ints cells low high).
    destruct (mapM_to_int (trim_ints cells low high)) as [zs Hzs].
    { apply Forall_fmap, Forall_forall. intros z _. apply trim_int. }
    destruct cells as [|z cells]; [done|].
    destruct (trim_ints (z :: cells) low high) as [|[z0|y0] outs] eqn:E;
      [done| |]; cbn [Winsorizer.vectorize_out]; [|by eexists].
    rewrite Hzs. by eexists.
Qed.

(** ** What [fit] stores *)

Definition fitted_bounds (qs : Q * Q) (vals : list (option Q))
  : option Q * option Q :=
  (quantile.at_fraction qs.1 (quantile.sorted_values vals),
   quantile.at_fraction qs.2 (quantile.sorted_values vals)).

Definition fitted_dict (qs : Q * Q) (X : pd.table)
  : list (string * (option Q * option Q)) :=
  omap (λ nc : string * pd.column,
          (λ vals, (nc.1, fitted_bounds qs vals)) <$> pd.as_floats nc.2) X.

Definition numeric_names (X : pd.table) : list string :=
  (filter (λ nc : string * pd.column, pd.is_numeric_dtype nc.2 = true) X).*1.

Lemma as_floats_numeric (c : pd.column) :
  pd.is_numeric_dtype c = true ↔ is_Some (pd.as_floats c).
Proof. destruct c; cbn; split; (done || by intros [? [=]]). Qed.

Lemma fitted_dict_names (qs : Q * Q) (X : pd.table) :
  (fitted_dict qs X).*1 = numeric_names X.
Proof.
  unfold fitted_dict, numeric_names.
  induction X as [|[n [cells|cells|cells]] X IH]; [done| | |].
  - rewrite filter_cons_True by done. csimpl. by rewrite IH.
  - rewrite filter_cons_True by done. csimpl. by rewrite IH.
  - rewrite filter_cons_False by done. by csimpl.
Qed.

Lemma elem_of_fitted_dict (qs : Q * Q) (X : pd.table) n lh :
  (n, lh) ∈ fitted_dict qs X ↔
  ∃ c vals, (n, c) ∈ X ∧ pd.as_floats c = Some vals
            ∧ lh = fitted_bounds qs vals.
Proof.
  unfold fitted_dict. rewrite list_elem_of_omap. split.
  - intros ([n' c] & Hin & H). cbn [fst snd] in H.
    destruct (pd.as_floats c) as [vals|] eqn:E; simplify_eq/=.
    by exists c, vals.
  - intros (c & vals & Hin & E & ->). exists (n, c). split; [done|].
    cbn [fst snd]. by rewrite E.
Qed.

Lemma numeric_names_sublist (X : pd.table) : numeric_names X `sublist_of` X.*1.
Proof. unfold numeric_names. apply fmap_sublist, sublist_filter. Qed.

Lemma elem_of_numeric_names (X : pd.table) (n : string) :
  n ∈ numeric_names X ↔ ∃ c, (n, c) ∈ X ∧ pd.is_numeric_dtype c = true.
Proof.
  unfold numeric_names. rewrite list_elem_of_fmap. split.
  - intros ([n' c] & -> & [Hnum Hin]%list_elem_of_filter). by exists c.
  - intros (c & Hin & Hnum). exists (n, c). split; [done|].
    by apply list_elem_of_filter.
Qed.

Lemma fit_column_numeric (qs : Q * Q) (Xv : pd.table) (n : string)
    (c : pd.column) (vals : list (option Q)) :
  pd.get_col n Xv = Some c → pd.as_floats c = Some vals →
  quantile.valid qs.1 && quantile.valid qs.2 = true →
  Winsorizer.fit_column qs Xv n = Ok (n, fitted_bounds qs vals).
Proof.
  intros Hn Hvals Hvalid. unfold Winsorizer.fit_column, quantile.quantile2.
  by rewrite Hn, Hvals, Hvalid.
Qed.

Lemma numeric_names_cons (n : string) (c : pd.column) (L : pd.table) :
  numeric_names ((n, c) :: L)
  = if pd.is_numeric_dtype c then n :: numeric_names L else numeric_names L.
Proof.
  unfold numeric_names. rewrite filter_cons. cbn [snd].
  by destruct c.
Qed.

Lemma fitted_dict_cons (qs : Q * Q) (n : string) (c : pd.column)
    (L : pd.table) :
  fitted_dict qs ((n, c) :: L)
  = match pd.as_floats c with
    | Some vals => (n, fitted_bounds qs vals) :: fitted_dict qs L
    | None => fitted_dict qs L
    end.
Proof. unfold fitted_dict. cbn [omap list_omap fst snd]. by destruct c. Qed.

Lemma mapM_fit_column (qs : Q * Q) (Xv L : pd.table) :
  quantile.valid qs.1 && quantile.valid qs.2 = true →
  (∀ n c, (n, c) ∈ L → pd.get_col n Xv = Some c) →
  mapM (Winsorizer.fit_column qs Xv) (numeric_names L) = Ok (fitted_dict qs L).
Proof.
  intros Hvalid.
  induction L as [|[n c] L IH]; intros HL; [done|].
  assert (mapM (Winsorizer.fit_column qs Xv) (numeric_names L)
          = Ok (fitted_dict qs L)) as IH'.
  { apply IH. intros n' c' Hin. apply HL. by right. }
  rewrite numeric_names_cons, fitted_dict_cons.
  destruct (pd.as_floats c) as [vals|] eqn:E.
  - rewrite (proj2 (as_floats_numeric c)) by (by rewrite E).
    rewrite mapM_result_cons, (fit_column_numeric qs Xv n c vals);
      [|apply HL; left|done..].
    cbn [mbind result_bind]. by rewrite IH'.
  - destruct (pd.is_numeric_dtype c) eqn:Hnum; [|done].
    apply as_floats_numeric in Hnum as [? ?]. congruence.
Qed.

(** With invalid fractions [quantile] raises on the first numeric column. *)
Lemma mapM_fit_column_invalid (qs : Q * Q) (Xv : pd.table)
    (td : list (string * (option Q * option Q))) :
  NoDup Xv.*1 →
  quantile.valid qs.1 && quantile.valid qs.2 = false →
  mapM (Winsorizer.fit_column qs Xv) (numeric_names Xv) = Ok td →
  numeric_names Xv = [].
Proof.
  intros Hnd Hinvalid. destruct (numeric_names Xv) as [|n ns] eqn:E; [done|].
  rewrite mapM_result_cons.
  assert (n ∈ numeric_names Xv) as Hn by (rewrite E; left).
  apply elem_of_numeric_names in Hn as (c & Hin & Hnum).
  assert (∃ e, Winsorizer.fit_column qs Xv n = Err e) as [e ->]; [|done].
  unfold Winsorizer.fit_column.
  rewrite (elem_of_get_col n c Xv Hnd Hin).
  apply as_floats_numeric in Hnum as [vals ->].
  unfold quantile.quantile2. rewrite Hinvalid. by eexists.
Qed.

Lemma fit_unfold (l : Winsorizer.limits_t) (X : heap.loc)
    (h : heap.store) (Xv : pd.table) :
  let qs := Winsorizer.resolve_limits l in
  h !! X = Some Xv →
  Winsorizer.fit (Winsorizer.init l) X h
  = match mapM (Winsorizer.fit_column qs Xv) (numeric_names Xv) with
    | Ok td =>
        (Ok (Winsorizer.Make (Winsorizer.LimitsPair qs.1 qs.2)
               (Some (numeric_names Xv)) (Some td)), h)
    | Err x => (Err x, h)
    end.
Proof.
  intros qs HX. unfold Winsorizer.fit.
  rewrite bind_run. unfold heap.DataFrame at 1.
  unfold mret at 1, heap.M_ret at 1. cbv iota.
  rewrite bind_run. unfold heap.load at 1. rewrite HX.
  cbn [Winsorizer.limits Winsorizer.init]. fold qs. fold (numeric_names Xv).
  rewrite bind_run. unfold heap.lift at 1.
  by destruct (mapM _ _).
Qed.

(** [fit] returns when the fractions are valid. *)
Lemma fit_run (l : Winsorizer.limits_t) (X : heap.loc)
    (h : heap.store) (Xv : pd.table) :
  let qs := Winsorizer.resolve_limits l in
  h !! X = Some Xv → NoDup Xv.*1 →
  quantile.valid qs.1 && quantile.valid qs.2 = true →
  Winsorizer.fit (Winsorizer.init l) X h
  = (Ok (Winsorizer.Make (Winsorizer.LimitsPair qs.1 qs.2)
           (Some (numeric_names Xv)) (Some (fitted_dict qs Xv))), h).
Proof.
  intros qs HX Hnd Hvalid. rewrite (fit_unfold l X h Xv HX). fold qs.
  rewrite mapM_fit_column; [done|done|].
  intros n c Hin. by apply elem_of_get_col.
Qed.

(** Whenever [fit] returns, the store is unchanged, the dictionary is
    [fitted_dict], and the fractions are valid unless no column is
    numeric. *)
Lemma fit_inv (l : Winsorizer.limits_t) (X : heap.loc)
    (h h1 : heap.store) (Xv : pd.table) (self : Winsorizer.t) :
  let qs := Winsorizer.resolve_limits l in
  h !! X = Some Xv → NoDup Xv.*1 →
  Winsorizer.fit (Winsorizer.init l) X h = (Ok self, h1) →
  h1 = h ∧
  self = Winsorizer.Make (Winsorizer.LimitsPair qs.1 qs.2)
           (Some (numeric_names Xv)) (Some (fitted_dict qs Xv)) ∧
  (numeric_names Xv = []
   ∨ quantile.valid qs.1 && quantile.valid qs.2 = true).
Proof.
  intros qs HX Hnd. rewrite (fit_unfold l X h Xv HX). fold qs.
  destruct (quantile.valid qs.1 && quantile.valid qs.2) eqn:Hvalid.
  - rewrite mapM_fit_column; [|done|intros n c Hin; by apply elem_of_get_col].
    intros [= <- <-]. auto.
  - destruct (mapM _ _) as [td|x] eqn:Hmap; [|done]. intros [= <- <-].
    pose proof (mapM_fit_column_invalid qs Xv td Hnd Hvalid Hmap) as Hnone.
    rewrite Hnone in Hmap. injection Hmap as <-.
    assert (fitted_dict qs Xv = []) as ->; [|auto].
    apply fmap_nil_inv with (f := fst). by rewrite fitted_dict_names.
Qed.

Lemma trim_columns_returns (td : list (string * (option Q * option Q)))
    (T : pd.table) :
  NoDup td.*1 →
  (∀ item, item ∈ td →
     ∃ c, pd.get_col item.1 T = Some c
          ∧ pd.is_numeric_dtype c = true ∧ pd.size c ≠ 0%nat) →
  ∃ T', trim_columns td T = Ok T'.
Proof.
  revert T. induction td as [|item td IH]; intros T Hnd Hall; [by exists T|].
  csimpl in Hnd. apply NoDup_cons in Hnd as [Hnotin Hnd].
  destruct (Hall item) as (c & Hget & Hnum & Hsize); [by left|].
  cbn [trim_columns]. unfold trim_column at 1. rewrite Hget.
  destruct (trim_vec_returns c item.2.1 item.2.2 Hnum Hsize) as [c' ->].
  cbn [mbind result_bind].
  apply IH; [done|]. intros item' Hin.
  destruct (Hall item') as (c1 & Hget' & Hnum' & Hsize'); [by right|].
  exists c1. split; [|done]. rewrite get_col_set_col_ne; [done|].
  intros E. apply Hnotin. rewrite E. by apply list_elem_of_fmap_2.
Qed.

(** With fractions in increasing order and a value to read, the fitted
    bounds are numbers in increasing order. *)
Lemma fitted_bounds_ordered (qs : Q * Q) (vals : list (option Q)) (v : Q) :
  (0 <= qs.1)%Q → (qs.1 <= qs.2)%Q → (qs.2 <= 1)%Q → Some v ∈ vals →
  ∃ lo hi, fitted_bounds qs vals = (Some lo, Some hi) ∧ (lo <= hi)%Q.
Proof.
  intros H0 H12 H1 Hv.
  assert (quantile.sorted_values vals ≠ []) as Hne.
  { intros Hnil. apply sorted_values_nil in Hnil.
    rewrite Forall_forall in Hnil. by specialize (Hnil _ Hv). }
  destruct (at_fraction_mono (quantile.sorted_values vals) qs.1 qs.2)
    as (lo & hi & Elo & Ehi & Hle);
    [apply sorted_values_Sorted|done..|].
  exists lo, hi. unfold fitted_bounds. by rewrite Elo, Ehi.
Qed.

Lemma fitted_bounds_clip (qs : Q * Q) (cells : list (option Q)) :
  (0 <= qs.1)%Q → (qs.1 <= qs.2)%Q → (qs.2 <= 1)%Q →
  let lh := fitted_bounds qs cells in
  Forall2 (clipped lh.1 lh.2) cells
          (Winsorizer.to_float <$> trim_floats cells lh.1 lh.2).
Proof.
  intros H0 H12 H1 lh. unfold trim_floats. rewrite <-list_fmap_compose.
  apply Forall2_fmap_r, Forall_Forall2_diag, Forall_forall.
  intros x Hx. destruct x as [v|]; [|done].
  destruct (fitted_bounds_ordered qs cells v) as (lo & hi & E & Hle);
    [done..|].
  unfold lh. rewrite E. cbn [fst snd compose].
  by apply (trim_clipped (Winsorizer.SFloat (Some v))).
Qed.

Lemma fitted_bounds_clip_int (qs : Q * Q) (cells : list Z) :
  (0 <= qs.1)%Q → (qs.1 <= qs.2)%Q → (qs.2 <= 1)%Q →
  let lh := fitted_bounds qs ((λ z, Some (inject_Z z)) <$> cells) in
  Forall2 (λ z o, clipped lh.1 lh.2 (Some (inject_Z z)) (Winsorizer.to_float o))
          cells (trim_ints cells lh.1 lh.2).
Proof.
  intros H0 H12 H1 lh. unfold trim_ints.
  apply Forall2_fmap_r, Forall_Forall2_diag, Forall_forall.
  intros z Hz.
  destruct (fitted_bounds_ordered qs ((λ z, Some (inject_Z z)) <$> cells)
              (inject_Z z)) as (lo & hi & E & Hle); [done..| |].
  { apply list_elem_of_fmap. by exists z. }
  unfold lh. rewrite E. cbn [fst snd].
  by apply (trim_clipped (Winsorizer.SInt z)).
Qed.

Lemma Forall2_truncated (low high : option Q) (cells zs : list Z)
    (outs : list Winsorizer.scalar) :
  Forall2 (λ z o, clipped low high (Some (inject_Z z)) (Winsorizer.to_float o))
    cells outs →
  Forall2 (λ o z, Winsorizer.to_int o = Ok z) outs zs →
  Forall2 (λ z z', ∃ v, clipped low high (Some (inject_Z z)) (Some v)
                        ∧ z' = py_int v)
    cells zs.
Proof.
  intros Hclip. revert zs.
  induction Hclip as [|z o cells outs Hzo _ IH]; intros zs Hzs;
    inv Hzs; constructor; [|by apply IH].
  match goal with H : Winsorizer.to_int o = Ok _ |- _ =>
    apply to_int_py_int in H as (v & Ev & ->) end.
  exists v. by rewrite <-Ev.
Qed.

(** ** Claims about [Winsorizer.fit] and [transform] *)

(** On an integer column the results of [trim] can be truncated.  For the
    column [50, 1, 100] and the default limits [fit] stores the bounds
    low = 1.98 and high = 99.  In [transform] the first result of [trim] is
    the integer 50, so [np.vectorize] produces an integer column: the value
    1, clipped to 1.98, comes out as 1, below low. *)
Lemma winsorizer_truncates_integer_column :
  let Xv := [("a"%string, pd.IntCol [50; 1; 100])] in
  let h : heap.store := {[ 1%positive := Xv ]} in
  let out := [("a"%string, pd.IntCol [50; 1; 99])] in
  (self ← Winsorizer.fit (Winsorizer.init Winsorizer.LimitsNone) 1%positive;
   X_t ← Winsorizer.transform self 1%positive;
   T ← heap.load X_t;
   mret (Winsorizer.threshold_dict_ self, T)) h
  = (Ok (Some [("a"%string, (Some (198 # 100)%Q, Some (9900 # 100)%Q))], out),
     <[2%positive := out]> h)
  ∧ (inject_Z 1 < 198 # 100)%Q.
Proof. split; [vm_compute|]; reflexivity. Qed.

(** C7, as stated, fails when the configured fractions are in decreasing
    order, as for [limits = 0.9], which line 133 turns into (0.9, 0.1).
    Fitted on the float column [1, 2, 3] the bounds are low = 2.8 and
    high = 1.2, and [transform] returns 1.2 in every row: below low. *)
Lemma winsorizer_decreasing_limits_leave_bounds :
  let Xv := [("a"%string, pd.FloatCol [Some 1%Q; Some 2%Q; Some 3%Q])] in
  let h : heap.store := {[ 1%positive := Xv ]} in
  (self ← Winsorizer.fit (Winsorizer.init (Winsorizer.LimitsFloat (9 # 10)))
            1%positive;
   X_t ← Winsorizer.transform self 1%positive;
   T ← heap.load X_t;
   mret (Winsorizer.threshold_dict_ self, T)) h
  = (Ok (Some [("a"%string, (Some (28 # 10)%Q, Some (12 # 10)%Q))],
         [("a"%string,
           pd.FloatCol [Some (12 # 10)%Q; Some (12 # 10)%Q; Some (12 # 10)%Q])]),
     <[2%positive :=
         [("a"%string,
           pd.FloatCol [Some (12 # 10)%Q; Some (12 # 10)%Q; Some (12 # 10)%Q])]]> h)
  ∧ (12 # 10 < 28 # 10)%Q.
Proof. split; [vm_compute|]; reflexivity. Qed.

(** [fit] then [transform] on a live table [X] with distinct column names
    and fractions in increasing order, column by column.  An integer
    column comes out as a float column of values within [low, high], or as
    an integer column of such values truncated. *)
Lemma winsorizer_fit_transform_outcome
    (l : Winsorizer.limits_t) (X : heap.loc) (h : heap.store) (Xv : pd.table) :
  let qs := Winsorizer.resolve_limits l in
  h !! X = Some Xv → NoDup Xv.*1 → (qs.1 <= qs.2)%Q →
  ((0 <= qs.1)%Q → (qs.2 <= 1)%Q →
   ∃ self, Winsorizer.fit (Winsorizer.init l) X h = (Ok self, h)) ∧
  (∀ self h1,
     Winsorizer.fit (Winsorizer.init l) X h = (Ok self, h1) →
     h1 = h ∧
     ∃ td,
       Winsorizer.threshold_dict_ self = Some td ∧
       (∀ column, column ∈ td.*1
                  ↔ ∃ c, (column, c) ∈ Xv ∧ pd.is_numeric_dtype c = true) ∧
       ((∀ column c, (column, c) ∈ Xv → pd.is_numeric_dtype c = true →
                     pd.size c ≠ 0%nat) →
        ∃ X_t h', Winsorizer.transform self X h = (Ok X_t, h')) ∧
       (∀ X_t h',
          Winsorizer.transform self X h = (Ok X_t, h') →
          ∃ T',
            h' !! X_t = Some T' ∧ T'.*1 = Xv.*1 ∧
            (∀ column cells,
               (column, pd.FloatCol cells) ∈ Xv →
               ∃ low high cells',
                 (column, (low, high)) ∈ td ∧
                 pd.get_col column T' = Some (pd.FloatCol cells') ∧
                 Forall2 (clipped low high) cells cells') ∧
            (∀ column cells,
               (column, pd.IntCol cells) ∈ Xv →
               ∃ low high,
                 (column, (low, high)) ∈ td ∧
                 ((∃ cells',
                     pd.get_col column T' = Some (pd.FloatCol cells') ∧
                     Forall2 (λ z x', clipped low high (Some (inject_Z z)) x')
                       cells cells')
                  ∨ (∃ cells',
                       pd.get_col column T' = Some (pd.IntCol cells') ∧
                       Forall2 (λ z z',
                                  ∃ v, clipped low high (Some (inject_Z z))
                                         (Some v)
                                       ∧ z' = py_int v)
                         cells cells'))) ∧
            (∀ column cells,
               (column, pd.ObjCol cells) ∈ Xv →
               pd.get_col column T' = Some (pd.ObjCol cells)))).
Proof.
  intros qs HX Hnd H12. split.
  { intros H0 H1. eexists. apply fit_run; [done..|].
    unfold quantile.valid. rewrite !andb_true_iff, !Qle_bool_iff.
    fold qs. split_and!; lra. }
  intros self h1 Hfit.
  destruct (fit_inv l X h h1 Xv self HX Hnd Hfit) as (-> & -> & Hvalid).
  fold qs in Hvalid |- *. split; [done|].
  set (td := fitted_dict qs Xv).
  set (self := Winsorizer.Make (Winsorizer.LimitsPair qs.1 qs.2)
                 (Some (numeric_names Xv)) (Some td)).
  assert (NoDup td.*1) as Hndtd.
  { unfold td. rewrite fitted_dict_names.
    apply (sublist_NoDup _ Xv.*1); [done|apply numeric_names_sublist]. }
  assert (∀ column, column ∈ td.*1
                    ↔ ∃ c, (column, c) ∈ Xv ∧ pd.is_numeric_dtype c = true)
    as Hkeys.
  { intros column. unfold td. rewrite fitted_dict_names.
    apply elem_of_numeric_names. }
  assert (∀ column c, (column, c) ∈ Xv → pd.is_numeric_dtype c = true →
            (0 <= qs.1)%Q ∧ (qs.2 <= 1)%Q) as Hbounds.
  { intros column c Hin Hnum. destruct Hvalid as [Hnone|Hvalid].
    - assert (column ∈ numeric_names Xv) as Hcol.
      { apply elem_of_numeric_names. by exists c. }
      rewrite Hnone in Hcol. by inv Hcol.
    - unfold quantile.valid in Hvalid.
      rewrite !andb_true_iff, !Qle_bool_iff in Hvalid. split; lra. }
  destruct (transform_run self X h Xv HX) as (r & T' & Hrun & Hr).
  exists td. split_and!; [done|done| |].
  - intros Hnonempty.
    destruct (trim_columns_returns td Xv Hndtd) as [T1 HT1].
    { intros [n lh] Hin.
      apply elem_of_fitted_dict in Hin as (c & vals & Hin & Hvals & _).
      assert (pd.is_numeric_dtype c = true) as Hnum.
      { apply as_floats_numeric. by rewrite Hvals. }
      exists c. split_and!; [by apply elem_of_get_col|done|by eapply Hnonempty]. }
    destruct r as [X_t|e]; [by eexists _, _|].
    rewrite (Hr td) in HT1 by done. done.
  - intros X_t h' Hrun'. rewrite Hrun in Hrun'. injection Hrun' as -> <-.
    destruct Hr as (-> & td' & [= <-] & Htrim).
    exists T'. split_and!.
    + by rewrite lookup_insert_eq.
    + by eapply trim_columns_names.
    + intros column cells Hin.
      pose (lh := fitted_bounds qs cells).
      assert ((column, (lh.1, lh.2)) ∈ td) as Hitem.
      { apply elem_of_fitted_dict. by exists (pd.FloatCol cells), cells. }
      destruct (trim_columns_configured td Xv T' column lh.1 lh.2)
        as (c & c' & Hc & Hc' & HT'); [done..|].
      rewrite (elem_of_get_col column (pd.FloatCol cells) Xv) in Hc by done.
      injection Hc as <-. apply trim_vec_float_inv in Hc' as ->.
      exists lh.1, lh.2, (Winsorizer.to_float <$> trim_floats cells lh.1 lh.2).
      split_and!; [done|done|].
      destruct (Hbounds column (pd.FloatCol cells)) as [H0 H1]; [done..|].
      by apply fitted_bounds_clip.
    + intros column cells Hin.
      pose (lh := fitted_bounds qs ((λ z, Some (inject_Z z)) <$> cells)).
      assert ((column, (lh.1, lh.2)) ∈ td) as Hitem.
      { apply elem_of_fitted_dict.
        by exists (pd.IntCol cells), ((λ z, Some (inject_Z z)) <$> cells). }
      destruct (trim_columns_configured td Xv T' column lh.1 lh.2)
        as (c & c' & Hc & Hc' & HT'); [done..|].
      rewrite (elem_of_get_col column (pd.IntCol cells) Xv) in Hc by done.
      injection Hc as <-.
      destruct (Hbounds column (pd.IntCol cells)) as [H0 H1]; [done..|].
      pose proof (fitted_bounds_clip_int qs cells H0 H12 H1) as Hclip.
      fold lh in Hclip. cbn zeta in Hclip.
      exists lh.1, lh.2. split; [done|].
      apply trim_vec_int_inv in Hc' as [->|(zs & -> & Hzs)]; [left|right].
      * eexists. split; [done|]. by apply Forall2_fmap_r.
      * exists zs. split; [done|]. by eapply Forall2_truncated.
    + intros column cells Hin.
      rewrite (trim_columns_other td Xv T' column Htrim).
      * by apply elem_of_get_col.
      * rewrite Hkeys. intros (c & Hin' & Hnum).
        by rewrite <-(NoDup_fst_unique Xv column _ _ Hnd Hin Hin') in Hnum.
Qed.

(** C7, amended.  Take a live table [X] with distinct column names and
    fractions in increasing order, [q_low <= q_high], be they the default,
    a single fraction [f] for ([f], [1 - f]), or a pair.  [fit] returns
    when the fractions lie in [0, 1].  Whenever it returns, it leaves the
    store as it was and its dictionary has one entry for each numeric
    column and no other.  [transform] on the same table returns when no
    numeric column is empty.  Whenever it returns, the output has the
    columns of [X] in order; in each float column a missing entry is still
    missing and every value lies within the fitted [low, high] of that
    column; and each non-numeric column is identical to the input. *)
Theorem winsorizer_fit_transform_within_bounds
    (l : Winsorizer.limits_t) (X : heap.loc) (h : heap.store) (Xv : pd.table) :
  let qs := Winsorizer.resolve_limits l in
  h !! X = Some Xv → NoDup Xv.*1 → (qs.1 <= qs.2)%Q →
  ((0 <= qs.1)%Q → (qs.2 <= 1)%Q →
   ∃ self, Winsorizer.fit (Winsorizer.init l) X h = (Ok self, h)) ∧
  (∀ self h1,
     Winsorizer.fit (Winsorizer.init l) X h = (Ok self, h1) →
     h1 = h ∧
     ∃ td,
       Winsorizer.threshold_dict_ self = Some td ∧
       (∀ column, column ∈ td.*1
                  ↔ ∃ c, (column, c) ∈ Xv ∧ pd.is_numeric_dtype c = true) ∧
       ((∀ column c, (column, c) ∈ Xv → pd.is_numeric_dtype c = true →
                     pd.size c ≠ 0%nat) →
        ∃ X_t h', Winsorizer.transform self X h = (Ok X_t, h')) ∧
       (∀ X_t h',
          Winsorizer.transform self X h = (Ok X_t, h') →
          ∃ T',
            h' !! X_t = Some T' ∧ T'.*1 = Xv.*1 ∧
            (∀ column cells,
               (column, pd.FloatCol cells) ∈ Xv →
               ∃ low high cells',
                 (column, (low, high)) ∈ td ∧
                 pd.get_col column T' = Some (pd.FloatCol cells') ∧
                 Forall2 (clipped low high) cells cells') ∧
            (∀ column cells,
               (column, pd.ObjCol cells) ∈ Xv →
               pd.get_col column T' = Some (pd.ObjCol cells)))).
Proof.
  intros qs HX Hnd H12.
  destruct (winsorizer_fit_transform_outcome l X h Xv HX Hnd H12)
    as [Hfit Hafter].
  split; [done|]. intros self h1 Hself.
  destruct (Hafter self h1 Hself) as (-> & td & Htd & Hkeys & Hret & Hout).
  split; [done|]. exists td. split_and!; [done..|].
  intros X_t h' Hrun.
  destruct (Hout X_t h' Hrun) as (T' & HT' & Hnames & Hfloat & _ & Hobj).
  by exists T'.
Qed.

Lemma winsorizer_fit_transform_within_bounds_witness :
  let Xv := [("a"%string, pd.FloatCol [Some 1%Q; None; Some 3%Q; Some 2%Q]);
             ("b"%string, pd.ObjCol [Some "x"%string; None; None; None])] in
  let h : heap.store := {[ 1%positive := Xv ]} in
  let l := Winsorizer.LimitsFloat (1 # 10) in
  h !! 1%positive = Some Xv ∧ NoDup Xv.*1 ∧ (1 # 10 <= 1 - (1 # 10))%Q ∧
  ∃ self X_t h' T' cells',
    Winsorizer.fit (Winsorizer.init l) 1%positive h = (Ok self, h) ∧
    Winsorizer.transform self 1%positive h = (Ok X_t, h') ∧
    h' !! X_t = Some T' ∧
    pd.get_col "a" T' = Some (pd.FloatCol cells') ∧
    pd.get_col "b" T' = Some (pd.ObjCol [Some "x"%string; None; None; None]).
Proof.
  intros Xv h l.
  assert (h !! 1%positive = Some Xv) as HX by reflexivity.
  assert (NoDup Xv.*1) as Hnd.
  { apply (bool_decide_unpack _). vm_compute. exact I. }
  assert (1 # 10 <= 1 - (1 # 10))%Q as Hle by (intros H; discriminate H).
  split; [exact HX|]. split; [exact Hnd|]. split; [exact Hle|].
  destruct (winsorizer_fit_transform_within_bounds l 1%positive h Xv HX Hnd Hle)
    as [Hfit Hafter].
  destruct Hfit as [self Hself];
    [intros H; discriminate H|intros H; discriminate H|].
  destruct (Hafter self h Hself) as (_ & td & _ & _ & Hreturns & Hout).
  destruct Hreturns as (X_t & h' & Hrun).
  { intros column c Hin Hnum. unfold Xv in Hin.
    apply elem_of_cons in Hin as [[= _ ->]|Hin]; [done|].
    apply elem_of_cons in Hin as [[= _ ->]|Hin]; [done|]. inv Hin. }
  destruct (Hout X_t h' Hrun) as (T' & HT' & _ & Hnum & Hobj).
  destruct (Hnum "a"%string [Some 1%Q; None; Some 3%Q; Some 2%Q])
    as (_ & _ & cells' & _ & Ha & _); [left|].
  exists self, X_t, h', T', cells'. split_and!; [done..|].
  apply Hobj. right. left.
Defined.


(** * load_model *)

Module fs.

(** What deserialization yields: an estimator, a tuned search object
    carrying its [best_estimator_], or an automl predictor. *)
Inductive model_obj : Type :=
  | Estimator (name : string)
  | Search (best_estimator_ : model_obj)
  | Predictor (checkpoint : string).

Inductive node : Type :=
  | Pickle (o : model_obj)     (* a file written by joblib *)
  | Other                      (* any other regular file *)
  | Dir.

(** The environment of a call: the file system, by path, and whether the
    optional dependency autogluon can be imported. *)
Record env : Type := Env {
  nodes : gmap string node;
  autogluon : bool
}.

(** [a / b] of pathlib, on paths without redundant separators: an
    absolute [b] replaces [a]. *)
Definition join (a b : string) : string :=
  match b with
  | String "/"%char _ => b
  | _ => a +:+ "/" +:+ b
  end.

(** [Path.is_file], [os.path.isfile], [Path.is_dir]. *)
Definition is_file (e : env) (p : string) : bool :=
  match nodes e !! p with
  | Some (Pickle _) | Some Other => true
  | _ => false
  end.
Definition is_dir (e : env) (p : string) : bool :=
  match nodes e !! p with
  | Some Dir => true
  | _ => false
  end.

(** [joblib.load]. *)
Definition load (e : env) (p : string) : result model_obj :=
  match nodes e !! p with
  | Some (Pickle o) => Ok o
  | Some Other => Err (UnpicklingError "invalid load key")
  | _ => Err (ValueError "No such file")
  end.

(** [s.split('/')]. *)
Fixpoint split_slash (s : string) : list string :=
  match s with
  | EmptyString => [EmptyString]
  | String c s' =>
      if Ascii.eqb c "/"%char then EmptyString :: split_slash s'
      else match split_slash s' with
           | piece :: pieces => String c piece :: pieces
           | [] => [String c EmptyString]
           end
  end.

(** [l[-1]] on a non-empty list. *)
Definition last_item (l : list string) : string := List.last l EmptyString.

(** [model.best_estimator_]. *)
Definition best_estimator_ (o : model_obj) : result model_obj :=
  match o with
  | Search b => Ok b
  | _ => Err (AttributeError "object has no attribute 'best_estimator_'")
  end.

End fs.

(** Modelled from the spec: [make_dir] of [helpers/utils.py], imported at
    line 29 and not among the sources.  The spec has [load_model] "create
    the expected output subdirectory as a side effect": afterwards the path
    is a directory. *)
Definition make_dir (p : string) (e : fs.env) : fs.env :=
  fs.Env (<[p := fs.Dir]> (fs.nodes e)) (fs.autogluon e).

(** Lines 177-201: the resolution of the model, with the state of the file
    system after it. *)
Definition resolve_model (model out_path kind : string) (e : fs.env)
  : result (string * fs.model_obj) * fs.env :=
  let subdir := kind +:+ "_models" in
  let full_path := fs.join (fs.join (fs.join out_path subdir) model) "model" in
  if fs.is_file e full_path then
    let model_name := model in
    (m ← fs.load e full_path; Ok (model_name, m), e)
  else if fs.is_dir e full_path then
    if fs.autogluon e then
      let model_name := model in
      (Ok (model_name, fs.Predictor full_path), e)
    else
      (Err (ImportError
              "Specified model appears to be an automl model. Optional dependency autogluon is required for automl.Please install it (e.g. using pip). Note that autogluon does not support python 3.9, so you must be using python 3.8 for this to work."),
       e)
  else if fs.is_file e model then
    let model_name := fs.last_item (fs.split_slash model) in
    match fs.load e model with
    | Ok m =>
        (Ok (model_name, m),
         make_dir (fs.join (fs.join out_path subdir) model_name) e)
    | Err x => (Err x, e)
    end
  else
    (Err (ValueError
            "The 'model' argument should be a path or a recognized model name"),
     e).

(** Lines 166-206. *)
Definition load_model (model out_path kind : string) (e : fs.env)
  : result (string * fs.model_obj) * fs.env :=
  match resolve_model model out_path kind e with
  | (Ok (model_name, m), e') =>
      if String.eqb kind "tuned" then
        (m' ← fs.best_estimator_ m; Ok (model_name, m'), e')
      else (Ok (model_name, m), e')
  | (Err x, e') => (Err x, e')
  end.

(** ** The last piece of a path is its basename *)

Fixpoint has_slash (s : string) : bool :=
  match s with
  | EmptyString => false
  | String c s' => Ascii.eqb c "/"%char || has_slash s'
  end.

(** [name] is what follows the last slash of [path], or all of [path] when
    it has no slash. *)
Definition is_basename (name path : string) : Prop :=
  has_slash name = false ∧
  (path = name ∨ ∃ dir, path = dir +:+ "/" +:+ name).

Fixpoint join_slash (l : list string) : string :=
  match l with
  | [] => EmptyString
  | x :: l' =>
      match l' with
      | [] => x
      | _ :: _ => x +:+ "/" +:+ join_slash l'
      end
  end.

Lemma string_app_assoc (s1 s2 s3 : string) :
  (s1 +:+ s2) +:+ s3 = s1 +:+ s2 +:+ s3.
Proof.
  induction s1 as [|c s1 IH]; [done|].
  change (String c ((s1 +:+ s2) +:+ s3) = String c (s1 +:+ s2 +:+ s3)).
  by rewrite IH.
Qed.

Lemma split_slash_nonempty (s : string) : fs.split_slash s ≠ [].
Proof.
  destruct s as [|c s]; cbn [fs.split_slash]; [done|].
  destruct (Ascii.eqb c "/"%char); [done|]. by destruct (fs.split_slash s).
Qed.

Lemma join_split_slash (s : string) : join_slash (fs.split_slash s) = s.
Proof.
  induction s as [|c s IH]; [done|]. cbn [fs.split_slash].
  pose proof (split_slash_nonempty s) as Hne.
  destruct (Ascii.eqb_spec c "/"%char) as [->|Hc].
  - cbn [join_slash]. destruct (fs.split_slash s) as [|x l]; [done|].
    by rewrite IH.
  - destruct (fs.split_slash s) as [|x l]; [done|]. rewrite <-IH.
    cbn [join_slash]. by destruct l.
Qed.

Lemma split_slash_pieces (s : string) :
  Forall (λ piece, has_slash piece = false) (fs.split_slash s).
Proof.
  induction s as [|c s IH]; cbn [fs.split_slash]; [by repeat constructor|].
  destruct (Ascii.eqb c "/"%char) eqn:Ec; [by constructor|].
  destruct (fs.split_slash s) as [|x l].
  { constructor; [|done]. cbn [has_slash]. by rewrite Ec. }
  apply Forall_cons in IH as [Hx Hl]. constructor; [|done].
  cbn [has_slash]. by rewrite Ec, Hx.
Qed.

Lemma join_slash_last (l : list string) :
  l ≠ [] →
  join_slash l = fs.last_item l
  ∨ ∃ dir, join_slash l = dir +:+ "/" +:+ fs.last_item l.
Proof.
  induction l as [|x l IH]; [done|]. intros _.
  destruct l as [|y l]; [by left|]. right.
  change (fs.last_item (x :: y :: l)) with (fs.last_item (y :: l)).
  change (join_slash (x :: y :: l)) with (x +:+ "/" +:+ join_slash (y :: l)).
  destruct IH as [->|[dir ->]]; [done|by exists x|].
  exists (x +:+ "/" +:+ dir). by rewrite !string_app_assoc.
Qed.

Lemma last_split_slash_basename (path : string) :
  is_basename (fs.last_item (fs.split_slash path)) path.
Proof.
  split.
  - pose proof (split_slash_pieces path) as Hall.
    pose proof (split_slash_nonempty path) as Hne.
    rewrite Forall_forall in Hall. apply Hall. apply list_elem_of_In.
    unfold fs.last_item.
    destruct (exists_last Hne) as (l' & b & ->). rewrite last_last.
    apply in_or_app. right. by left.
  - pose proof (join_slash_last _ (split_slash_nonempty path)) as H.
    by rewrite join_split_slash in H.
Qed.

(** ** Claims about [load_model] *)

Definition example_env : fs.env :=
  fs.Env {[ "/m/rf.joblib"%string := fs.Pickle (fs.Estimator "rf");
            "/m/gs.joblib"%string :=
              fs.Pickle (fs.Search (fs.Estimator "rf")) ]}
         false.

(** C9, as stated, fails for the default [kind]: the path names an existing
    serialized file, the conventional location does not resolve, and yet
    [load_model] returns no name.  The file holds an estimator that is not
    a tuned search object, and line 204 raises, after the subdirectory was
    created. *)
Lemma load_model_tuned_without_best_estimator_raises :
  fs.is_file example_env "/m/rf.joblib" = true ∧
  fs.join (fs.join (fs.join "/out" "tuned_models") "/m/rf.joblib") "model"
  = "/m/rf.joblib/model"%string ∧
  fs.is_file example_env "/m/rf.joblib/model" = false ∧
  fs.is_dir example_env "/m/rf.joblib/model" = false ∧
  load_model "/m/rf.joblib" "/out" "tuned" example_env
  = (Err (AttributeError "object has no attribute 'best_estimator_'"),
     make_dir "/out/tuned_models/rf.joblib" example_env).
Proof. repeat split; vm_compute; reflexivity. Qed.

(** C9, amended.  Let the conventional location
    [out_path/<kind>_models/<model>/model] be neither a file nor a
    directory.  When [model] is itself the path of an existing serialized
    file, [load_model] loads that file and creates the subdirectory
    [out_path/<kind>_models/<name>], [name] being the basename of the file;
    nothing else changes in the file system.  It returns [name] with the
    loaded object, or for kind "tuned" with the [best_estimator_] of the
    loaded object, and raises when a tuned model has none.  When [model] is
    not the path of a file either, it raises the [ValueError] of line 201
    and changes nothing. *)
Theorem load_model_path_or_unrecognized
    (model out_path kind : string) (e : fs.env) :
  let models := fs.join out_path (kind +:+ "_models") in
  let full_path := fs.join (fs.join models model) "model" in
  fs.is_file e full_path = false → fs.is_dir e full_path = false →
  (∀ o, fs.nodes e !! model = Some (fs.Pickle o) →
        let name := fs.last_item (fs.split_slash model) in
        let e' := make_dir (fs.join models name) e in
        is_basename name model ∧
        fs.is_dir e' (fs.join models name) = true ∧
        (∀ p, p ≠ fs.join models name → fs.nodes e' !! p = fs.nodes e !! p) ∧
        load_model model out_path kind e
        = (if String.eqb kind "tuned"
           then m ← fs.best_estimator_ o; Ok (name, m)
           else Ok (name, o),
           e')) ∧
  (fs.is_file e model = false →
   load_model model out_path kind e
   = (Err (ValueError
             "The 'model' argument should be a path or a recognized model name"),
      e)).
Proof.
  intros models full_path Hfile Hdir. split.
  - intros o Ho name e'. split_and!.
    + apply last_split_slash_basename.
    + unfold fs.is_dir, e', make_dir. cbn [fs.nodes].
      by rewrite lookup_insert_eq.
    + intros p Hp. unfold e', make_dir. cbn [fs.nodes].
      by rewrite lookup_insert_ne.
    + unfold load_model, resolve_model. fold models. fold full_path.
      rewrite Hfile, Hdir. unfold fs.is_file, fs.load. rewrite Ho.
      fold name. fold e'. by destruct (String.eqb kind "tuned").
  - intros Hmodel. unfold load_model, resolve_model.
    fold models. fold full_path. by rewrite Hfile, Hdir, Hmodel.
Qed.

Lemma load_model_path_or_unrecognized_witness :
  fs.is_file example_env "/m/gs.joblib/model" = false ∧
  fs.is_dir example_env "/m/gs.joblib/model" = false ∧
  load_model "/m/gs.joblib" "/out" "tuned" example_env
  = (Ok ("gs.joblib"%string, fs.Estimator "rf"),
     make_dir "/out/tuned_models/gs.joblib" example_env).
Proof.
  split; [reflexivity|]. split; [reflexivity|].
  destruct (load_model_path_or_unrecognized
              "/m/gs.joblib" "/out" "tuned" example_env) as [H _];
    [reflexivity..|].
  apply (H (fs.Search (fs.Estimator "rf"))). reflexivity.
Defined.


(** * Further properties of [metrics] *)

(** X1.  [metrics] returns its tuple exactly when the guard of line 54
    passes, both vectors have the same length, and the number of ones that
    line 57 computes in float64 is at least 1 and less than the number of
    observations, of which there are then at least two.  In every other
    case it raises. *)
Theorem metrics_returns_iff
    (argsort : list Q → list nat)
    (argsort_spec : ∀ keys, np.is_argsort keys (argsort keys))
    (a1 a2 : list Q) (p : float) :
  ((∃ t, metrics64 argsort a1 a2 p = Ok t) ↔
   ((p =? 0) || (p =? 100))%float = false ∧ length a1 = length a2 ∧
   ∃ k, num_ones64 p (len a1) = Ok k ∧ 1 ≤ k < len a1) ∧
  ((∃ t, metrics64 argsort a1 a2 p = Ok t) → 2 ≤ len a1).
Proof.
  assert ((∃ t, metrics64 argsort a1 a2 p = Ok t) →
          ((p =? 0) || (p =? 100))%float = false ∧ length a1 = length a2 ∧
          ∃ k, num_ones64 p (len a1) = Ok k ∧ 1 ≤ k < len a1) as Hret.
  { intros [t Ht]. unfold metrics64 in Ht.
    apply bind_Ok in Ht as (m & Hm & _).
    apply metrics_run64_inv in Hm as (Hg & k & Hk & Hm).
    apply (confusion_rates_inv argsort argsort_spec) in Hm as (Hlen & Hk1 & _).
    split; [done|]. split; [done|]. by exists k. }
  split_and!.
  - split; [done|]. intros (Hg & Hlen & k & Hk & Hk1).
    destruct (confusion_rates_ok argsort argsort_spec a1 a2 k) as [m Hm];
      [done..|].
    unfold metrics64. rewrite (metrics_run64_eq _ _ _ _ k), Hm by done.
    cbn [mbind result_bind]. by eexists.
  - intros H. apply Hret in H as (_ & _ & k & _ & Hk1). lia.
Qed.

Lemma metrics_returns_iff_witness :
  ∃ t, metrics64 stable_argsort [3; 1; 2]%Q [1; 2; 3]%Q 50 = Ok t.
Proof.
  apply (metrics_returns_iff stable_argsort stable_argsort_spec
           [3; 1; 2]%Q [1; 2; 3]%Q 50).
  split; [reflexivity|]. split; [reflexivity|].
  exists 1. split; [reflexivity|]. split; [lia|reflexivity].
Defined.

Lemma Zfrac_bounds (a b : Z) :
  0 ≤ a ≤ b → 0 < b →
  (0 <= inject_Z a / inject_Z b)%Q ∧ (inject_Z a / inject_Z b <= 1)%Q.
Proof.
  intros Ha Hb.
  assert (0 < inject_Z b)%Q as HbQ.
  { change 0%Q with (inject_Z 0). by rewrite <-Zlt_Qlt. }
  split.
  - apply Qle_shift_div_l; [done|]. rewrite Qmult_0_l.
    apply inject_Z_nonneg. lia.
  - apply Qle_shift_div_r; [done|]. rewrite Qmult_1_l, <-Zle_Qle. lia.
Qed.





(** * Further properties of [auc_overall] *)

Lemma mapM_result_Forall {A B} (f : A → result B) (P : B → Prop)
    (l : list A) :
  Forall (λ x, ∃ y, f x = Ok y ∧ P y) l →
  ∃ k, mapM f l = Ok k ∧ Forall P k.
Proof.
  induction 1 as [|x l (y & Hy & HP) _ (k & Hk & HPk)]; [by exists []|].
  exists (y :: k). rewrite mapM_result_cons, Hy, Hk. by split; [|constructor].
Qed.

(** Every cutoff of the grid lies between 1 and 99, and the first is 1. *)
Lemma grid_in_range : Forall (λ p, (1 <= p)%Q ∧ (p <= 99)%Q) grid.
Proof.
  apply Forall_forall. intros p Hp.
  assert (forallb (λ p, Qle_bool 1 p && Qle_bool p 99) grid = true) as H
    by (vm_compute; reflexivity).
  rewrite forallb_forall in H. apply list_elem_of_In, H in Hp.
  apply andb_true_iff in Hp as [H1 H2]. by rewrite <-!Qle_bool_iff.
Qed.

Lemma grid_cons : ∃ p0 rest, grid = p0 :: rest ∧ (p0 == 1)%Q.
Proof. eexists _, _. split; [vm_compute|]; reflexivity. Qed.

Lemma inject_Z_ge_100 (n : Z) : 100 ≤ n → (100 <= inject_Z n)%Q.
Proof. intros H. change 100%Q with (inject_Z 100). by rewrite <-Zle_Qle. Qed.

(** With at least 100 observations every cutoff of the grid leaves both
    classes non-empty. *)
Lemma grid_num_ones (n : Z) (p : Q) :
  100 ≤ n → p ∈ grid →
  (0 < p)%Q ∧ (p < 100)%Q ∧ 1 ≤ num_ones_of p n < n.
Proof.
  intros Hn Hp. pose proof grid_in_range as Hgrid.
  rewrite Forall_forall in Hgrid. destruct (Hgrid p Hp) as [H1 H99].
  pose proof (inject_Z_ge_100 n Hn) as HnQ.
  assert (0 < p)%Q as Hp0 by lra. assert (p < 100)%Q as Hp100 by lra.
  split_and!; [done|done| |].
  - apply num_ones_of_pos. nra.
  - apply num_ones_of_bounds; (done || lia).
Qed.

Lemma roc_points_ok (argsort : list Q → list nat) (a1 a2 : list Q)
    (gs : list (Q * Q * Q * Q * Q)) :
  mapM (metrics argsort a1 a2) grid = Ok gs →
  ∃ s, roc_points argsort a1 a2 = Ok s.
Proof.
  intros Hgs. unfold roc_points. rewrite Hgs. cbn [mbind result_bind].
  pose proof (mapM_Ok_Forall2 _ _ _ Hgs) as Hall.
  apply Forall2_length in Hall. rewrite grid_length in Hall.
  destruct gs as [|g gs]; [done|]. cbn. by eexists.
Qed.

Lemma auc_of_roc_points (fuel : nat) (s : list Q * list Q) :
  roc_shaped s → (length s.1 ≤ fuel)%nat →
  ∃ r, monotonize fuel s = Some r ∧ strictly_increasing r.1 = true ∧
       sk_auc.auc r.1 r.2 = Ok (sk_auc.trapz r.2 r.1).
Proof.
  intros Hshape Hfuel.
  destruct (monotonize_terminates s) as (r & Hr & Hsi).
  specialize (Hr fuel Hfuel). exists r. split_and!; [done..|].
  destruct (monotonize_roc_shaped _ _ _ Hshape Hr)
    as (_ & _ & _ & [Hge _] & Hlens).
  by apply auc_strictly_increasing.
Qed.

(** X5.  [auc_overall] needs at least 100 observations.  On vectors of the
    same length below 100 the first cutoff, 1 percent, selects no
    observation and the unpack of line 67 raises; from 100 observations on
    every cutoff of the grid leaves both classes non-empty and
    [auc_overall] returns a number. *)
Theorem auc_overall_needs_100_observations
    (argsort : list Q → list nat)
    (argsort_spec : ∀ keys, np.is_argsort keys (argsort keys))
    (fuel : nat) (a1 a2 : list Q) :
  length a1 = length a2 →
  ((length a1 < 100)%nat →
   auc_overall argsort fuel a1 a2
   = Some (Err (ValueError "not enough values to unpack (expected 4)"))) ∧
  ((100 ≤ length a1)%nat → (99 ≤ fuel)%nat →
   ∃ v, auc_overall argsort fuel a1 a2 = Some (Ok v)).
Proof.
  intros Hlen. split.
  - intros Hn. unfold auc_overall, roc_points.
    destruct grid_cons as (p0 & rest & -> & Hp0).
    rewrite mapM_result_cons.
    assert (metrics argsort a1 a2 p0
            = Err (ValueError "not enough values to unpack (expected 4)"))
      as ->; [|done].
    assert (num_ones_of p0 (len a1) = 0) as Hk.
    { unfold num_ones_of. change (p0 / 100)%Q with (p0 * (1#100))%Q.
      assert (0 <= inject_Z (len a1))%Q
        by (apply inject_Z_nonneg; unfold len; lia).
      assert (inject_Z (len a1) < 100)%Q.
      { change 100%Q with (inject_Z 100). rewrite <-Zlt_Qlt. unfold len. lia. }
      apply py_int_small; nra. }
    destruct (guard_passes p0) as [Hg0 Hg100]; [lra..|].
    apply metrics_of_run, metrics_run_single_class; [done..| |];
      rewrite Hk; unfold len; lia.
  - intros Hn Hfuel.
    destruct (mapM_result_Forall (metrics argsort a1 a2) (λ _, True) grid)
      as (gs & Hgs & _).
    { apply Forall_forall. intros p Hp.
      destruct (grid_num_ones (len a1) p) as (Hp0 & Hp100 & Hk);
        [unfold len; lia|done|].
      destruct (guard_passes p Hp0 Hp100) as [Hg0 Hg100].
      destruct (metrics_run_ok argsort argsort_spec a1 a2 p) as [m Hm];
        [done..|].
      eexists. split; [|done]. unfold metrics. by rewrite Hm. }
    destruct (roc_points_ok argsort a1 a2 gs Hgs) as [s Hs].
    destruct (roc_points_inv argsort argsort_spec a1 a2 s Hs)
      as (_ & _ & _ & _ & Hshape & Hlens).
    destruct (auc_of_roc_points fuel s Hshape) as ([fprs tprs] & Hr & _ & Hauc);
      [lia|].
    cbn [fst snd] in Hauc. unfold auc_overall. rewrite Hs, Hr, Hauc.
    by eexists.
Qed.

Lemma auc_overall_needs_100_observations_witness :
  length [3; 1; 2]%Q = length [1; 2; 3]%Q ∧ (3 < 100)%nat ∧
  auc_overall stable_argsort 99 [3; 1; 2]%Q [1; 2; 3]%Q
  = Some (Err (ValueError "not enough values to unpack (expected 4)")).
Proof.
  split; [reflexivity|]. split; [lia|].
  apply (auc_overall_needs_100_observations stable_argsort stable_argsort_spec
           99 [3; 1; 2]%Q [1; 2; 3]%Q eq_refl). simpl. lia.
Defined.

(** ** The area lies between 0 and 1 *)

Definition unit_interval (v : Q) : Prop := (0 <= v)%Q ∧ (v <= 1)%Q.

Lemma spec_trapezoid_cons (p0 p1 : Q * Q) (rest : list (Q * Q)) :
  spec_trapezoid (p0 :: p1 :: rest)
  = ((p1.1 - p0.1) * (p0.2 + p1.2) / 2 + spec_trapezoid (p1 :: rest))%Q.
Proof. done. Qed.

(** Over a strictly increasing abscissa with ordinates in [0, 1] the
    trapezoidal rule yields at least 0 and at most the width covered. *)
Lemma spec_trapezoid_bounds (xs ys : list Q) (x0 y0 : Q) :
  strictly_increasing (x0 :: xs) = true →
  Forall unit_interval (y0 :: ys) → length xs = length ys →
  ∃ xl, last (x0 :: xs) = Some xl ∧
        (0 <= spec_trapezoid (zip (x0 :: xs) (y0 :: ys)))%Q ∧
        (spec_trapezoid (zip (x0 :: xs) (y0 :: ys)) <= xl - x0)%Q.
Proof.
  revert x0 y0 ys. induction xs as [|x1 xs IH]; intros x0 y0 ys Hsi Hys Hlen.
  { destruct ys; [|done]. exists x0. cbn. split_and!; [done|lra..]. }
  destruct ys as [|y1 ys]; [done|]. injection Hlen as Hlen.
  change (strictly_increasing (x0 :: x1 :: xs))
    with (Qlt_bool x0 x1 && strictly_increasing (x1 :: xs)) in Hsi.
  apply andb_true_iff in Hsi as [Hx Hsi]. apply Qlt_bool_iff in Hx.
  apply Forall_cons in Hys as [[Hy0 Hy0'] Hys].
  destruct (IH x1 y1 ys Hsi Hys Hlen) as (xl & Hlast & Hlo & Hhi).
  pose proof Hys as [[Hy1 Hy1'] _]%Forall_cons.
  exists xl. split; [done|].
  change (zip (x0 :: x1 :: xs) (y0 :: y1 :: ys))
    with ((x0, y0) :: (x1, y1) :: zip xs ys).
  rewrite spec_trapezoid_cons. cbn [fst snd].
  change ((x1, y1) :: zip xs ys) with (zip (x1 :: xs) (y1 :: ys)).
  set (T := spec_trapezoid (zip (x1 :: xs) (y1 :: ys))) in *.
  unfold Qdiv. change (/ 2)%Q with (1 # 2)%Q. split; nra.
Qed.

Section auc_bounds.
Variable argsort : list Q → list nat.
Hypothesis argsort_spec : ∀ keys, np.is_argsort keys (argsort keys).

Lemma metrics_tpr_bounds (a1 a2 : list Q) (p : Q) (g : Q * Q * Q * Q * Q) :
  metrics argsort a1 a2 p = Ok g → unit_interval g.1.2.
Proof.
  unfold metrics. intros H. apply bind_Ok in H as (m & Hm & [= <-]).
  cbn [fst snd].
  pose proof (metrics_run_inv argsort argsort_spec a1 a2 p m Hm)
    as (_ & _ & _ & Hk & _ & _ & _ & _ & Hfn & Htp & _ & _ & E2 & _
        & _ & _ & Erec & -> & _).
  rewrite Erec. apply Zfrac_bounds; lia.
Qed.

Lemma roc_points_tprs (a1 a2 : list Q) (s : list Q * list Q) :
  roc_points argsort a1 a2 = Ok s → Forall unit_interval s.2.
Proof.
  intros Hs.
  destruct (roc_points_inv argsort argsort_spec a1 a2 s Hs)
    as (g & gs & Hgs & -> & _ & _).
  cbn [snd]. constructor; [split; lra|].
  apply Forall_app. split; [|repeat constructor; lra].
  apply Forall_fmap, Forall_forall. intros g' Hg'.
  pose proof (mapM_Ok_Forall2 _ _ _ Hgs) as Hall.
  apply Forall2_cons_inv_r in Hall as (p & ps & _ & Hps & _).
  apply list_elem_of_lookup in Hg' as [i Hi].
  destruct (Forall2_lookup_r _ _ _ _ _ Hps Hi) as (p' & _ & Hp').
  by apply metrics_tpr_bounds in Hp'.
Qed.
End auc_bounds.

Lemma monotonize_Forall_tprs (P : Q → Prop) (fuel : nat)
    (s r : list Q * list Q) :
  Forall P s.2 → monotonize fuel s = Some r → Forall P r.2.
Proof.
  apply (monotonize_invariant (λ s', Forall P s'.2)).
  intros [f t] Ht _. rewrite monotonize_pass_select. cbn [snd] in *.
  by apply Forall_select.
Qed.

(** X6.  Whatever number [auc_overall] returns lies between 0 and 1. *)
Theorem auc_overall_in_unit_interval
    (argsort : list Q → list nat)
    (argsort_spec : ∀ keys, np.is_argsort keys (argsort keys))
    (fuel : nat) (a1 a2 : list Q) (v : Q) :
  auc_overall argsort fuel a1 a2 = Some (Ok v) → (0 <= v)%Q ∧ (v <= 1)%Q.
Proof.
  unfold auc_overall.
  destruct (roc_points argsort a1 a2) as [s|e] eqn:Hs; [|done].
  destruct (monotonize fuel s) as [[fprs tprs]|] eqn:Hr; [|done].
  intros [= Hauc].
  destruct (roc_points_inv argsort argsort_spec a1 a2 s Hs)
    as (_ & _ & _ & _ & Hshape & _).
  pose proof (roc_points_tprs argsort argsort_spec a1 a2 s Hs) as Htprs.
  apply (monotonize_Forall_tprs _ _ _ _ Htprs) in Hr as Htprs'.
  pose proof (monotonize_Some_increasing _ _ _ Hr) as Hsi.
  destruct (monotonize_roc_shaped _ _ _ Hshape Hr)
    as (Hhd & _ & (z & Hz & Ez) & [Hge _] & Hlens).
  cbn [fst snd] in *.
  rewrite auc_strictly_increasing in Hauc by done. injection Hauc as <-.
  rewrite trapz_spec_trapezoid by done.
  destruct fprs as [|x0 xs]; [done|]. injection Hhd as ->.
  destruct tprs as [|y0 ys]; [done|]. injection Hlens as Hlens.
  destruct (spec_trapezoid_bounds xs ys 0 y0 Hsi Htprs' Hlens)
    as (xl & Hlast & Hlo & Hhi).
  rewrite Hz in Hlast. injection Hlast as <-. split; lra.
Qed.

Lemma auc_overall_in_unit_interval_witness :
  ∃ v, auc_overall stable_argsort 99 ascending_100 descending_100
       = Some (Ok v) ∧ (0 <= v)%Q ∧ (v <= 1)%Q.
Proof.
  eexists. split; [vm_compute; reflexivity|].
  apply (auc_overall_in_unit_interval stable_argsort stable_argsort_spec
           99 ascending_100 descending_100).
  vm_compute. reflexivity.
Defined.

(** ** The perfect predictor *)

(** When every fpr in between equals 0, a pass removes all of them and
    keeps the appended point. *)
Lemma select_flags_Qzeros {A} (mid : list Q) (z : Q) (ts : list A) (t1 : A) :
  Forall (λ y, y == 0)%Q mid → (0 <= z)%Q → (z < 1)%Q →
  length ts = length mid →
  select (flags z (mid ++ [1%Q])) (mid ++ [1%Q]) = [1%Q]
  ∧ select (flags z (mid ++ [1%Q])) (ts ++ [t1]) = [t1].
Proof.
  intros Hmid. revert z ts.
  induction Hmid as [|y mid Hy _ IH]; intros z ts Hz0 Hz1 Hlen.
  - destruct ts; [|done]. cbn.
    assert (Qle_bool 1 z = false) as ->; [|done].
    apply not_true_iff_false. rewrite Qle_bool_iff. intros H. lra.
  - destruct ts as [|t ts]; [done|]. injection Hlen as Hlen.
    cbn [app flags select].
    assert (Qle_bool y z = true) as -> by (apply Qle_bool_iff; lra).
    apply IH; [lra|lra|done].
Qed.

Lemma monotonize_Qzeros (fuel : nat) (mid ts : list Q) :
  Forall (λ y, y == 0)%Q mid → length ts = length mid →
  monotonize (S fuel) (0%Q :: mid ++ [1%Q], 0%Q :: ts ++ [1%Q])
  = Some ([0%Q; 1%Q], [0%Q; 1%Q]).
Proof.
  intros Hmid Hlen. destruct mid as [|y mid].
  { destruct ts; [|done]. by destruct fuel. }
  assert (strictly_increasing (0%Q :: (y :: mid) ++ [1%Q]) = false) as Hsi.
  { apply Forall_cons in Hmid as [Hy _].
    change (strictly_increasing (0%Q :: (y :: mid) ++ [1%Q]))
      with (Qlt_bool 0 y && strictly_increasing (y :: mid ++ [1%Q])).
    apply andb_false_iff. left. apply not_true_iff_false.
    rewrite Qlt_bool_iff. intros H. lra. }
  cbn [monotonize fst]. rewrite Hsi, monotonize_pass_select.
  cbn [removal_flags select].
  destruct (select_flags_Qzeros (y :: mid) 0 ts 1%Q) as [-> ->];
    [done|lra|lra|done|].
  by destruct fuel.
Qed.

(** X7.  For the perfect predictor on at least 100 observations of which
    no two are equal, [auc_overall] returns one half, whatever [argsort]
    meeting numpy's contract is used: every cutoff has a false positive
    rate of 0, the loop removes all of these points but the first, which
    line 93 has set to (0, 0), and the area under the two points left,
    (0, 0) and (1, 1), is 1/2. *)
Theorem auc_overall_perfect_predictor_half
    (argsort : list Q → list nat)
    (argsort_spec : ∀ keys, np.is_argsort keys (argsort keys))
    (fuel : nat) (a1 : list Q) :
  distinct a1 = true → (100 ≤ length a1)%nat → (1 ≤ fuel)%nat →
  ∃ v, auc_overall argsort fuel a1 a1 = Some (Ok v) ∧ (v == 1 # 2)%Q.
Proof.
  intros Hd Hn Hfuel. apply distinct_tie_free in Hd.
  destruct (mapM_result_Forall (metrics argsort a1 a1)
              (λ g, (g.2 == 0)%Q ∧ (g.1.2 == 1)%Q) grid)
    as (gs & Hgs & Hall).
  { apply Forall_forall. intros p Hp.
    destruct (grid_num_ones (len a1) p) as (Hp0 & Hp100 & Hk);
      [unfold len; lia|done|].
    destruct (guard_passes p Hp0 Hp100) as [Hg0 Hg100].
    destruct (metrics_perfect_predictor argsort argsort_spec a1 p)
      as (acc & prec & rec & t & f & Hm & _ & _ & _ & Ht & Hf); [done..|].
    by eexists. }
  destruct (roc_points_ok argsort a1 a1 gs Hgs) as [s Hs].
  destruct (roc_points_inv argsort argsort_spec a1 a1 s Hs)
    as (g & gs' & Hgs' & -> & _ & _).
  rewrite Hgs in Hgs'. injection Hgs' as ->.
  apply Forall_cons in Hall as [_ Hall].
  unfold auc_overall. rewrite Hs.
  destruct fuel as [|fuel]; [lia|].
  rewrite monotonize_Qzeros.
  - eexists. split; [reflexivity|reflexivity].
  - apply Forall_fmap. eapply Forall_impl; [done|]. by intros ? [? _].
  - by rewrite !length_fmap.
Qed.

Lemma auc_overall_perfect_predictor_half_witness :
  distinct ascending_100 = true ∧ (100 ≤ length ascending_100)%nat ∧
  ∃ v, auc_overall reversing_argsort 1 ascending_100 ascending_100
       = Some (Ok v) ∧ (v == 1 # 2)%Q.
Proof.
  assert (distinct ascending_100 = true) as Hd by (vm_compute; reflexivity).
  assert (100 ≤ length ascending_100)%nat as Hn by (vm_compute; lia).
  split; [exact Hd|]. split; [exact Hn|].
  apply (auc_overall_perfect_predictor_half reversing_argsort
           reversing_argsort_spec 1 ascending_100 Hd Hn). lia.
Defined.

(** ** The loop only removes points *)

(** X8.  The loop is no sort: the points that leave it are points that
    entered it, with their values, in their order.  It pairs each fpr
    with the tpr it came with, and when the fpr sequence is strictly
    increasing already it removes nothing. *)
Theorem monotonize_only_removes (fuel : nat) (s r : list Q * list Q) :
  monotonize fuel s = Some r →
  zip r.1 r.2 `sublist_of` zip s.1 s.2 ∧
  r.1 `sublist_of` s.1 ∧ r.2 `sublist_of` s.2 ∧
  (length s.1 = length s.2 → length r.1 = length r.2) ∧
  (strictly_increasing s.1 = true → r = s).
Proof.
  intros Hrun. split_and!.
  - revert Hrun.
    apply (monotonize_invariant
             (λ s', zip s'.1 s'.2 `sublist_of` zip s.1 s.2)); [|done].
    intros [f t] Hsub _. rewrite monotonize_pass_select. cbn [fst snd] in *.
    rewrite zip_select. etrans; [apply select_sublist|done].
  - revert Hrun.
    apply (monotonize_invariant (λ s', s'.1 `sublist_of` s.1)); [|done].
    intros [f t] Hsub _. rewrite monotonize_pass_select. cbn [fst snd] in *.
    etrans; [apply select_sublist|done].
  - revert Hrun.
    apply (monotonize_invariant (λ s', s'.2 `sublist_of` s.2)); [|done].
    intros [f t] Hsub _. rewrite monotonize_pass_select. cbn [fst snd] in *.
    etrans; [apply select_sublist|done].
  - intros Hlen. revert Hrun.
    apply (monotonize_invariant (λ s', length s'.1 = length s'.2)); [|done].
    intros [f t] Hl _. rewrite monotonize_pass_select. cbn [fst snd] in *.
    by apply length_select_eq.
  - intros Hsi. destruct fuel; simpl in Hrun; rewrite Hsi in Hrun;
      by injection Hrun.
Qed.

Lemma monotonize_only_removes_witness :
  monotonize 3 ([0; 1 # 2; 1 # 4; 1]%Q, [0; 1 # 3; 2 # 3; 1]%Q)
  = Some ([0; 1 # 2; 1]%Q, [0; 1 # 3; 1]%Q) ∧
  zip [0; 1 # 2; 1]%Q [0; 1 # 3; 1]%Q
  `sublist_of` zip [0; 1 # 2; 1 # 4; 1]%Q [0; 1 # 3; 2 # 3; 1]%Q.
Proof.
  assert (monotonize 3 ([0; 1 # 2; 1 # 4; 1]%Q, [0; 1 # 3; 2 # 3; 1]%Q)
          = Some ([0; 1 # 2; 1]%Q, [0; 1 # 3; 1]%Q)) as Hrun by reflexivity.
  split; [exact Hrun|].
  apply (monotonize_only_removes 3 _ _ Hrun).
Defined.

(** * Further properties of [DropMissing] *)

(** What [fit] stores for a threshold [th]. *)
Definition missing_of (X : pd.table) : list (string * option Q) :=
  (λ nc : string * pd.column, (nc.1, pd.isna_mean nc.2)) <$> X.

Definition dropped (th : Q) (X : pd.table) : list string :=
  (filter (λ nf : string * option Q, pd.flt (Some th) nf.2 = true)
     (missing_of X)).*1.

Definition kept (th : Q) (X : pd.table) : list string :=
  (filter (λ nf : string * option Q, pd.fle nf.2 (Some th) = true)
     (missing_of X)).*1.

Definition fitted (th : Q) (X : pd.table) : DropMissing.t :=
  DropMissing.Make (Some th) (Some (missing_of X))
    (Some (dropped th X)) (Some (kept th X)).

Lemma dropmissing_fit_run (th : Q) (X : pd.table) :
  DropMissing.fit (DropMissing.init (Some th)) X = Ok (fitted th X).
Proof. done. Qed.

Lemma elem_of_dropped (th : Q) (X : pd.table) (n : string) :
  n ∈ dropped th X ↔ ∃ c, (n, c) ∈ X ∧ exceeds th c.
Proof.
  unfold dropped, missing_of. rewrite list_elem_of_fmap. split.
  - intros ([n' f] & -> & Hin). apply list_elem_of_filter in Hin as [Hf Hin].
    apply list_elem_of_fmap in Hin as ([n c] & [= -> ->] & Hin).
    exists c. split; [done|]. by apply flt_exceeds.
  - intros (c & Hin & Hc). exists (n, pd.isna_mean c). split; [done|].
    apply list_elem_of_filter. split; [by apply flt_exceeds|].
    apply list_elem_of_fmap. by exists (n, c).
Qed.


Lemma missing_of_names (X : pd.table) : (missing_of X).*1 = X.*1.
Proof. unfold missing_of. rewrite <-list_fmap_compose. done. Qed.

Lemma dropped_sublist (th : Q) (X : pd.table) : dropped th X `sublist_of` X.*1.
Proof.
  rewrite <-missing_of_names. unfold dropped.
  apply fmap_sublist, sublist_filter.
Qed.


(** The missing fraction of a column with rows is a number in [0, 1]; a
    column without rows has none. *)
Lemma isna_mean_bounds (c : pd.column) :
  match pd.isna_mean c with
  | Some f => pd.size c ≠ 0%nat ∧ (0 <= f)%Q ∧ (f <= 1)%Q
  | None => pd.size c = 0%nat
  end.
Proof.
  unfold pd.isna_mean. case_decide as Hsize; [done|]. split; [done|].
  apply Zfrac_bounds; [|lia]. split; [lia|].
  apply inj_le. destruct c as [cells|cells|cells]; cbn [pd.size];
    [apply length_filter|lia|apply length_filter].
Qed.



(** ** [transform] on any table *)

Lemma drop_run (labels : list string) (Y : pd.table) :
  (labels ⊆ Y.*1 →
   pd.drop labels Y = Ok (filter (λ nc, nc.1 ∉ labels) Y)) ∧
  (¬ (labels ⊆ Y.*1) →
   ∃ l, l ∈ labels ∧ (l ∉ Y.*1) ∧ pd.drop labels Y = Err (KeyError l)).
Proof.
  unfold pd.drop. split.
  - intros Hsub. rewrite (proj2 (list_find_None _ labels)); [done|].
    apply Forall_forall. intros l Hl Hnot. apply Hnot. by apply Hsub.
  - intros Hnot.
    destruct (list_find (λ l, l ∉ Y.*1) labels) as [[i l]|] eqn:E.
    + apply list_find_Some in E as (Hi & Hl & _).
      exists l. split_and!; [by eapply list_elem_of_lookup_2|done|done].
    + destruct Hnot. intros l Hl.
      rewrite list_find_None, Forall_forall in E.
      specialize (E l Hl). by apply dec_stable in E.
Qed.

(** X10.  [transform] works on any table, not only the fitted one.  When
    every column that [fit] chose to drop is a column of the table, it
    returns the table without those columns: the remaining columns keep
    their order and their values, whether [fit] saw them or not.  When one
    of them is missing from the table, it raises [KeyError] for a missing
    one, and before [fit] it raises [AttributeError]. *)
Theorem dropmissing_transform_any_table (self : DropMissing.t) (Y : pd.table) :
  match DropMissing.cols_to_drop self with
  | None => ∃ msg, DropMissing.transform self Y = Err (AttributeError msg)
  | Some labels =>
      (labels ⊆ Y.*1 →
       ∃ Y', DropMissing.transform self Y = Ok Y' ∧
             Y' `sublist_of` Y ∧
             (∀ n c, (n, c) ∈ Y' ↔ (n, c) ∈ Y ∧ n ∉ labels)) ∧
      (¬ (labels ⊆ Y.*1) →
       ∃ l, l ∈ labels ∧ (l ∉ Y.*1) ∧
            DropMissing.transform self Y = Err (KeyError l))
  end.
Proof.
  unfold DropMissing.transform.
  destruct (DropMissing.cols_to_drop self) as [labels|]; [|by eexists].
  destruct (drop_run labels Y) as [Hok Herr]. split; [|done].
  intros Hsub. rewrite (Hok Hsub). eexists. split_and!; [done| |].
  - apply sublist_filter.
  - intros n c. rewrite list_elem_of_filter. cbn [fst]. tauto.
Qed.

(** X11.  [transform] cannot be applied twice: on the table it was fitted
    on it returns, and on its own output it raises [KeyError] as soon as
    [fit] chose one column to drop, that column being gone.  When [fit]
    chose none, both calls return the table unchanged. *)
Theorem dropmissing_transform_twice_raises (X : pd.table) (th : Q) :
  ∃ self labels X',
    DropMissing.fit (DropMissing.init (Some th)) X = Ok self ∧
    DropMissing.cols_to_drop self = Some labels ∧
    DropMissing.transform self X = Ok X' ∧
    (labels = [] → X' = X ∧ DropMissing.transform self X' = Ok X) ∧
    (labels ≠ [] →
     ∃ l, l ∈ labels ∧ DropMissing.transform self X' = Err (KeyError l)).
Proof.
  exists (fitted th X), (dropped th X),
    (filter (λ nc, nc.1 ∉ dropped th X) X).
  assert (dropped th X ⊆ X.*1) as Hsub.
  { apply sublist_subseteq, dropped_sublist. }
  assert (pd.drop (dropped th X) X
          = Ok (filter (λ nc, nc.1 ∉ dropped th X) X)) as Hfirst.
  { by apply drop_run. }
  split_and!; [apply dropmissing_fit_run|done|done| |].
  - intros Hnil. unfold DropMissing.transform, fitted.
    cbn [DropMissing.cols_to_drop]. rewrite Hnil in *.
    assert (filter (λ nc : string * pd.column, nc.1 ∉ []) X = X) as Hid.
    { clear. induction X as [|nc X IH]; [done|].
      rewrite filter_cons_True by (apply not_elem_of_nil). by rewrite IH. }
    rewrite Hid. split; [done|]. by rewrite Hid in Hfirst.
  - intros Hne. unfold DropMissing.transform, fitted.
    cbn [DropMissing.cols_to_drop].
    destruct (drop_run (dropped th X)
                (filter (λ nc, nc.1 ∉ dropped th X) X)) as [_ Herr].
    destruct Herr as (l & Hl & _ & ->); [|by exists l].
    destruct (dropped th X) as [|l0 ls] eqn:E; [done|].
    intros Hsub'. assert (l0 ∈ l0 :: ls) as Hl0 by left.
    apply Hsub', list_elem_of_fmap in Hl0 as ([n c] & -> & Hin).
    apply list_elem_of_filter in Hin as [Hnot _]. apply Hnot. left.
Qed.

(** X12.  The two ends of the threshold.  With a threshold of 1 or more
    [fit] chooses no column and [transform] returns the table as it is;
    with a negative threshold [fit] chooses every column that has rows. *)
Theorem dropmissing_threshold_extremes (X : pd.table) (th : Q) :
  ∃ self labels,
    DropMissing.fit (DropMissing.init (Some th)) X = Ok self ∧
    DropMissing.cols_to_drop self = Some labels ∧
    ((1 <= th)%Q → labels = [] ∧ DropMissing.transform self X = Ok X) ∧
    ((th < 0)%Q →
     ∀ n c, (n, c) ∈ X → pd.size c ≠ 0%nat → n ∈ labels).
Proof.
  exists (fitted th X), (dropped th X).
  split_and!; [apply dropmissing_fit_run|done| |].
  - intros Hth.
    assert (dropped th X = []) as Hnil.
    { destruct (dropped th X) as [|n ns] eqn:E; [done|].
      assert (n ∈ dropped th X) as Hn by (rewrite E; left).
      apply elem_of_dropped in Hn as (c & _ & f & Ef & Hf).
      pose proof (isna_mean_bounds c) as Hb. rewrite Ef in Hb. lra. }
    split; [done|]. unfold DropMissing.transform, fitted.
    cbn [DropMissing.cols_to_drop]. rewrite Hnil. unfold pd.drop.
    cbn [list_find]. f_equal.
    clear. induction X as [|nc X IH]; [done|].
    rewrite filter_cons_True by (apply not_elem_of_nil). by rewrite IH.
  - intros Hth n c Hin Hsize. apply elem_of_dropped. exists c.
    split; [done|]. pose proof (isna_mean_bounds c) as Hb.
    destruct (pd.isna_mean c) as [f|] eqn:Ef; [|done].
    exists f. split; [done|]. lra.
Qed.

(** * Further properties of [Winsorizer] *)

Lemma valid_iff (q : Q) : quantile.valid q = true ↔ (0 <= q)%Q ∧ (q <= 1)%Q.
Proof. unfold quantile.valid. by rewrite andb_true_iff, !Qle_bool_iff. Qed.

(** With a fraction outside [0, 1], [quantile] raises on the first numeric
    column. *)
Lemma mapM_fit_column_invalid_error (qs : Q * Q) (Xv : pd.table) :
  NoDup Xv.*1 →
  quantile.valid qs.1 && quantile.valid qs.2 = false →
  numeric_names Xv ≠ [] →
  mapM (Winsorizer.fit_column qs Xv) (numeric_names Xv)
  = Err (ValueError "percentiles should all be in the interval [0, 1]").
Proof.
  intros Hnd Hinvalid Hne.
  destruct (numeric_names Xv) as [|n ns] eqn:E; [done|].
  rewrite mapM_result_cons.
  assert (n ∈ numeric_names Xv) as Hn by (rewrite E; left).
  apply elem_of_numeric_names in Hn as (c & Hin & Hnum).
  assert (Winsorizer.fit_column qs Xv n
          = Err (ValueError "percentiles should all be in the interval [0, 1]"))
    as ->; [|done].
  unfold Winsorizer.fit_column.
  rewrite (elem_of_get_col n c Xv Hnd Hin).
  apply as_floats_numeric in Hnum as [vals ->].
  unfold quantile.quantile2. by rewrite Hinvalid.
Qed.

(** X13.  [fit] on a table with distinct column names returns exactly
    when both fractions lie in [0, 1] or the table has no numeric column
    to take a quantile of; otherwise it raises the [ValueError] of
    [quantile].  Either way it leaves every table as it was. *)
Theorem winsorizer_fit_returns_iff
    (l : Winsorizer.limits_t) (X : heap.loc) (h : heap.store) (Xv : pd.table) :
  let qs := Winsorizer.resolve_limits l in
  let fractions_valid :=
    ((0 <= qs.1)%Q ∧ (qs.1 <= 1)%Q) ∧ ((0 <= qs.2)%Q ∧ (qs.2 <= 1)%Q) in
  let no_numeric_column :=
    ∀ n c, (n, c) ∈ Xv → pd.is_numeric_dtype c = false in
  h !! X = Some Xv → NoDup Xv.*1 →
  (Winsorizer.fit (Winsorizer.init l) X h).2 = h ∧
  ((∃ self, (Winsorizer.fit (Winsorizer.init l) X h).1 = Ok self)
   ↔ fractions_valid ∨ no_numeric_column) ∧
  (¬ (fractions_valid ∨ no_numeric_column) →
   (Winsorizer.fit (Winsorizer.init l) X h).1
   = Err (ValueError "percentiles should all be in the interval [0, 1]")).
Proof.
  intros qs fractions_valid no_numeric_column HX Hnd.
  assert (numeric_names Xv = [] ↔ no_numeric_column) as Hnone.
  { unfold no_numeric_column. split.
    - intros Hnil n c Hin. apply not_true_iff_false. intros Hnum.
      assert (n ∈ numeric_names Xv) as Hn
        by (apply elem_of_numeric_names; by exists c).
      rewrite Hnil in Hn. by inv Hn.
    - intros Hno. destruct (numeric_names Xv) as [|n ns] eqn:E; [done|].
      assert (n ∈ numeric_names Xv) as Hn by (rewrite E; left).
      apply elem_of_numeric_names in Hn as (c & Hin & Hnum).
      rewrite (Hno n c Hin) in Hnum. done. }
  assert (quantile.valid qs.1 && quantile.valid qs.2 = true
          ↔ fractions_valid) as Hvalid.
  { unfold fractions_valid. by rewrite andb_true_iff, !valid_iff. }
  rewrite (fit_unfold l X h Xv HX). fold qs.
  destruct (quantile.valid qs.1 && quantile.valid qs.2) eqn:Ev.
  - rewrite mapM_fit_column; [|done|intros n c Hin; by apply elem_of_get_col].
    cbn [fst snd]. split_and!; [done| |].
    + split; [intros _; left; by apply Hvalid|by eexists].
    + intros Hnot. destruct Hnot. left. by apply Hvalid.
  - destruct (decide (numeric_names Xv = [])) as [Hnil|Hne].
    + rewrite Hnil. cbn. split_and!; [done| |].
      * split; [intros _; right; by apply Hnone|by eexists].
      * intros Hnot. destruct Hnot. right. by apply Hnone.
    + rewrite mapM_fit_column_invalid_error by done. cbn [fst snd].
      split_and!; [done| |done].
      split; [by intros [? [=]]|].
      intros [Hv|Hno]; [apply Hvalid in Hv; congruence|].
      by apply Hnone in Hno.
Qed.

Lemma winsorizer_fit_returns_iff_witness :
  let Xv := [("a"%string, pd.IntCol [1; 2; 3])] in
  let h : heap.store := {[ 1%positive := Xv ]} in
  let l := Winsorizer.LimitsFloat (3 # 2) in
  h !! 1%positive = Some Xv ∧ NoDup Xv.*1 ∧
  Winsorizer.fit (Winsorizer.init l) 1%positive h
  = (Err (ValueError "percentiles should all be in the interval [0, 1]"), h).
Proof.
  intros Xv h l.
  assert (h !! 1%positive = Some Xv) as HX by reflexivity.
  assert (NoDup Xv.*1) as Hnd.
  { apply (bool_decide_unpack _). vm_compute. exact I. }
  split; [exact HX|]. split; [exact Hnd|].
  destruct (winsorizer_fit_returns_iff l 1%positive h Xv HX Hnd)
    as (Hstore & _ & Herr).
  rewrite (surjective_pairing (Winsorizer.fit _ _ _)), Hstore, Herr;
    [reflexivity|].
  intros [[[_ H] _]|Hno].
  - revert H. apply Qlt_not_le. reflexivity.
  - specialize (Hno "a"%string (pd.IntCol [1; 2; 3])).
    discriminate Hno. left.
Defined.

(** ** Clipping twice *)

Definition trim_value (low high x : option Q) : option Q :=
  Winsorizer.to_float
    (Winsorizer.trim (Winsorizer.SFloat x)
       (Winsorizer.SFloat low) (Winsorizer.SFloat high)).

Lemma trim_value_Some (low high : option Q) (v : Q) :
  trim_value low high (Some v)
  = let a := if pd.flt (Some v) low then low else Some v in
    if pd.flt high a then high else a.
Proof.
  unfold trim_value, Winsorizer.trim. cbn [Winsorizer.to_float].
  rewrite bool_decide_eq_false_2 by done. cbn zeta.
  by destruct (pd.flt (Some v) low), (pd.flt high _).
Qed.

Ltac Qlt_cases :=
  repeat match goal with
         | |- context [Qlt_bool ?a ?b] =>
             let E := fresh "E" in
             destruct (Qlt_bool a b) eqn:E;
             [apply Qlt_bool_iff in E
             |apply not_true_iff_false in E; rewrite Qlt_bool_iff in E]
         end.

(** A value that [trim] returned is returned unchanged by a second
    [trim] with the same bounds, whatever the bounds. *)
Lemma trim_value_idem (low high x : option Q) :
  trim_value low high (trim_value low high x) = trim_value low high x.
Proof.
  destruct x as [v|]; [|done]. rewrite (trim_value_Some low high v).
  destruct low as [lo|], high as [hi|]; cbn [pd.flt]; cbn zeta;
    Qlt_cases; rewrite trim_value_Some; cbn [pd.flt]; cbn zeta;
    Qlt_cases; try done; exfalso; lra.
Qed.

Lemma trim_floats_values (cells : list (option Q)) (low high : option Q) :
  Winsorizer.to_float <$> trim_floats cells low high
  = trim_value low high <$> cells.
Proof. unfold trim_floats. by rewrite <-list_fmap_compose. Qed.

Lemma trim_vec_Ok_inv (c c' : pd.column) (low high : option Q) :
  Winsorizer.trim_vec c low high = Ok c' →
  pd.size c ≠ 0%nat ∧
  ∀ cells, c = pd.ObjCol cells → c' = c ∧ Forall (λ x, x = None) cells.
Proof.
  destruct c as [cells|cells|cells]; unfold Winsorizer.trim_vec.
  - destruct cells; [done|]. by intros _.
  - destruct cells; [done|]. by intros _.
  - case_decide as Hnil; [done|].
    destruct (forallb _ cells) eqn:Hall; [|done]. intros [= <-].
    split; [by destruct cells|]. intros ? [= <-]. split; [done|].
    apply Forall_forall. intros x Hx. rewrite forallb_forall in Hall.
    apply list_elem_of_In, Hall in Hx. by apply bool_decide_eq_true in Hx.
Qed.

(** On a column that is not an integer column a second [trim_vec] with
    the same bounds changes nothing. *)
Lemma trim_vec_idem (c c' : pd.column) (low high : option Q) :
  (∀ cells, c ≠ pd.IntCol cells) →
  Winsorizer.trim_vec c low high = Ok c' →
  (∀ cells, c' ≠ pd.IntCol cells) ∧ Winsorizer.trim_vec c' low high = Ok c'.
Proof.
  intros Hint Hrun. destruct c as [cells|cells|cells].
  - assert (cells ≠ []) as Hne by (by intros ->).
    apply trim_vec_float_inv in Hrun as ->. split; [done|].
    rewrite trim_floats_values, trim_vec_float, trim_floats_values
      by (by destruct cells).
    do 2 f_equal. rewrite <-list_fmap_compose. apply list_fmap_ext.
    intros i x _. apply trim_value_idem.
  - by destruct (Hint cells).
  - destruct (trim_vec_Ok_inv _ _ _ _ Hrun) as [_ H].
    destruct (H cells eq_refl) as [-> _]. done.
Qed.

Lemma set_col_same (name : string) (c : pd.column) (T : pd.table) :
  pd.get_col name T = Some c → pd.set_col name c T = T.
Proof.
  induction T as [|[n c0] T IH]; [done|]. cbn [pd.get_col pd.set_col].
  case_decide as E; [by intros [= ->]|]. intros H. by rewrite IH.
Qed.

Lemma trim_columns_idem (td : list (string * (option Q * option Q)))
    (T T' : pd.table) :
  NoDup td.*1 →
  (∀ name cells, name ∈ td.*1 → pd.get_col name T ≠ Some (pd.IntCol cells)) →
  trim_columns td T = Ok T' → trim_columns td T' = Ok T'.
Proof.
  revert T. induction td as [|item td IH]; intros T Hnd Hint; [done|].
  csimpl in Hnd. apply NoDup_cons in Hnd as [Hnotin Hnd].
  cbn [trim_columns]. intros (T1 & H1 & H2)%bind_Ok.
  pose proof H1 as H1'. unfold trim_column in H1'.
  destruct (pd.get_col item.1 T) as [c|] eqn:Hc; [|done].
  apply bind_Ok in H1' as (c' & Hc' & [= <-]).
  destruct (trim_vec_idem c c' item.2.1 item.2.2) as [_ Hidem]; [|done|].
  { intros cells ->. eapply Hint; [|done]. csimpl. left. }
  assert (pd.get_col item.1 T' = Some c') as HT'.
  { rewrite (trim_columns_other _ _ _ _ H2 Hnotin).
    apply get_col_set_col_eq. }
  unfold trim_column at 1. rewrite HT', Hidem. cbn [mbind result_bind].
  rewrite (set_col_same _ _ _ HT').
  apply (IH (pd.set_col item.1 c' T)); [done| |done].
  intros name cells Hname.
  rewrite get_col_set_col_ne.
  - apply Hint. csimpl. by right.
  - intros <-. done.
Qed.

(** X14.  Winsorizing twice changes nothing more, on columns that are not
    integer columns: [transform] applied to the table that [transform]
    returned returns a new table with the same columns and the same
    values. *)
Theorem winsorizer_transform_idempotent
    (self : Winsorizer.t) (td : list (string * (option Q * option Q)))
    (X X_t : heap.loc) (h h' : heap.store) (Xv : pd.table) :
  h !! X = Some Xv →
  Winsorizer.threshold_dict_ self = Some td → NoDup td.*1 →
  (∀ name cells, name ∈ td.*1 → pd.get_col name Xv ≠ Some (pd.IntCol cells)) →
  Winsorizer.transform self X h = (Ok X_t, h') →
  ∃ T' X_t2 h2,
    h' !! X_t = Some T' ∧
    Winsorizer.transform self X_t h' = (Ok X_t2, h2) ∧
    X_t2 ≠ X_t ∧ h2 !! X_t2 = Some T' ∧ h2 !! X_t = Some T'.
Proof.
  intros HX Htd Hnd Hint Hrun.
  destruct (transform_run self X h Xv HX) as (r & T' & Hrun' & Hr).
  rewrite Hrun in Hrun'. injection Hrun' as <- ->.
  destruct Hr as (-> & td' & Htd' & Htrim).
  rewrite Htd in Htd'. injection Htd' as <-.
  set (X_t := fresh (dom h)) in *. set (h' := <[X_t := T']> h) in *.
  assert (h' !! X_t = Some T') as HX_t by apply lookup_insert_eq.
  pose proof (trim_columns_idem td Xv T' Hnd Hint Htrim) as Hidem.
  destruct (transform_run self X_t h' T' HX_t) as (r2 & T2 & Hrun2 & Hr2).
  destruct r2 as [X_t2|e]; [|by rewrite (Hr2 td Htd) in Hidem].
  destruct Hr2 as (-> & td' & Htd' & Htrim2).
  rewrite Htd in Htd'. injection Htd' as <-.
  rewrite Hidem in Htrim2. injection Htrim2 as <-.
  assert (fresh (dom h') ≠ X_t) as Hne.
  { intros E. assert (X_t ∉ dom h') as Hf by (rewrite <-E; apply is_fresh).
    apply Hf, elem_of_dom. by exists T'. }
  exists T', (fresh (dom h')), (<[fresh (dom h') := T']> h').
  split_and!; [done|done|done|apply lookup_insert_eq|].
  by rewrite lookup_insert_ne.
Qed.

Lemma winsorizer_transform_idempotent_witness :
  let Xv := [("a"%string, pd.FloatCol [Some 1%Q; None; Some 3%Q; Some 2%Q]);
             ("b"%string, pd.ObjCol [Some "x"%string; None; None; None])] in
  let h : heap.store := {[ 1%positive := Xv ]} in
  let td := [("a"%string, (Some (12 # 10)%Q, Some (28 # 10)%Q))] in
  let self := Winsorizer.Make (Winsorizer.LimitsPair (1 # 10) (9 # 10))
                (Some ["a"%string]) (Some td) in
  ∃ X_t h' T' X_t2 h2,
    Winsorizer.transform self 1%positive h = (Ok X_t, h') ∧
    h' !! X_t = Some T' ∧
    Winsorizer.transform self X_t h' = (Ok X_t2, h2) ∧
    h2 !! X_t2 = Some T'.
Proof.
  intros Xv h td self.
  assert (h !! 1%positive = Some Xv) as HX by reflexivity.
  assert (NoDup td.*1) as Hnd.
  { apply (bool_decide_unpack _). vm_compute. exact I. }
  assert (∀ name cells, name ∈ td.*1 →
            pd.get_col name Xv ≠ Some (pd.IntCol cells)) as Hint.
  { intros name cells Hname. apply list_elem_of_singleton in Hname as ->.
    discriminate. }
  destruct (Winsorizer.transform self 1%positive h) as [[X_t|e] h'] eqn:Hrun;
    [|vm_compute in Hrun; discriminate Hrun].
  destruct (winsorizer_transform_idempotent self td 1%positive X_t h h' Xv
              HX eq_refl Hnd Hint Hrun) as (T' & X_t2 & h2 & H1 & H2 & _ & H3 & _).
  by exists X_t, h', T', X_t2, h2.
Defined.

(** X16.  [transform] returns only when every column of the fitted
    dictionary is a column of the table and has at least one row, and,
    where it is a column of strings, holds no string.  On any other table
    it raises. *)
Theorem winsorizer_transform_requires_fitted_columns
    (self : Winsorizer.t) (td : list (string * (option Q * option Q)))
    (X X_t : heap.loc) (h h' : heap.store) (Xv : pd.table) :
  h !! X = Some Xv →
  Winsorizer.threshold_dict_ self = Some td → NoDup td.*1 →
  Winsorizer.transform self X h = (Ok X_t, h') →
  ∀ name, name ∈ td.*1 →
    ∃ c, pd.get_col name Xv = Some c ∧ pd.size c ≠ 0%nat ∧
         ∀ cells, c = pd.ObjCol cells → Forall (λ x, x = None) cells.
Proof.
  intros HX Htd Hnd Hrun name Hname.
  destruct (transform_run self X h Xv HX) as (r & T' & Hrun' & Hr).
  rewrite Hrun in Hrun'. injection Hrun' as <- ->.
  destruct Hr as (_ & td' & Htd' & Htrim).
  rewrite Htd in Htd'. injection Htd' as <-.
  apply list_elem_of_fmap in Hname as ([n [low high]] & -> & Hin).
  destruct (trim_columns_configured td Xv T' n low high Htrim Hnd Hin)
    as (c & c' & Hc & Hc' & _).
  exists c. split; [done|].
  destruct (trim_vec_Ok_inv _ _ _ _ Hc') as [Hsize Hobj]. split; [done|].
  intros cells E. by destruct (Hobj cells E).
Qed.

Lemma winsorizer_transform_requires_fitted_columns_witness :
  let Xv := [("a"%string, pd.FloatCol [Some 1%Q; None; Some 3%Q; Some 2%Q])] in
  let h : heap.store := {[ 1%positive := Xv ]} in
  let td := [("a"%string, (Some (12 # 10)%Q, Some (28 # 10)%Q))] in
  let self := Winsorizer.Make (Winsorizer.LimitsPair (1 # 10) (9 # 10))
                (Some ["a"%string]) (Some td) in
  ∃ X_t h' c,
    Winsorizer.transform self 1%positive h = (Ok X_t, h') ∧
    pd.get_col "a" Xv = Some c ∧ pd.size c ≠ 0%nat.
Proof.
  intros Xv h td self.
  assert (h !! 1%positive = Some Xv) as HX by reflexivity.
  assert (NoDup td.*1) as Hnd.
  { apply (bool_decide_unpack _). vm_compute. exact I. }
  destruct (Winsorizer.transform self 1%positive h) as [[X_t|e] h'] eqn:Hrun;
    [|vm_compute in Hrun; discriminate Hrun].
  destruct (winsorizer_transform_requires_fitted_columns self td 1%positive
              X_t h h' Xv HX eq_refl Hnd Hrun "a"%string)
    as (c & Hc & Hsize & _); [left|].
  by exists X_t, h', c.
Defined.

(** ** The fitted bounds are attained *)

(** A quantile lies between the smallest and the largest value. *)
Lemma at_fraction_between (vals : list Q) (q : Q) :
  Sorted Qle vals → vals ≠ [] → (0 <= q)%Q → (q <= 1)%Q →
  ∃ r, quantile.at_fraction q vals = Some r ∧
       (nth 0 vals 0 <= r)%Q ∧ (r <= nth (length vals - 1) vals 0)%Q.
Proof.
  intros Hs Hne Hq0 Hq1. rewrite at_fraction_eq by done.
  eexists. split; [done|].
  destruct (position_bounds vals q) as (Hf & Hi & Hl & Hu); [done..|].
  pose proof (lower_le_upper vals q Hs Hne Hq0 Hq1) as Hlu.
  set (i := Z.to_nat (Qfloor (position vals q))) in *.
  assert (nth 0 vals 0 <= lower vals q)%Q as Hmin.
  { unfold lower. fold i. apply Sorted_nth_le; [done|lia|done]. }
  assert (upper vals q <= nth (length vals - 1) vals 0)%Q as Hmax.
  { unfold upper. fold i.
    destruct (decide (i + 1 < length vals)%nat).
    - apply Sorted_nth_le; [done|lia|lia].
    - rewrite nth_overflow by lia. unfold lower. fold i.
      apply Sorted_nth_le; [done|lia|lia]. }
  set (frac := (position vals q - inject_Z (Qfloor (position vals q)))%Q).
  assert (0 <= frac)%Q by (unfold frac; lra).
  assert (frac < 1)%Q by (unfold frac; lra).
  split; nra.
Qed.

Lemma elem_of_sorted_values (cells : list (option Q)) (v : Q) :
  v ∈ quantile.sorted_values cells ↔ Some v ∈ cells.
Proof.
  unfold quantile.sorted_values. rewrite merge_sort_Permutation.
  rewrite list_elem_of_omap. split.
  - by intros ([x|] & Hx & [= ->]).
  - intros Hv. by exists (Some v).
Qed.

Lemma fitted_bounds_between (qs : Q * Q) (cells : list (option Q)) (v : Q) :
  (0 <= qs.1)%Q → (qs.1 <= qs.2)%Q → (qs.2 <= 1)%Q → Some v ∈ cells →
  ∃ lo hi vmin vmax,
    fitted_bounds qs cells = (Some lo, Some hi) ∧ (lo <= hi)%Q ∧
    Some vmin ∈ cells ∧ Some vmax ∈ cells ∧
    (vmin <= lo)%Q ∧ (hi <= vmax)%Q.
Proof.
  intros H0 H12 H1 Hv.
  destruct (fitted_bounds_ordered qs cells v) as (lo & hi & E & Hle);
    [done..|].
  set (vals := quantile.sorted_values cells) in *.
  assert (vals ≠ []) as Hne.
  { intros Hnil. apply elem_of_sorted_values in Hv. fold vals in Hv.
    rewrite Hnil in Hv. by inv Hv. }
  pose proof (sorted_values_Sorted cells) as Hs. fold vals in Hs.
  destruct (at_fraction_between vals qs.1 Hs Hne) as (r1 & E1 & Hmin & _);
    [lra..|].
  destruct (at_fraction_between vals qs.2 Hs Hne) as (r2 & E2 & _ & Hmax);
    [lra..|].
  unfold fitted_bounds in E. fold vals in E. rewrite E1, E2 in E.
  injection E as -> ->.
  assert (0 < length vals)%nat by (destruct vals; [done|simpl; lia]).
  exists lo, hi, (nth 0 vals 0%Q), (nth (length vals - 1) vals 0%Q).
  split_and!; [|done| | |done|done].
  - unfold fitted_bounds. fold vals. by rewrite E1, E2.
  - apply elem_of_sorted_values. fold vals.
    apply list_elem_of_In, nth_In. lia.
  - apply elem_of_sorted_values. fold vals.
    apply list_elem_of_In, nth_In. lia.
Qed.

Lemma trim_value_low (lo hi v : Q) :
  (lo <= hi)%Q → (v <= lo)%Q →
  ∃ x, trim_value (Some lo) (Some hi) (Some v) = Some x ∧ (x == lo)%Q.
Proof.
  intros Hle Hv. rewrite trim_value_Some. cbn [pd.flt]. cbn zeta.
  Qlt_cases; cbn [pd.flt]; Qlt_cases; try (exfalso; lra).
  - by exists lo.
  - exists v. split; [done|]. lra.
Qed.

Lemma trim_value_high (lo hi v : Q) :
  (lo <= hi)%Q → (hi <= v)%Q →
  ∃ x, trim_value (Some lo) (Some hi) (Some v) = Some x ∧ (x == hi)%Q.
Proof.
  intros Hle Hv. rewrite trim_value_Some. cbn [pd.flt]. cbn zeta.
  Qlt_cases; cbn [pd.flt]; Qlt_cases; try (exfalso; lra).
  - by exists hi.
  - exists v. split; [done|]. lra.
Qed.

(** X15.  After [fit] and [transform] on the same table, with fractions
    [0 <= q_low <= q_high <= 1], a float column that has at least one
    value has fitted bounds [low <= high], and both bounds occur in the
    output column: the smallest value of the output is [low] and the
    largest is [high]. *)
Theorem winsorizer_bounds_attained
    (l : Winsorizer.limits_t) (X X_t : heap.loc) (h h' : heap.store)
    (Xv : pd.table) (self : Winsorizer.t)
    (column : string) (cells : list (option Q)) (v : Q) :
  let qs := Winsorizer.resolve_limits l in
  h !! X = Some Xv → NoDup Xv.*1 →
  (0 <= qs.1)%Q → (qs.1 <= qs.2)%Q → (qs.2 <= 1)%Q →
  (column, pd.FloatCol cells) ∈ Xv → Some v ∈ cells →
  Winsorizer.fit (Winsorizer.init l) X h = (Ok self, h) →
  Winsorizer.transform self X h = (Ok X_t, h') →
  ∃ td low high T' cells' x_low x_high,
    Winsorizer.threshold_dict_ self = Some td ∧
    (column, (Some low, Some high)) ∈ td ∧ (low <= high)%Q ∧
    h' !! X_t = Some T' ∧
    pd.get_col column T' = Some (pd.FloatCol cells') ∧
    (∀ y, Some y ∈ cells' → (low <= y)%Q ∧ (y <= high)%Q) ∧
    Some x_low ∈ cells' ∧ (x_low == low)%Q ∧
    Some x_high ∈ cells' ∧ (x_high == high)%Q.
Proof.
  intros qs HX Hnd H0 H12 H1 Hin Hv Hfit Hrun.
  rewrite (fit_run l X h Xv HX Hnd) in Hfit.
  2:{ fold qs. rewrite andb_true_iff, !valid_iff. split_and!; lra. }
  injection Hfit as <-. fold qs in Hrun |- *.
  set (td := fitted_dict qs Xv) in *.
  set (self := Winsorizer.Make (Winsorizer.LimitsPair qs.1 qs.2)
                 (Some (numeric_names Xv)) (Some td)) in *.
  destruct (transform_run self X h Xv HX) as (r & T' & Hrun' & Hr).
  rewrite Hrun in Hrun'. injection Hrun' as <- ->.
  destruct Hr as (-> & td' & [= <-] & Htrim).
  destruct (fitted_bounds_between qs cells v)
    as (lo & hi & vmin & vmax & E & Hle & Hvmin & Hvmax & Hmin & Hmax);
    [done..|].
  assert ((column, (Some lo, Some hi)) ∈ td) as Hitem.
  { apply elem_of_fitted_dict. by exists (pd.FloatCol cells), cells. }
  assert (NoDup td.*1) as Hndtd.
  { unfold td. rewrite fitted_dict_names.
    apply (sublist_NoDup _ Xv.*1); [done|apply numeric_names_sublist]. }
  destruct (trim_columns_configured td Xv T' column (Some lo) (Some hi))
    as (c & c' & Hc & Hc' & HT'); [done..|].
  rewrite (elem_of_get_col column (pd.FloatCol cells) Xv) in Hc by done.
  injection Hc as <-. apply trim_vec_float_inv in Hc' as ->.
  rewrite trim_floats_values in HT'.
  destruct (trim_value_low lo hi vmin Hle Hmin) as (x_low & Exl & Hxl).
  destruct (trim_value_high lo hi vmax Hle Hmax) as (x_high & Exh & Hxh).
  exists td, lo, hi, T', (trim_value (Some lo) (Some hi) <$> cells),
    x_low, x_high.
  split_and!; [done|done|done|apply lookup_insert_eq|done| |
               |done| |done].
  - intros y Hy. apply list_elem_of_fmap in Hy as (x & Ey & Hx).
    pose proof (trim_clipped (Winsorizer.SFloat x) lo hi Hle) as Hclip.
    fold (trim_value (Some lo) (Some hi) x) in Hclip. rewrite <-Ey in Hclip.
    cbn [Winsorizer.to_float] in Hclip. destruct x as [x|]; [|done].
    destruct Hclip as (y' & lo' & hi' & [= <-] & [= <-] & [= <-] & ? & ?).
    done.
  - apply list_elem_of_fmap. by exists (Some vmin).
  - apply list_elem_of_fmap. by exists (Some vmax).
Qed.

Lemma winsorizer_bounds_attained_witness :
  let Xv := [("a"%string, pd.FloatCol [Some 1%Q; None; Some 3%Q; Some 2%Q])] in
  let h : heap.store := {[ 1%positive := Xv ]} in
  let l := Winsorizer.LimitsPair (1 # 10) (9 # 10) in
  ∃ self X_t h' td low high,
    Winsorizer.fit (Winsorizer.init l) 1%positive h = (Ok self, h) ∧
    Winsorizer.transform self 1%positive h = (Ok X_t, h') ∧
    Winsorizer.threshold_dict_ self = Some td ∧
    ("a"%string, (Some low, Some high)) ∈ td ∧ (low <= high)%Q.
Proof.
  intros Xv h l.
  assert (h !! 1%positive = Some Xv) as HX by reflexivity.
  assert (NoDup Xv.*1) as Hnd.
  { apply (bool_decide_unpack _). vm_compute. exact I. }
  destruct (Winsorizer.fit (Winsorizer.init l) 1%positive h)
    as [[self|e] h1] eqn:Hfit; [|vm_compute in Hfit; discriminate Hfit].
  assert (h1 = h) as -> by (vm_compute in Hfit; by injection Hfit).
  destruct (Winsorizer.transform self 1%positive h) as [[X_t|e] h'] eqn:Hrun.
  2:{ exfalso. revert Hrun. vm_compute in Hfit. injection Hfit as <-.
      vm_compute. discriminate. }
  destruct (winsorizer_bounds_attained l 1%positive X_t h h' Xv self
              "a"%string [Some 1%Q; None; Some 3%Q; Some 2%Q] 1 HX Hnd)
    as (td & low & high & _ & _ & _ & _ & Htd & Hitem & Hle & _);
    [intros H; discriminate H|intros H; discriminate H
    |intros H; discriminate H|left|left|done|done|].
  by exists self, X_t, h', td, low, high.
Defined.

(** * Further properties of [load_model] *)

(** The conventional location of a model. *)
Definition conventional (model out_path kind : string) : string :=
  fs.join (fs.join (fs.join out_path (kind +:+ "_models")) model) "model".

(** The subdirectory that line 199 creates. *)
Definition created_dir (model out_path kind : string) : string :=
  fs.join (fs.join out_path (kind +:+ "_models"))
    (fs.last_item (fs.split_slash model)).

(** X17.  The only thing [load_model] ever changes in the file system is
    the subdirectory of line 199, and it creates it only after it has
    loaded [model] as a file of its own, the conventional location being
    neither a file nor a directory.  Whenever it raises [ValueError],
    [ImportError] or a deserialization error, the file system is as it
    was. *)
Theorem load_model_only_creates_subdirectory
    (model out_path kind : string) (e : fs.env) :
  let r := (load_model model out_path kind e).1 in
  let e' := (load_model model out_path kind e).2 in
  (e' = e ∨
   (fs.is_file e (conventional model out_path kind) = false ∧
    fs.is_dir e (conventional model out_path kind) = false ∧
    (∃ o, fs.nodes e !! model = Some (fs.Pickle o)) ∧
    e' = make_dir (created_dir model out_path kind) e)) ∧
  fs.autogluon e' = fs.autogluon e ∧
  (∀ p, p ≠ created_dir model out_path kind →
        fs.nodes e' !! p = fs.nodes e !! p) ∧
  (∀ msg, r = Err (ValueError msg) ∨ r = Err (ImportError msg)
          ∨ r = Err (UnpicklingError msg) →
          e' = e).
Proof.
  intros r e'. unfold r, e', load_model, resolve_model.
  fold (conventional model out_path kind).
  fold (created_dir model out_path kind).
  destruct (fs.is_file e (conventional model out_path kind)) eqn:Hfile.
  { destruct (fs.load e (conventional model out_path kind)) as [o|x];
      cbn [mbind result_bind]; destruct (String.eqb kind "tuned");
      cbn [fst snd]; split_and!; auto. }
  destruct (fs.is_dir e (conventional model out_path kind)) eqn:Hdir.
  { destruct (fs.autogluon e) eqn:Hauto; destruct (String.eqb kind "tuned");
      cbn [fst snd]; split_and!; auto. }
  destruct (fs.is_file e model) eqn:Hmodel.
  2:{ cbn [fst snd]. split_and!; auto. }
  unfold fs.is_file in Hmodel. unfold fs.load.
  destruct (fs.nodes e !! model) as [[o| |]|] eqn:Hnode; try done.
  - assert (∀ p, p ≠ created_dir model out_path kind →
              fs.nodes (make_dir (created_dir model out_path kind) e) !! p
              = fs.nodes e !! p) as Hframe.
    { intros p Hp. unfold make_dir. cbn [fs.nodes].
      by rewrite lookup_insert_ne. }
    destruct (String.eqb kind "tuned"); cbn [fst snd].
    + split_and!; [right; split_and!; eauto|done|done|].
      intros msg. destruct o; cbn; intros [H|[H|H]]; discriminate H.
    + split_and!; [right; split_and!; eauto|done|done|].
      intros msg [H|[H|H]]; discriminate H.
  - cbn [fst snd]. split_and!; auto.
Qed.

Lemma unrecognized_differs (o : fs.model_obj) (name : string) :
  (m ← fs.best_estimator_ o; Ok (name, m))
  ≠ Err (ValueError
           "The 'model' argument should be a path or a recognized model name").
Proof. by destruct o. Qed.

(** X18.  [load_model] raises the [ValueError] of line 201 exactly when
    the conventional location is neither a file nor a directory and
    [model] is not the path of a file; the file system is then as it
    was. *)
Theorem load_model_unrecognized_iff
    (model out_path kind : string) (e : fs.env) :
  let unrecognized :=
    Err (ValueError
           "The 'model' argument should be a path or a recognized model name") in
  ((load_model model out_path kind e).1 = unrecognized
   ↔ fs.is_file e (conventional model out_path kind) = false ∧
     fs.is_dir e (conventional model out_path kind) = false ∧
     fs.is_file e model = false) ∧
  ((load_model model out_path kind e).1 = unrecognized →
   (load_model model out_path kind e).2 = e).
Proof.
  intros unrecognized.
  assert ((load_model model out_path kind e).1 = unrecognized
          ↔ fs.is_file e (conventional model out_path kind) = false ∧
            fs.is_dir e (conventional model out_path kind) = false ∧
            fs.is_file e model = false) as Hiff.
  { unfold unrecognized, load_model, resolve_model.
    fold (conventional model out_path kind).
    fold (created_dir model out_path kind).
    destruct (fs.is_file e (conventional model out_path kind)) eqn:Hfile.
    { split; [|by intros [? _]]. unfold fs.is_file, fs.load in *.
      destruct (fs.nodes e !! conventional model out_path kind)
        as [[o| |]|]; try done; cbn [mbind result_bind];
        destruct (String.eqb kind "tuned"); cbn [fst]; try done.
      intros H. by apply unrecognized_differs in H. }
    destruct (fs.is_dir e (conventional model out_path kind)) eqn:Hdir.
    { split; [|by intros (_ & ? & _)].
      destruct (fs.autogluon e); destruct (String.eqb kind "tuned");
        cbn [fst]; done. }
    destruct (fs.is_file e model) eqn:Hmodel; [|done].
    split; [|by intros (_ & _ & ?)].
    unfold fs.is_file in Hmodel. unfold fs.load.
    destruct (fs.nodes e !! model) as [[o| |]|]; try done;
      destruct (String.eqb kind "tuned"); cbn [fst]; try done.
    intros H. by apply unrecognized_differs in H. }
  split; [done|]. intros Hr. apply Hiff in Hr as (Hfile & Hdir & Hmodel).
  unfold load_model, resolve_model.
  fold (conventional model out_path kind). by rewrite Hfile, Hdir, Hmodel.
Qed.
